(** * Retrieval and context assembly: a shallow embedding

    The development embeds, function by function, the JavaScript of

    - [utils/embedding-utils.js] (module [EmbeddingUtils]),
    - the second copy of that file, the one with retries, input guards and
      fallbacks (module [EmbeddingUtilsGuarded]),
    - [controllers/gemini.controller.js] (module [GeminiController], and
      module [GeminiImageController] for [sendImageMessage]),
    - [utils/file-utils.js] (module [FileUtils]),
    - [controllers/file.controller.js] (module [FileController]),

    and proves properties of the embedded functions.

    Conventions.  JavaScript numbers are IEEE doubles; they are idealised
    here as real numbers extended with the two infinities and NaN, signed
    zeros being identified.  Asynchronous functions are run sequentially:
    an [await] is a call in a state-and-exception monad whose state
    survives a [throw], as it does in JavaScript.  The embedding model, the
    generation model, the document store and the socket are external; their
    answers come from an abstract external state.  The arithmetic of the
    idealised numbers is exact: rounding, overflow and underflow are not
    modelled, and a statement that depends on the value a computation
    rounds to is true of the code up to them.  The upload directory is a
    map from paths to contents; the PDF parser, the image library and the
    vision model are external as well.  Strings are sequences of 8-bit
    characters. *)

From Stdlib Require Import List String Ascii Arith ZArith Lia Reals Lra Psatz Bool.
From Stdlib Require Import Sorting.Sorted Permutation DecimalString.
Import ListNotations.

Set Implicit Arguments.

(* ================================================================== *)
(** * JavaScript numbers *)

Module JsNum.

Inductive num : Type :=
| Fin (r : R)
| PInf
| NInf
| NaN.

(** [undefined] used as an operand converts to NaN: reading an array past
    its end, as [vecB[i]] may. *)
Definition ofIndex (v : list R) (i : nat) : num :=
  match nth_error v i with
  | Some x => Fin x
  | None => NaN
  end.

Definition ofNat (n : nat) : num := Fin (INR n).

Definition neg (a : num) : num :=
  match a with
  | Fin x => Fin (- x)
  | PInf => NInf
  | NInf => PInf
  | NaN => NaN
  end.

(** Sign of an infinity times a finite factor. *)
Definition scaleInf (inf : num) (x : R) : num :=
  if Req_dec_T x 0 then NaN
  else if Rlt_dec 0 x then inf else neg inf.

Definition add (a b : num) : num :=
  match a, b with
  | NaN, _ | _, NaN => NaN
  | Fin x, Fin y => Fin (x + y)
  | PInf, NInf | NInf, PInf => NaN
  | PInf, _ | _, PInf => PInf
  | NInf, _ | _, NInf => NInf
  end.

Definition sub (a b : num) : num := add a (neg b).

Definition mul (a b : num) : num :=
  match a, b with
  | NaN, _ | _, NaN => NaN
  | Fin x, Fin y => Fin (x * y)
  | Fin x, PInf | PInf, Fin x => scaleInf PInf x
  | Fin x, NInf | NInf, Fin x => scaleInf NInf x
  | PInf, PInf | NInf, NInf => PInf
  | PInf, NInf | NInf, PInf => NInf
  end.

Definition div (a b : num) : num :=
  match a, b with
  | NaN, _ | _, NaN => NaN
  | Fin x, Fin y =>
      if Req_dec_T y 0 then
        if Req_dec_T x 0 then NaN
        else if Rlt_dec 0 x then PInf else NInf
      else Fin (x / y)
  | Fin _, _ => Fin 0
  | PInf, Fin y => if Rlt_dec y 0 then NInf else PInf
  | NInf, Fin y => if Rlt_dec y 0 then PInf else NInf
  | _, _ => NaN
  end.

(** [Math.sqrt]. *)
Definition sqrt (a : num) : num :=
  match a with
  | Fin x => if Rlt_dec x 0 then NaN else Fin (R_sqrt.sqrt x)
  | PInf => PInf
  | _ => NaN
  end.

(** [Math.min] of two arguments. *)
Definition min (a b : num) : num :=
  match a, b with
  | NaN, _ | _, NaN => NaN
  | NInf, _ | _, NInf => NInf
  | PInf, c | c, PInf => c
  | Fin x, Fin y => Fin (Rmin x y)
  end.

(** [a === 0]. *)
Definition isZero (a : num) : bool :=
  match a with
  | Fin x => if Req_dec_T x 0 then true else false
  | _ => false
  end.

(** [a > 0]; false on NaN. *)
Definition gt0 (a : num) : bool :=
  match a with
  | Fin x => if Rlt_dec 0 x then true else false
  | PInf => true
  | _ => false
  end.

(** [b <= a] between finite numbers; it fails as soon as one side is not a
    finite number. *)
Definition geFin (a b : num) : Prop :=
  match a, b with
  | Fin x, Fin y => (y <= x)%R
  | _, _ => False
  end.

End JsNum.

Import JsNum.

(* ================================================================== *)
(** * JavaScript arrays and strings *)

Module JsArray.

(** The relative index of [Array.prototype.slice]: a negative index counts
    from the end, and the result is clamped to [0, len]. *)
Definition relIndex (len : nat) (i : Z) : nat :=
  if (i <? 0)%Z then Z.to_nat (Z.max (Z.of_nat len + i) 0)
  else Nat.min (Z.to_nat i) len.

(** [arr.slice(start, end)]. *)
Definition slice {A : Type} (arr : list A) (start end_ : Z) : list A :=
  let k := relIndex (List.length arr) start in
  let final := relIndex (List.length arr) end_ in
  firstn (final - k) (skipn k arr).

(** [arr.slice(start)]: up to the end of the array. *)
Definition sliceFrom {A : Type} (arr : list A) (start : Z) : list A :=
  skipn (relIndex (List.length arr) start) arr.

(** [Array.prototype.sort(comparefn)].  The sort is stable; [comparefn a b]
    positive puts [a] after [b], and a NaN answer counts as zero.  [insert]
    moves an element to the right past the elements it must follow.  The
    result is that of the engine as long as [comparefn] is a consistent
    order; with NaN answers among several elements the order an engine
    gives is its own, and may differ from this one. *)
Section Sort.
Context {A : Type} (comparefn : A -> A -> num).

Fixpoint insert (x : A) (sorted : list A) : list A :=
  match sorted with
  | [] => [x]
  | y :: rest =>
      if gt0 (comparefn x y) then y :: insert x rest
      else x :: y :: rest
  end.

Fixpoint sort (arr : list A) : list A :=
  match arr with
  | [] => []
  | x :: rest => insert x (sort rest)
  end.
End Sort.

(** [arr.join(sep)] on an array of strings. *)
Definition join (sep : string) (arr : list string) : string :=
  String.concat sep arr.

(** [arr.flatMap(f)]. *)
Definition flatMap {A B : Type} (f : A -> list B) (arr : list A) : list B :=
  List.concat (map f arr).

End JsArray.

(** The two-character separator of the [join] calls: a blank line. *)
Definition nl : string := String (ascii_of_nat 10) EmptyString.
Definition blankLine : string := (nl ++ nl)%string.
Definition ellipsis : string := "..."%string.

(** A non-empty string is truthy. *)
Definition truthy (s : string) : bool :=
  match s with
  | EmptyString => false
  | String _ _ => true
  end.

(* ================================================================== *)
(** * The insertion-ordered [Map], keyed by strings *)

Module JsMap.

Section Ops.
Context {V : Type}.

Definition t := list (string * V).

Definition empty : t := [].

Definition size (m : t) : nat := List.length m.

Fixpoint get (k : string) (m : t) : option V :=
  match m with
  | [] => None
  | (k', v) :: rest => if String.eqb k k' then Some v else get k rest
  end.

Definition has (k : string) (m : t) : bool :=
  match get k m with
  | Some _ => true
  | None => false
  end.

(** [set] keeps the position of a key that is already present and puts
    a new key last. *)
Fixpoint set (k : string) (v : V) (m : t) : t :=
  match m with
  | [] => [(k, v)]
  | (k', v') :: rest =>
      if String.eqb k k' then (k, v) :: rest
      else (k', v') :: set k v rest
  end.

Fixpoint delete (k : string) (m : t) : t :=
  match m with
  | [] => []
  | (k', v') :: rest =>
      if String.eqb k k' then rest else (k', v') :: delete k rest
  end.

Definition keys (m : t) : list string := map fst m.

(** [m.keys().next().value]: the oldest key, [undefined] on an empty map. *)
Definition firstKey (m : t) : option string := hd_error (keys m).
End Ops.

Arguments t : clear implicits.

End JsMap.

(* ================================================================== *)
(** * Exceptions and state *)

(** A JavaScript [Error]: its [message], and the detail an upstream HTTP
    error carries at [err.response.data.error.message], when it has one. *)
Record Error : Type := mkError {
  message : string;
  responseDetail : option string
}.

(** [new Error(msg)]. *)
Definition newError (msg : string) : Error := mkError msg None.

Inductive Result (A : Type) : Type :=
| Ok (a : A)
| Throw (e : Error).

Arguments Ok {A} a.
Arguments Throw {A} e.

(** A computation over a state [S]: the state survives an exception. *)
Definition M (S A : Type) : Type := S -> Result A * S.

Definition ret {S A : Type} (a : A) : M S A := fun s => (Ok a, s).

Definition throw {S A : Type} (e : Error) : M S A := fun s => (Throw e, s).

Definition bind {S A B : Type} (m : M S A) (k : A -> M S B) : M S B :=
  fun s =>
    match m s with
    | (Ok a, s') => k a s'
    | (Throw e, s') => (Throw e, s')
    end.

(** [try { body } catch (e) { handler }]. *)
Definition tryCatch {S A : Type} (body : M S A) (handler : Error -> M S A)
  : M S A :=
  fun s =>
    match body s with
    | (Ok a, s') => (Ok a, s')
    | (Throw e, s') => handler e s'
    end.

Definition gets {S A : Type} (f : S -> A) : M S A := fun s => (Ok (f s), s).

Definition modify {S : Type} (f : S -> S) : M S unit := fun s => (Ok tt, f s).

Declare Scope js_scope.
Delimit Scope js_scope with js.
Notation "x <- c ;; k" := (bind c (fun x => k))
  (at level 61, c at next level, right associativity) : js_scope.
Notation "c ;; k" := (bind c (fun _ => k))
  (at level 61, right associativity) : js_scope.
Local Open Scope js_scope.

(** [for (const x of xs) body(x)]. *)
Fixpoint forOf {S A : Type} (xs : list A) (body : A -> M S unit) : M S unit :=
  match xs with
  | [] => ret tt
  | x :: rest => body x ;; forOf rest body
  end.

(* ================================================================== *)
(** * Data model *)

(** An embedding vector, as the embedding model returns it. *)
Definition Embedding : Type := list R.

(** A field that holds an array is truthy and non-empty; a missing field
    ([undefined] or [null]) is [None]. *)
Definition hasEmbedding (e : option Embedding) : bool :=
  match e with
  | Some v => 0 <? List.length v
  | None => false
  end.

(** The objects [{ text, embedding }], with [fileName] when the controller
    adds it. *)
Module Chunk.
Record t : Type := make {
  text : string;
  embedding : option Embedding;
  fileName : option string
}.
End Chunk.

(** [{ ...chunk, score }]. *)
Module ScoredChunk.
Record t : Type := make {
  chunk : Chunk.t;
  score : num
}.
End ScoredChunk.

Inductive Sender : Type := user | ai.

Module FileRef.
Record t : Type := make {
  fileId : option nat;
  fileName : string
}.
End FileRef.

Module Message.
Record t : Type := make {
  sender : Sender;
  content : string;
  embedding : option Embedding;
  fileRefs : list FileRef.t
}.
End Message.

(** A template literal prints a missing value as [undefined]. *)
Definition interpolate (o : option string) : string :=
  match o with
  | Some s => s
  | None => "undefined"%string
  end.

(* ================================================================== *)
(** * External capabilities of the embedding utilities *)

(** [embedContent] is [model.embedContent(text)] followed by the read of
    [result.embedding.values]; [generateContent] is
    [model.generateContent(prompt)] followed by [result.response.text()];
    [random] is [Math.random]; [development] is the test
    [process.env.NODE_ENV === 'development'].  [defaultMaxRetries] is the
    retry count [withRetry] uses when its caller gives none: the file that
    defines it is not part of the sources at hand. *)
Record Capabilities (Ext : Type) : Type := {
  embedContent : string -> Ext -> Result Embedding * Ext;
  generateContent : string -> Ext -> Result string * Ext;
  random : Ext -> R * Ext;
  development : bool;
  defaultMaxRetries : nat
}.

(** The state of the module: the module-level [embeddingCache] and the
    outside world. *)
Record UState (Ext : Type) : Type := mkUState {
  embeddingCache : JsMap.t Embedding;
  ext : Ext
}.

Section Calls.
Context {Ext : Type}.

(** A call to an external capability. *)
Definition callExt {A : Type} (f : Ext -> Result A * Ext)
  : M (UState Ext) A :=
  fun s =>
    let (r, x) := f (ext s) in
    (r, mkUState (embeddingCache s) x).

Definition modifyCache (f : JsMap.t Embedding -> JsMap.t Embedding)
  : M (UState Ext) unit :=
  modify (fun s => mkUState (f (embeddingCache s)) (ext s)).

(** Lines 23-30 of [generateEmbedding], the same in both copies: store
    the vector, then drop the oldest key once the size passes 1000. *)
Definition storeInCache (cacheKey : string) (embedding : Embedding)
  : M (UState Ext) unit :=
  modifyCache (JsMap.set cacheKey embedding) ;;
  size <- gets (fun s => JsMap.size (embeddingCache s)) ;;
  if 1000 <? size then
    oldestKey <- gets (fun s => JsMap.firstKey (embeddingCache s)) ;;
    match oldestKey with
    | Some k => modifyCache (JsMap.delete k)
    | None => ret tt
    end
  else ret tt.
End Calls.

(** The loop of [cosineSimilarity] and its body, the same in both copies. *)
Definition cosineStep (vecA vecB : Embedding) (acc : num * num * num)
    (i : nat) : num * num * num :=
  let '(dotProduct, normA, normB) := acc in
  (add dotProduct (mul (ofIndex vecA i) (ofIndex vecB i)),
   add normA (mul (ofIndex vecA i) (ofIndex vecA i)),
   add normB (mul (ofIndex vecB i) (ofIndex vecB i))).

Definition cosineLoop (vecA vecB : Embedding) : num * num * num :=
  fold_left (cosineStep vecA vecB) (seq 0 (List.length vecA))
    (Fin 0, Fin 0, Fin 0).

(** The score of a chunk, the same in both copies: 70% similarity, 30%
    length bonus. *)
Definition lengthBonus (text : string) : num :=
  mul (min (Fin 1) (div (ofNat (String.length text)) (Fin 2000))) (Fin (3 / 10)).

(** The comparison function [(a, b) => b.score - a.score]. *)
Definition byScoreDesc (a b : ScoredChunk.t) : num :=
  sub (ScoredChunk.score b) (ScoredChunk.score a).

(** [`${msg.sender === 'user' ? 'User' : 'AI'}: ${msg.content}`]. *)
Definition formatMessage (msg : Message.t) : string :=
  ((match Message.sender msg with user => "User" | ai => "AI" end)
     ++ ": " ++ Message.content msg)%string.

Definition summaryPrompt (formattedMessages : string) : string :=
  ("Summarize the following conversation, focusing on technical details and key decisions. Keep the summary concise but include all important information:"
     ++ blankLine ++ formattedMessages)%string.

(** A [TypeError], as reading a property of [undefined] raises. *)
Definition typeError : Error :=
  newError "Cannot read properties of undefined".

(** Run a function that may throw over an array, as [arr.map] does. *)
Fixpoint mapResult {A B : Type} (f : A -> Result B) (arr : list A)
  : Result (list B) :=
  match arr with
  | [] => Ok []
  | x :: rest =>
      match f x with
      | Throw e => Throw e
      | Ok y =>
          match mapResult f rest with
          | Throw e => Throw e
          | Ok ys => Ok (y :: ys)
          end
      end
  end.

Definition ofResult {S A : Type} (r : Result A) : M S A := fun s => (r, s).

(* ================================================================== *)
(** * utils/embedding-utils.js *)

Module EmbeddingUtils.
Section WithCapabilities.
Context {Ext : Type} (caps : Capabilities Ext).

Definition generateEmbedding (text : string) : M (UState Ext) Embedding :=
  tryCatch
    (let cacheKey := substring 0 100 text in
     cached <- gets (fun s => JsMap.get cacheKey (embeddingCache s)) ;;
     match cached with
     | Some embedding => ret embedding
     | None =>
         embedding <- callExt (embedContent caps text) ;;
         storeInCache cacheKey embedding ;;
         ret embedding
     end)
    (fun _ => throw (newError "Failed to generate embedding")).

(** The [for ... of] loop with its accumulator [embeddedChunks]. *)
Fixpoint embedEach (chunks : list string) (embeddedChunks : list Chunk.t)
  : M (UState Ext) (list Chunk.t) :=
  match chunks with
  | [] => ret embeddedChunks
  | chunk :: rest =>
      embedding <- generateEmbedding chunk ;;
      embedEach rest
        (embeddedChunks ++ [Chunk.make chunk (Some embedding) None])
  end.

Definition generateChunkEmbeddings (chunks : list string)
  : M (UState Ext) (list Chunk.t) :=
  embedEach chunks [].

(** No input is checked: [vecA.length] raises on a missing [vecA], and
    [vecB[i]] raises on a missing [vecB] as soon as the loop runs. *)
Definition cosineSimilarity (vecA vecB : option Embedding) : Result num :=
  match vecA with
  | None => Throw typeError
  | Some a =>
      match vecB, a with
      | None, _ :: _ => Throw typeError
      | None, [] => Ok (div (Fin 0) (mul (sqrt (Fin 0)) (sqrt (Fin 0))))
      | Some b, _ =>
          let '(dotProduct, normA, normB) := cosineLoop a b in
          Ok (div dotProduct (mul (sqrt normA) (sqrt normB)))
      end
  end.

Definition scoreChunk (queryEmbedding : Embedding) (chunk : Chunk.t)
  : Result ScoredChunk.t :=
  match cosineSimilarity (Some queryEmbedding) (Chunk.embedding chunk) with
  | Throw e => Throw e
  | Ok sim =>
      let similarity := mul sim (Fin (7 / 10)) in
      Ok (ScoredChunk.make chunk
            (add similarity (lengthBonus (Chunk.text chunk))))
  end.

(** [embeddedChunks] is [None] when the caller passes no array; [count]
    is the number of chunks asked for. *)
Definition findRelevantChunks (query : string)
    (embeddedChunks : option (list Chunk.t)) (count : nat)
  : M (UState Ext) (list ScoredChunk.t) :=
  tryCatch
    (queryEmbedding <- generateEmbedding query ;;
     scoredChunks <-
       match embeddedChunks with
       | None => throw typeError
       | Some chunks => ofResult (mapResult (scoreChunk queryEmbedding) chunks)
       end ;;
     ret (JsArray.slice (JsArray.sort byScoreDesc scoredChunks)
            0 (Z.of_nat count)))
    (fun _ => throw (newError "Failed to find relevant chunks")).

Definition generateSummary (messages : list Message.t)
  : M (UState Ext) Chunk.t :=
  tryCatch
    (let formattedMessages :=
       JsArray.join blankLine (map formatMessage messages) in
     let prompt := summaryPrompt formattedMessages in
     summary <- callExt (generateContent caps prompt) ;;
     embedding <- generateEmbedding summary ;;
     ret (Chunk.make summary (Some embedding) None))
    (fun _ => throw (newError "Failed to generate summary")).

End WithCapabilities.
End EmbeddingUtils.

(* ================================================================== *)
(** * The second copy of embedding-utils.js: retries, guards, fallbacks *)

Module EmbeddingUtilsGuarded.
Section WithCapabilities.
Context {Ext : Type} (caps : Capabilities Ext).

(** Modelled from the spec: [withRetry] of [./retry-utils], a file that
    is not among the sources.  The spec gives it an attempt budget of the
    initial call plus [maxRetries] retries, and has the failure of the
    last attempt propagate. *)
Fixpoint retryLoop {A : Type} (retriesLeft : nat) (fn : M (UState Ext) A)
  : M (UState Ext) A :=
  fun s =>
    match fn s with
    | (Ok a, s') => (Ok a, s')
    | (Throw e, s') =>
        match retriesLeft with
        | O => (Throw e, s')
        | S n => retryLoop n fn s'
        end
    end.

Definition withRetry {A : Type} (fn : M (UState Ext) A)
    (maxRetries : option nat) : M (UState Ext) A :=
  retryLoop
    (match maxRetries with
     | Some n => n
     | None => defaultMaxRetries caps
     end) fn.

(** [Array(n).fill(0).map(() => Math.random() * 2 - 1)]. *)
Fixpoint mockEmbedding (n : nat) : M (UState Ext) Embedding :=
  match n with
  | O => ret []
  | S k =>
      r <- callExt (fun x => let (v, x') := random caps x in (Ok v, x')) ;;
      rest <- mockEmbedding k ;;
      ret ((r * 2 - 1)%R :: rest)
  end.

Definition generateEmbedding (text : string) : M (UState Ext) Embedding :=
  tryCatch
    (let cacheKey := substring 0 100 text in
     cached <- gets (fun s => JsMap.get cacheKey (embeddingCache s)) ;;
     match cached with
     | Some embedding => ret embedding
     | None =>
         embedding <-
           withRetry (callExt (embedContent caps text)) (Some 2) ;;
         storeInCache cacheKey embedding ;;
         ret embedding
     end)
    (fun _ =>
       if development caps then mockEmbedding 768
       else throw (newError "Failed to generate embedding")).

(** The [for ... of] loop with its accumulator [embeddedChunks]; the
    [try] is inside the loop body. *)
Fixpoint embedEach (chunks : list string) (embeddedChunks : list Chunk.t)
  : M (UState Ext) (list Chunk.t) :=
  match chunks with
  | [] => ret embeddedChunks
  | chunk :: rest =>
      pushed <-
        tryCatch
          (embedding <- generateEmbedding chunk ;;
           ret (embeddedChunks ++ [Chunk.make chunk (Some embedding) None]))
          (fun _ =>
             ret (embeddedChunks ++ [Chunk.make chunk (Some []) None])) ;;
      embedEach rest pushed
  end.

Definition generateChunkEmbeddings (chunks : list string)
  : M (UState Ext) (list Chunk.t) :=
  embedEach chunks [].

Definition cosineSimilarity (vecA vecB : option Embedding) : num :=
  match vecA, vecB with
  | Some a, Some b =>
      if negb (List.length a =? List.length b) || (List.length a =? 0)
      then Fin 0
      else
        let '(dotProduct, normA, normB) := cosineLoop a b in
        if isZero normA || isZero normB then Fin 0
        else div dotProduct (mul (sqrt normA) (sqrt normB))
  | _, _ => Fin 0
  end.

Definition scoreChunk (queryEmbedding : Embedding) (chunk : Chunk.t)
  : ScoredChunk.t :=
  let similarity :=
    mul (cosineSimilarity (Some queryEmbedding) (Chunk.embedding chunk))
        (Fin (7 / 10)) in
  ScoredChunk.make chunk (add similarity (lengthBonus (Chunk.text chunk))).

Definition findRelevantChunks (query : string)
    (embeddedChunks : option (list Chunk.t)) (count : nat)
  : M (UState Ext) (list ScoredChunk.t) :=
  tryCatch
    (match embeddedChunks with
     | None | Some [] => ret []
     | Some chunks =>
         queryEmbedding <- generateEmbedding query ;;
         let scoredChunks :=
           map (scoreChunk queryEmbedding)
             (filter (fun chunk => hasEmbedding (Chunk.embedding chunk))
                chunks) in
         if List.length scoredChunks =? 0 then ret []
         else
           ret (JsArray.slice (JsArray.sort byScoreDesc scoredChunks)
                  0 (Z.of_nat count))
     end)
    (fun _ => ret []).

Definition fallbackSummary : Chunk.t :=
  Chunk.make "Previous conversation covered various topics." (Some []) None.

Definition generateSummary (messages : list Message.t)
  : M (UState Ext) Chunk.t :=
  tryCatch
    (let formattedMessages :=
       JsArray.join blankLine (map formatMessage messages) in
     let prompt := summaryPrompt formattedMessages in
     summary <- withRetry (callExt (generateContent caps prompt)) None ;;
     embedding <-
       tryCatch (generateEmbedding summary) (fun _ => ret []) ;;
     ret (Chunk.make summary (Some embedding) None))
    (fun _ => ret fallbackSummary).

End WithCapabilities.
End EmbeddingUtilsGuarded.

(* ================================================================== *)
(** * controllers/gemini.controller.js *)

Module MessageRange.
Record t : Type := make {
  start : Z;
  end_ : Z
}.
End MessageRange.

Module Summary.
Record t : Type := make {
  text : string;
  embedding : option Embedding;
  messageRange : MessageRange.t
}.
End Summary.

(** A chat document. *)
Module Chat.
Record t : Type := make {
  _id : nat;
  userId : nat;
  messages : list Message.t;
  summaries : list Summary.t;
  title : string
}.

(** [chat.messages.push(msg)]. *)
Definition pushMessage (chat : t) (msg : Message.t) : t :=
  make (_id chat) (userId chat) (messages chat ++ [msg]) (summaries chat)
    (title chat).

(** [chat.summaries.push(s)]. *)
Definition pushSummary (chat : t) (s : Summary.t) : t :=
  make (_id chat) (userId chat) (messages chat) (summaries chat ++ [s])
    (title chat).

(** [chat.title = newTitle]. *)
Definition setTitle (chat : t) (newTitle : string) : t :=
  make (_id chat) (userId chat) (messages chat) (summaries chat) newTitle.
End Chat.

(** A file document with its embedded chunks. *)
Module File.
Record t : Type := make {
  _id : nat;
  userId : nat;
  fileName : string;
  chunks : list Chunk.t
}.
End File.

(** The document store: the two collections. *)
Record Store : Type := mkStore {
  chats : list Chat.t;
  files : list File.t
}.

Inductive Status : Type := started | completed.

(** The three kinds of socket event. *)
Inductive Event : Type :=
| processing (chatId : nat) (status : Status) (title : option string)
| messageChunk (chatId : nat) (chunk : string)
| errorEvent (chatId : nat) (error : string).

(** The bodies [sendMessage] answers with. *)
Inductive Body : Type :=
| chatNotFound
| messageProcessed (response title : string)
| geminiFailed (error : string).

Record Response : Type := mkResponse {
  status : nat;
  body : Body
}.

Inductive Role : Type := roleUser | roleModel.

(** An entry of the [history] handed to [startChat]. *)
Record Turn : Type := mkTurn {
  role : Role;
  parts : string
}.

Module Request.
Record t : Type := make {
  message : string;
  fileIds : option (list nat);
  chatId : nat;
  user : nat
}.
End Request.

(** What the controller imports from the embedding utilities. *)
Record Utils (Ext : Type) : Type := {
  generateEmbedding : string -> M (UState Ext) Embedding;
  findRelevantChunks :
    string -> option (list Chunk.t) -> nat -> M (UState Ext) (list ScoredChunk.t);
  generateSummary : list Message.t -> M (UState Ext) Chunk.t
}.

(** The external services of the controller.  [dbOutcome] decides whether a
    store operation fails; [sendMessageStream] answers with the stream, an
    item of which is the text of a chunk or the error that ends the
    iteration; [titleContent] is [model.generateContent] followed by
    [response.text()]. *)
Record Services (Ext : Type) : Type := {
  dbOutcome : Ext -> option Error * Ext;
  sendMessageStream :
    list Turn -> string -> Ext -> Result (list (Result string)) * Ext;
  titleContent : string -> Ext -> Result string * Ext
}.

(** The state a request runs in: the store, the module-level [io] (set or
    not), the events emitted so far with the room of each, the response
    written to [res], and the state of the utilities. *)
Record State (Ext : Type) : Type := mkState {
  store : Store;
  io : bool;
  emitted : list (nat * Event);
  response : option Response;
  utils : UState Ext
}.

(** [String.prototype.trim], on the white space of the first 256 code
    units. *)
Definition isWhiteSpace (c : ascii) : bool :=
  let n := nat_of_ascii c in
  (n =? 9) || (n =? 10) || (n =? 11) || (n =? 12) || (n =? 13)
  || (n =? 32) || (n =? 160).

Fixpoint dropWhiteSpace (l : list ascii) : list ascii :=
  match l with
  | [] => []
  | c :: rest => if isWhiteSpace c then dropWhiteSpace rest else l
  end.

Definition trim (s : string) : string :=
  string_of_list_ascii
    (rev (dropWhiteSpace (rev (dropWhiteSpace (list_ascii_of_string s))))).

Module GeminiController.
Section WithServices.
Context {Ext : Type} (embeddingUtils : Utils Ext) (svc : Services Ext).

Definition MC (A : Type) : Type := M (State Ext) A.

(** A call into the embedding utilities. *)
Definition liftU {A : Type} (m : M (UState Ext) A) : MC A :=
  fun s =>
    let (r, u) := m (utils s) in
    (r, mkState (store s) (io s) (emitted s) (response s) u).

Definition callService {A : Type} (f : Ext -> A * Ext) : MC A :=
  fun s =>
    let (a, x) := f (ext (utils s)) in
    (Ok a,
     mkState (store s) (io s) (emitted s) (response s)
       (mkUState (embeddingCache (utils s)) x)).

Definition callServiceResult {A : Type} (f : Ext -> Result A * Ext)
  : MC A :=
  r <- callService f ;; ofResult r.

(** A store operation raises when the store says so. *)
Definition dbCall : MC unit :=
  outcome <- callService (dbOutcome svc) ;;
  match outcome with
  | Some e => throw e
  | None => ret tt
  end.

Definition findChat (chatId userId : nat) (st : Store) : option Chat.t :=
  find (fun c => (Chat._id c =? chatId) && (Chat.userId c =? userId))
    (chats st).

(** [Chat.findOne({ _id: chatId, userId })]. *)
Definition Chat_findOne (chatId userId : nat) : MC (option Chat.t) :=
  dbCall ;; gets (fun s => findChat chatId userId (store s)).

(** [File.find({ _id: { $in: ids }, userId })], and the same query
    without the owner. *)
Definition File_find (ids : list nat) (owner : option nat)
  : MC (list File.t) :=
  dbCall ;;
  gets (fun s =>
          filter
            (fun f =>
               existsb (Nat.eqb (File._id f)) ids
               && match owner with
                  | Some u => File.userId f =? u
                  | None => true
                  end)
            (files (store s))).

Definition saveChat (chat : Chat.t) (st : Store) : Store :=
  mkStore
    (map (fun c => if Chat._id c =? Chat._id chat then chat else c)
       (chats st))
    (files st).

(** [chat.save()]. *)
Definition Chat_save (chat : Chat.t) : MC unit :=
  dbCall ;;
  modify (fun s =>
            mkState (saveChat chat (store s)) (io s) (emitted s)
              (response s) (utils s)).

(** [if (io) io.to(userId).emit(...)]. *)
Definition emit (userId : nat) (ev : Event) : MC unit :=
  modify (fun s =>
            if io s then
              mkState (store s) (io s) (emitted s ++ [(userId, ev)])
                (response s) (utils s)
            else s).

(** [res.status(code).json(body)]. *)
Definition res_json (code : nat) (b : Body) : MC unit :=
  modify (fun s =>
            mkState (store s) (io s) (emitted s)
              (Some (mkResponse code b)) (utils s)).

(** The test of line 63, which the spec calls [shouldSummarize]. *)
Definition shouldSummarize (messageCount : nat) : bool :=
  (10 <? messageCount) && (messageCount mod 10 =? 0).

(** Lines 61-81: the summary of the ten messages before the last one. *)
Definition summarizeIfDue (chat : Chat.t) : MC Chat.t :=
  if shouldSummarize (List.length (Chat.messages chat)) then
    let messagesForSummary :=
      JsArray.slice (Chat.messages chat) (-11) (-1) in
    summary <- liftU (generateSummary embeddingUtils messagesForSummary) ;;
    let chat' :=
      Chat.pushSummary chat
        (Summary.make (Chunk.text summary) (Chunk.embedding summary)
           (MessageRange.make
              (Z.of_nat (List.length (Chat.messages chat)) - 11)
              (Z.of_nat (List.length (Chat.messages chat)) - 1))) in
    Chat_save chat' ;;
    ret chat'
  else ret chat.

(** Lines 83-109. *)
Definition gatherFileContext (message : string)
    (fileReferences : list FileRef.t) : MC string :=
  if 0 <? List.length fileReferences then
    referencedFiles <-
      File_find
        (flat_map (fun ref => match FileRef.fileId ref with
                              | Some i => [i]
                              | None => []
                              end) fileReferences)
        None ;;
    let allChunks :=
      JsArray.flatMap
        (fun file =>
           map (fun chunk =>
                  Chunk.make (Chunk.text chunk) (Chunk.embedding chunk)
                    (Some (File.fileName file)))
             (File.chunks file))
        referencedFiles in
    if 0 <? List.length allChunks then
      relevantFileChunks <-
        liftU (findRelevantChunks embeddingUtils message (Some allChunks) 3) ;;
      ret (JsArray.join blankLine
             (map (fun sc =>
                     ("[From "
                        ++ interpolate (Chunk.fileName (ScoredChunk.chunk sc))
                        ++ "]: " ++ Chunk.text (ScoredChunk.chunk sc))%string)
                relevantFileChunks))
    else ret EmptyString
  else ret EmptyString.

Definition getRelevantSummaries (chat : Chat.t) (query : string)
  : MC string :=
  tryCatch
    (if List.length (Chat.summaries chat) =? 0 then ret EmptyString
     else
       relevantSummaries <-
         liftU
           (findRelevantChunks embeddingUtils query
              (Some
                 (map (fun summary =>
                         Chunk.make (Summary.text summary)
                           (Summary.embedding summary) None)
                    (Chat.summaries chat)))
              1) ;;
       ret (JsArray.join blankLine
              (map (fun sc =>
                      ("CONVERSATION SUMMARY: "
                         ++ Chunk.text (ScoredChunk.chunk sc))%string)
                 relevantSummaries)))
    (fun _ => ret EmptyString).

Definition getRelevantMessages (chat : Chat.t) (query : string)
  : MC string :=
  tryCatch
    (if List.length (Chat.messages chat) <=? 5 then ret EmptyString
     else
       let messagesWithEmbeddings :=
         filter (fun msg => hasEmbedding (Message.embedding msg))
           (JsArray.slice (Chat.messages chat) 0 (-5)) in
       if List.length messagesWithEmbeddings =? 0 then
         getRelevantSummaries chat query
       else
         relevantMessages <-
           liftU
             (findRelevantChunks embeddingUtils query
                (Some
                   (map (fun msg =>
                           Chunk.make (Message.content msg)
                             (Message.embedding msg) None)
                      messagesWithEmbeddings))
                3) ;;
         ret (JsArray.join blankLine
                (map (fun sc => Chunk.text (ScoredChunk.chunk sc))
                   relevantMessages)))
    (fun _ => ret EmptyString).

Definition toTurn (msg : Message.t) : Turn :=
  mkTurn (match Message.sender msg with
          | user => roleUser
          | ai => roleModel
          end)
    (Message.content msg).

(** Lines 145-160. *)
Definition contextPrompt (fileContext relevantMessageContext : string)
  : string :=
  if truthy fileContext || truthy relevantMessageContext then
    ("[System] Prioritize (70%) this context over general knowledge:"
       ++ blankLine
       ++ (if truthy fileContext
           then "FILE CONTEXT:" ++ nl ++ fileContext ++ blankLine
           else EmptyString)
       ++ (if truthy relevantMessageContext
           then "CONVERSATION CONTEXT:" ++ nl ++ relevantMessageContext
                  ++ blankLine
           else EmptyString)
       ++ "Now answer the user's query based on this context and your knowledge."
       ++ blankLine)%string
  else EmptyString.

(** Lines 171-183: the [for await] loop over the stream. *)
Fixpoint consumeStream (userId chatId : nat) (stream : list (Result string))
    (aiReply : string) : MC string :=
  match stream with
  | [] => ret aiReply
  | Throw e :: _ => throw e
  | Ok chunkText :: rest =>
      if truthy chunkText then
        emit userId (messageChunk chatId chunkText) ;;
        consumeStream userId chatId rest (aiReply ++ chunkText)%string
      else consumeStream userId chatId rest aiReply
  end.

Definition titlePrompt (message aiReply : string) : string :=
  ("Based on this conversation, generate a very brief title (max 5 words):"
     ++ nl ++ "User: " ++ message ++ nl ++ "AI: " ++ aiReply)%string.

(** Lines 201-203. *)
Definition truncateTitle (suggestedTitle : string) : string :=
  if 50 <? String.length suggestedTitle
  then (substring 0 47 suggestedTitle ++ ellipsis)%string
  else suggestedTitle.

(** Lines 207-209. *)
Definition fallbackTitle (message : string) : string :=
  if 30 <? String.length message
  then (substring 0 27 message ++ ellipsis)%string
  else message.

(** Lines 196-211, run when [isFirstMessage] holds. *)
Definition generateTitle (chat : Chat.t) (message aiReply : string)
  : MC Chat.t :=
  tryCatch
    (titleText <-
       callServiceResult (titleContent svc (titlePrompt message aiReply)) ;;
     let suggestedTitle := trim titleText in
     ret (Chat.setTitle chat (truncateTitle suggestedTitle)))
    (fun _ => ret (Chat.setTitle chat (fallbackTitle message))).

(** [err.response?.data?.error?.message || err.message]. *)
Definition errorMessage (err : Error) : string :=
  match responseDetail err with
  | Some detail => if truthy detail then detail else message err
  | None => message err
  end.

(** What the first lines of [sendMessage] leave for the rest of it. *)
Record Context : Type := mkContext {
  chat : Chat.t;
  fileReferences : list FileRef.t;
  isFirstMessage : bool
}.

Definition userMessage (req : Request.t) (messageEmbedding : Embedding)
    (fileReferences : list FileRef.t) : Message.t :=
  Message.make user (Request.message req) (Some messageEmbedding)
    fileReferences.

(** Lines 23-54 of [sendMessage]: look the chat up, resolve the file
    references, embed the message, push it and save.  [None] is the early
    [return] of the 404 answer. *)
Definition appendUserMessage (req : Request.t) : MC (option Context) :=
  found <- Chat_findOne (Request.chatId req) (Request.user req) ;;
  match found with
  | None => res_json 404 chatNotFound ;; ret None
  | Some chat0 =>
      fileReferences <-
        match Request.fileIds req with
        | Some fileIds =>
            if 0 <? List.length fileIds then
              files <- File_find fileIds (Some (Request.user req)) ;;
              ret (map (fun file =>
                          FileRef.make (Some (File._id file))
                            (File.fileName file))
                     files)
            else ret []
        | None => ret []
        end ;;
      messageEmbedding <-
        liftU (generateEmbedding embeddingUtils (Request.message req)) ;;
      let chat1 :=
        Chat.pushMessage chat0
          (userMessage req messageEmbedding fileReferences) in
      let isFirstMessage := List.length (Chat.messages chat1) =? 1 in
      Chat_save chat1 ;;
      ret (Some (mkContext chat1 fileReferences isFirstMessage))
  end.

(** Lines 56-230 of [sendMessage]: everything after the first save. *)
Definition generateReply (req : Request.t) (ctx : Context) : MC unit :=
  let message := Request.message req in
  let userId := Request.user req in
  let chatId := Request.chatId req in
  emit userId (processing chatId started None) ;;
  chat2 <- summarizeIfDue (chat ctx) ;;
  fileContext <- gatherFileContext message (fileReferences ctx) ;;
  relevantMessageContext <- getRelevantMessages chat2 message ;;
  let recentMessages := JsArray.slice (Chat.messages chat2) (-6) (-1) in
  let history := map toTurn recentMessages in
  let promptWithContext :=
    (contextPrompt fileContext relevantMessageContext ++ message)%string in
  stream <-
    callServiceResult (sendMessageStream svc history promptWithContext) ;;
  aiReply <- consumeStream userId chatId stream EmptyString ;;
  aiReplyEmbedding <- liftU (generateEmbedding embeddingUtils aiReply) ;;
  let chat3 :=
    Chat.pushMessage chat2
      (Message.make ai aiReply (Some aiReplyEmbedding) []) in
  chat4 <-
    (if isFirstMessage ctx then generateTitle chat3 message aiReply
     else ret chat3) ;;
  Chat_save chat4 ;;
  emit userId (processing chatId completed (Some (Chat.title chat4))) ;;
  res_json 200 (messageProcessed aiReply (Chat.title chat4)).

(** Lines 231-245: the [catch] of [sendMessage]. *)
Definition onError (req : Request.t) (err : Error) : MC unit :=
  emit (Request.user req) (errorEvent (Request.chatId req) (message err)) ;;
  res_json 500 (geminiFailed (errorMessage err)).

(** The body of the [try] of [sendMessage]. *)
Definition processMessage (req : Request.t) : MC unit :=
  ctx <- appendUserMessage req ;;
  match ctx with
  | None => ret tt
  | Some ctx => generateReply req ctx
  end.

Definition sendMessage (req : Request.t) : MC unit :=
  tryCatch (processMessage req) (onError req).

End WithServices.
End GeminiController.


(* ================================================================== *)
(** * Vocabulary of the statements *)

Import JsArray.
Import GeminiController.

Module Plain := EmbeddingUtils.
Module Guarded := EmbeddingUtilsGuarded.

(** ** Vectors over the reals *)

(** The dot product of two vectors, over their common length. *)
Fixpoint dotR (a b : list R) : R :=
  match a, b with
  | x :: a', y :: b' => (x * y + dotR a' b')%R
  | _, _ => 0%R
  end.

Definition norm (v : list R) : R := R_sqrt.sqrt (dotR v v).

(** The inputs on which the similarity is 0 by decree: a missing vector,
    unequal lengths, empty vectors, a vector of norm zero. *)
Definition degenerate (vecA vecB : option Embedding) : Prop :=
  match vecA, vecB with
  | Some a, Some b =>
      List.length a <> List.length b \/ List.length a = 0
      \/ norm a = 0%R \/ norm b = 0%R
  | _, _ => True
  end.

(** ** Ranked chunks *)

Definition finiteScore (sc : ScoredChunk.t) : Prop :=
  exists r, ScoredChunk.score sc = Fin r.

(** [a] is ranked no lower than [b]. *)
Definition scoreGe (a b : ScoredChunk.t) : Prop :=
  geFin (ScoredChunk.score a) (ScoredChunk.score b).

Definition candidates (embeddedChunks : option (list Chunk.t)) : list Chunk.t :=
  match embeddedChunks with
  | Some chunks => chunks
  | None => []
  end.

Definition embedded (c : Chunk.t) : bool := hasEmbedding (Chunk.embedding c).

(** ** Batch embedding *)

Definition embeddingOrEmpty (r : Result Embedding) : Embedding :=
  match r with
  | Ok e => e
  | Throw _ => []
  end.

Section BatchTrace.
Context {Ext : Type} (caps : Capabilities Ext).

(** The guarded batch as a plain recursion: the chunk objects and the
    final state. *)
Fixpoint embedTrace (chunks : list string) (s : UState Ext)
  : list Chunk.t * UState Ext :=
  match chunks with
  | [] => ([], s)
  | chunk :: rest =>
      let (r, s1) := Guarded.generateEmbedding caps chunk s in
      let (out, s2) := embedTrace rest s1 in
      (Chunk.make chunk (Some (embeddingOrEmpty r)) None :: out, s2)
  end.
End BatchTrace.

(** ** The cache *)

Definition cacheKeyOf (text : string) : string := substring 0 100 text.

Definition capacity : nat := 1000.

(** What lines 26-30 of [generateEmbedding] do to the cache. *)
Definition evict (cache : JsMap.t Embedding) : JsMap.t Embedding :=
  if capacity <? JsMap.size cache then
    match JsMap.firstKey cache with
    | Some k => JsMap.delete k cache
    | None => cache
    end
  else cache.

Definition cacheAfterStore (k : string) (v : Embedding)
    (cache : JsMap.t Embedding) : JsMap.t Embedding :=
  evict (JsMap.set k v cache).

(** The two copies of the utilities. *)
Inductive Copy : Type := plain | guarded.

Definition generateEmbeddingOf {Ext : Type} (copy : Copy)
    (caps : Capabilities Ext) : string -> M (UState Ext) Embedding :=
  match copy with
  | plain => Plain.generateEmbedding caps
  | guarded => Guarded.generateEmbedding caps
  end.

(** The state after embedding the texts one after the other. *)
Definition embedAll {Ext : Type} (copy : Copy) (caps : Capabilities Ext)
    (texts : list string) (s : UState Ext) : UState Ext :=
  fold_left (fun s text => snd (generateEmbeddingOf copy caps text s)) texts s.

(** The embedding model answers every request. *)
Definition alwaysEmbeds {Ext : Type} (caps : Capabilities Ext) : Prop :=
  forall text x, exists v x', embedContent caps text x = (Ok v, x').

(** A decidable test of distinctness. *)
Fixpoint distinctb (l : list string) : bool :=
  match l with
  | [] => true
  | x :: rest => negb (existsb (String.eqb x) rest) && distinctb rest
  end.

(** ** The controller linked with either copy *)

Definition plainUtils {Ext : Type} (caps : Capabilities Ext) : Utils Ext :=
  Build_Utils (Plain.generateEmbedding caps) (Plain.findRelevantChunks caps)
    (Plain.generateSummary caps).

Definition guardedUtils {Ext : Type} (caps : Capabilities Ext) : Utils Ext :=
  Build_Utils (Guarded.generateEmbedding caps)
    (Guarded.findRelevantChunks caps) (Guarded.generateSummary caps).

(** ** The conversation context *)

(** The candidates of the code, [slice(0, -5)] then the filter: the
    messages at the positions below [n - 5] that carry a non-empty
    embedding, [n] counting the message just appended. *)
Definition olderEmbeddedMessages (chat : Chat.t) : list Message.t :=
  filter (fun msg => hasEmbedding (Message.embedding msg))
    (firstn (List.length (Chat.messages chat) - 5) (Chat.messages chat)).

(** The messages before the one just appended, which is the last. *)
Definition earlierMessages (chat : Chat.t) : list Message.t :=
  removelast (Chat.messages chat).

(** The candidates in the words of the spec: the embedded messages older
    than the most recent 5, the one just appended excluded. *)
Definition specCandidates (chat : Chat.t) : list Message.t :=
  filter (fun msg => hasEmbedding (Message.embedding msg))
    (firstn (List.length (earlierMessages chat) - 5) (earlierMessages chat)).

Definition messageCandidate (msg : Message.t) : Chunk.t :=
  Chunk.make (Message.content msg) (Message.embedding msg) None.

Definition summaryCandidate (summary : Summary.t) : Chunk.t :=
  Chunk.make (Summary.text summary) (Summary.embedding summary) None.

Section ContextSpec.
Context {Ext : Type} (embeddingUtils : Utils Ext).

(** One retrieval: its candidates, its [topK], the text made of each
    result; a failure of the retriever gives the empty context. *)
Definition retrieveContext (query : string) (cands : list Chunk.t)
    (topK : nat) (render : ScoredChunk.t -> string) : M (State Ext) string :=
  tryCatch
    (found <-
       liftU (findRelevantChunks embeddingUtils query (Some cands) topK) ;;
     ret (JsArray.join blankLine (map render found)))
    (fun _ => ret EmptyString).

(** The context built from given candidates: empty below 6 messages;
    otherwise a retrieval with [topK] 3 over the candidates, and, when
    there is none, a retrieval with [topK] 1 over the summaries. *)
Definition contextFrom (candidates : list Message.t) (chat : Chat.t)
    (query : string) : M (State Ext) string :=
  if List.length (Chat.messages chat) <? 6 then ret EmptyString
  else
    match candidates with
    | _ :: _ =>
        retrieveContext query (map messageCandidate candidates)
          3 (fun sc => Chunk.text (ScoredChunk.chunk sc))
    | [] =>
        match Chat.summaries chat with
        | [] => ret EmptyString
        | _ :: _ =>
            retrieveContext query
              (map summaryCandidate (Chat.summaries chat))
              1 (fun sc => ("CONVERSATION SUMMARY: "
                              ++ Chunk.text (ScoredChunk.chunk sc))%string)
        end
    end.

(** The conversation context in the words of the spec. *)
Definition conversationContext (chat : Chat.t) (query : string)
  : M (State Ext) string :=
  contextFrom (specCandidates chat) chat query.
End ContextSpec.

(** ** A program logic for the controller *)

(** [hoare P m Q E]: from a state in [P], [m] ends in [Q] when it returns
    and in [E] when it throws. *)
Definition hoare {S A : Type} (P : S -> Prop) (m : M S A)
    (Q : A -> S -> Prop) (E : Error -> S -> Prop) : Prop :=
  forall s, P s ->
    match m s with
    | (Ok a, s') => Q a s'
    | (Throw e, s') => E e s'
    end.

(** The computations that leave the document store alone. *)
Definition keepsStore {Ext A : Type} (m : M (State Ext) A) : Prop :=
  forall s, store (snd (m s)) = store s.

(** The store holds the chat of the request, and its messages satisfy [P]. *)
Definition storeHas (chatId userId : nat) (P : list Message.t -> Prop)
    (st : Store) : Prop :=
  exists c, findChat chatId userId st = Some c /\ P (Chat.messages c).

(** The same, of the store of a state. *)
Definition stateHas {Ext : Type} (chatId userId : nat)
    (P : list Message.t -> Prop) (s : State Ext) : Prop :=
  storeHas chatId userId P (store s).

(** ** Sample capabilities and data *)

(** Capabilities over a trivial outside world: the embedding model answers
    the vector [1] on the texts [embedOk] accepts and fails on the others;
    the generation model answers a fixed text or fails. *)
Definition scriptedCaps (embedOk : string -> bool) (generateOk : bool)
  : Capabilities unit :=
  {| embedContent := fun text x =>
       if embedOk text then (Ok [1%R], x)
       else (Throw (newError "embedding unavailable"), x);
     generateContent := fun _ x =>
       if generateOk then (Ok "A summary."%string, x)
       else (Throw (newError "generation unavailable"), x);
     random := fun x => (0%R, x);
     development := false;
     defaultMaxRetries := 0 |}.

Definition workingCaps : Capabilities unit := scriptedCaps (fun _ => true) true.

Definition emptyState : UState unit := mkUState JsMap.empty tt.

(** A cache that holds the vector of one text. *)
Definition cachedState : UState unit :=
  mkUState [("doc-0"%string, [1%R])] tt.

(** A candidate whose embedding is the empty array. *)
Definition emptyEmbeddingChunk : Chunk.t := Chunk.make "a" (Some []) None.

Definition notBad (text : string) : bool := negb (String.eqb text "bad").

Definition oneMessage : list Message.t :=
  [Message.make user "Hi" (Some [1%R]) []].

Definition sampleText (n : nat) : string :=
  ("doc-" ++ NilEmpty.string_of_uint (Nat.to_uint n))%string.

(** 1001 texts with distinct keys. *)
Definition sampleTexts : list string := map sampleText (seq 0 1001).

Definition sampleMessages (n : nat) : list Message.t :=
  map (fun i =>
         Message.make (if Nat.even i then user else ai) (sampleText i) None [])
    (seq 0 n).

Definition sampleChat20 : Chat.t :=
  Chat.make 1 7 (sampleMessages 20) [] "New Chat".

Definition newChat : Chat.t := Chat.make 1 7 [] [] "New Chat".

(** Six messages that all carry an embedding, the last one just
    appended. *)
Definition embeddedMessages (n : nat) : list Message.t :=
  map (fun i =>
         Message.make (if Nat.even i then user else ai) (sampleText i)
           (Some [1%R]) [])
    (seq 0 n).

Definition sixMessageChat : Chat.t :=
  Chat.make 1 7 (embeddedMessages 6) [] "New Chat".

(** Utilities whose retriever answers the first [count] candidates as they
    come. *)
Definition firstCandidates : Utils unit :=
  Build_Utils (fun _ => ret [1%R])
    (fun _ embeddedChunks count =>
       ret (map (fun chunk => ScoredChunk.make chunk (Fin 0))
              (firstn count
                 (match embeddedChunks with
                  | Some chunks => chunks
                  | None => []
                  end))))
    (fun _ => ret (Chunk.make "A summary." (Some [1%R]) None)).

Definition helloRequest : Request.t := Request.make "Hello" None 1 7.

Definition upstreamError : Error :=
  mkError "fetch failed" (Some "quota exceeded"%string).

(** Services whose store works and whose generation model is down. *)
Definition brokenGeneration : Services unit :=
  {| dbOutcome := fun x => (None, x);
     sendMessageStream := fun _ _ x => (Throw upstreamError, x);
     titleContent := fun _ x => (Throw (newError "no title"), x) |}.

Definition initialState (stored : list Chat.t) : State unit :=
  mkState (mkStore stored []) true [] None emptyState.

(** The context [appendUserMessage] leaves for [helloRequest] on [newChat]. *)
Definition helloContext : Context :=
  mkContext
    (Chat.pushMessage newChat (userMessage helloRequest [1%R] []))
    [] true.

(** Services that work: the stream carries three chunks, the second one
    empty, and the title comes back with white space around it. *)
Definition workingServices : Services unit :=
  {| dbOutcome := fun x => (None, x);
     sendMessageStream := fun _ _ x =>
       (Ok [Ok "Hi"%string; Ok EmptyString; Ok " there"%string], x);
     titleContent := fun _ x =>
       (Ok ("  Greeting" ++ nl)%string, x) |}.

(** Four scored chunks, two of them with the same score. *)
Definition scoredSample (label : string) (score : R) : ScoredChunk.t :=
  ScoredChunk.make (Chunk.make label (Some [1%R]) None) (Fin score).

(** A message of 29 characters. *)
Definition shortMessage : string := "Summarize chapter two, please".

(* ================================================================== *)
(** * utils/file-utils.js *)

(** [req.file], as multer leaves it. *)
Module UploadedFile.
Record t : Type := make {
  originalname : string;
  mimetype : string;
  path : string
}.
End UploadedFile.

(** What [processFile] returns. *)
Module ProcessedFile.
Record t : Type := make {
  fileName : string;
  fileType : string;
  filePath : string;
  extractedText : string;
  chunks : list string
}.
End ProcessedFile.

(** A document of the [File] collection, with the fields [uploadFile]
    creates it with. *)
Module FileDoc.
Record t : Type := make {
  _id : nat;
  userId : nat;
  fileName : string;
  fileType : string;
  filePath : string;
  extractedText : string;
  chunks : list Chunk.t
}.
End FileDoc.

(** The bodies the file controller answers with. *)
Inductive FileBody : Type :=
| noFileUploaded
| fileUploaded (fileId : nat) (fileName fileType : string)
| uploadFailed (error : string)
| fileNotFound
| fileDeleted
| deleteFailed (error : string).

Record FileResponse : Type := mkFileResponse {
  fileStatus : nat;
  fileBody : FileBody
}.

(** The outside world of the file pipeline: [pdfParse] is [pdf-parse]
    followed by [data.text]; [sharpJpeg] is the resize and the JPEG
    compression of [sharp], on the content of the input; [toBase64] is
    [Buffer.toString('base64')]; [visionContent] is [model.generateContent]
    on the prompt and the image, followed by [response.text()];
    [fileCreate] is [File.create], which answers the id of the new
    document; [fileDeleteOutcome] decides whether [File.deleteOne]
    fails. *)
Record FileServices (Ext : Type) : Type := {
  pdfParse : string -> Ext -> Result string * Ext;
  sharpJpeg : string -> Ext -> Result string * Ext;
  toBase64 : string -> string;
  visionContent : string -> string -> Ext -> Result string * Ext;
  fileCreate : Ext -> Result nat * Ext;
  fileDeleteOutcome : Ext -> option Error * Ext
}.

(** The state a request of the file controller runs in: the upload
    directory, as the content stored at each path; the [File] collection;
    the response written to [res]; the state of the embedding utilities,
    which holds the outside world. *)
Record FileState (Ext : Type) : Type := mkFileState {
  disk : JsMap.t string;
  documents : list FileDoc.t;
  answer : option FileResponse;
  embedder : UState Ext
}.

Module FileUtils.

(** The class [[.!?]]. *)
Definition isSentenceEnd (c : ascii) : bool :=
  let n := nat_of_ascii c in
  (n =? 46) || (n =? 33) || (n =? 63).

(** [text.split(/(?<=[.!?])\s+/)], as the scan of the text from left to
    right: a separator starts at a white space that follows one of [.!?]
    and runs over all the white space after it; [currentPiece] is the piece
    read so far, [afterEnd] tells that the character before is one of
    [.!?], and [inSeparator] that the scan is inside a separator.  White
    space is that of [isWhiteSpace]. *)
Fixpoint splitLoop (rest currentPiece : string) (afterEnd inSeparator : bool)
  : list string :=
  match rest with
  | EmptyString => [currentPiece]
  | String c rest' =>
      if isWhiteSpace c then
        if inSeparator then splitLoop rest' currentPiece false true
        else if afterEnd then
          currentPiece :: splitLoop rest' EmptyString false true
        else
          splitLoop rest' (currentPiece ++ String c EmptyString) false false
      else
        splitLoop rest' (currentPiece ++ String c EmptyString)
          (isSentenceEnd c) false
  end.

Definition splitSentences (text : string) : list string :=
  splitLoop text EmptyString false false.

(** [str.slice(start)]. *)
Definition sliceFrom (str : string) (start : Z) : string :=
  let from := JsArray.relIndex (String.length str) start in
  substring from (String.length str - from) str.

(** The body of the loop of lines 290-300, on the chunks pushed so far and
    [currentChunk]. *)
Definition chunkStep (chunkSize overlap : nat)
    (state : list string * string) (sentence : string)
  : list string * string :=
  let (chunks, currentChunk) := state in
  if chunkSize <? String.length currentChunk + String.length sentence then
    let overlapText := sliceFrom currentChunk (- Z.of_nat overlap) in
    (chunks ++ [currentChunk], (overlapText ++ sentence)%string)
  else
    (chunks,
     (currentChunk
        ++ ((if truthy currentChunk then " " else EmptyString) ++ sentence))
       %string).

(** [chunkText(text, chunkSize, overlap)], for a size and an overlap that
    are natural numbers. *)
Definition chunkText (text : string) (chunkSize overlap : nat)
  : list string :=
  if String.length text <=? chunkSize then [text]
  else
    let sentences := splitSentences text in
    let (chunks, currentChunk) :=
      fold_left (chunkStep chunkSize overlap) sentences ([], EmptyString) in
    if truthy currentChunk then chunks ++ [currentChunk] else chunks.

(** The defaults of the two parameters. *)
Definition defaultChunkSize : nat := 1000.

Definition defaultOverlap : nat := 100.

Definition allowedTypes : list string :=
  ["application/pdf"; "image/jpeg"; "image/png"; "image/webp";
   "text/plain"]%string.

(** [fileFilter]: what it hands to [cb], the error or the verdict. *)
Definition fileFilter (file : UploadedFile.t) : Result bool :=
  if existsb (String.eqb (UploadedFile.mimetype file)) allowedTypes
  then Ok true
  else
    Throw
      (newError
         "Invalid file type. Only PDF, JPG, PNG, WEBP, and TXT files are allowed.").

Definition imagePrompt : string :=
  "Extract all text from this image. Return only the extracted text without any additional comments or explanations.".

Section WithFileServices.
Context {Ext : Type} (svc : FileServices Ext).

Definition FM (A : Type) : Type := M (FileState Ext) A.

(** A call to the outside world. *)
Definition callWorld {A : Type} (f : Ext -> Result A * Ext) : FM A :=
  fun s =>
    let (r, x) := f (ext (embedder s)) in
    (r,
     mkFileState (disk s) (documents s) (answer s)
       (mkUState (embeddingCache (embedder s)) x)).

Definition modifyDisk (f : JsMap.t string -> JsMap.t string) : FM unit :=
  modify (fun s =>
            mkFileState (f (disk s)) (documents s) (answer s) (embedder s)).

Definition noSuchFile (operation path : string) : Error :=
  newError
    ("ENOENT: no such file or directory, " ++ operation ++ " '" ++ path
       ++ "'").

(** [fs.readFileSync(path)]. *)
Definition readFileSync (path : string) : FM string :=
  content <- gets (fun s => JsMap.get path (disk s)) ;;
  match content with
  | Some data => ret data
  | None => throw (noSuchFile "open" path)
  end.

(** [fs.existsSync(path)]. *)
Definition existsSync (path : string) : FM bool :=
  gets (fun s => JsMap.has path (disk s)).

(** [fs.unlinkSync(path)]. *)
Definition unlinkSync (path : string) : FM unit :=
  present <- existsSync path ;;
  if (present : bool) then modifyDisk (JsMap.delete path)
  else throw (noSuchFile "unlink" path).

(** [sharp(input).resize(1000).jpeg({ quality: 80 }).toFile(output)]. *)
Definition sharpToFile (input output : string) : FM unit :=
  content <- gets (fun s => JsMap.get input (disk s)) ;;
  match content with
  | None => throw (newError ("Input file is missing: " ++ input))
  | Some data =>
      optimized <- callWorld (sharpJpeg svc data) ;;
      modifyDisk (JsMap.set output optimized)
  end.

Definition extractTextFromPdf (filePath : string) : FM string :=
  tryCatch
    (dataBuffer <- readFileSync filePath ;;
     callWorld (pdfParse svc dataBuffer))
    (fun _ => throw (newError "Failed to extract text from PDF")).

Definition extractTextFromImage (filePath : string) : FM string :=
  tryCatch
    (let optimizedImagePath := (filePath ++ "-optimized.jpg")%string in
     sharpToFile filePath optimizedImagePath ;;
     imageData <- readFileSync optimizedImagePath ;;
     let base64Image := toBase64 svc imageData in
     text <- callWorld (visionContent svc imagePrompt base64Image) ;;
     unlinkSync optimizedImagePath ;;
     ret text)
    (fun _ => throw (newError "Failed to extract text from image")).

Definition cleanupFile (filePath : string) : FM unit :=
  tryCatch
    (present <- existsSync filePath ;;
     if (present : bool) then unlinkSync filePath else ret tt)
    (fun _ => ret tt).

Definition processFile (file : UploadedFile.t) : FM ProcessedFile.t :=
  tryCatch
    (extractedText <-
       (if String.eqb (UploadedFile.mimetype file) "application/pdf" then
          extractTextFromPdf (UploadedFile.path file)
        else if String.prefix "image/" (UploadedFile.mimetype file) then
          extractTextFromImage (UploadedFile.path file)
        else if String.eqb (UploadedFile.mimetype file) "text/plain" then
          readFileSync (UploadedFile.path file)
        else ret EmptyString) ;;
     let chunks := chunkText extractedText defaultChunkSize defaultOverlap in
     ret (ProcessedFile.make (UploadedFile.originalname file)
            (UploadedFile.mimetype file) (UploadedFile.path file)
            extractedText chunks))
    (fun error =>
       throw (newError ("Failed to process file: " ++ message error))).

End WithFileServices.
End FileUtils.

(* ================================================================== *)
(** * controllers/file.controller.js *)

(** The parts of [req] that [uploadFile] and [deleteFile] read. *)
Module UploadRequest.
Record t : Type := make {
  file : option UploadedFile.t;
  user : nat
}.
End UploadRequest.

Module DeleteRequest.
Record t : Type := make {
  id : nat;
  user : nat
}.
End DeleteRequest.

Module FileController.
Section WithFileServices.
Context {Ext : Type} (svc : FileServices Ext)
  (generateChunkEmbeddings : list string -> M (UState Ext) (list Chunk.t)).

Definition FM (A : Type) : Type := M (FileState Ext) A.

(** A call into the embedding utilities. *)
Definition liftE {A : Type} (m : M (UState Ext) A) : FM A :=
  fun s =>
    let (r, u) := m (embedder s) in
    (r, mkFileState (disk s) (documents s) (answer s) u).

(** [res.status(code).json(body)]. *)
Definition res_json (code : nat) (b : FileBody) : FM unit :=
  modify (fun s =>
            mkFileState (disk s) (documents s)
              (Some (mkFileResponse code b)) (embedder s)).

(** [File.create(fields)]. *)
Definition File_create (userId : nat) (processedFile : ProcessedFile.t)
    (embeddedChunks : list Chunk.t) : FM FileDoc.t :=
  newId <- FileUtils.callWorld (fileCreate svc) ;;
  let file :=
    FileDoc.make newId userId (ProcessedFile.fileName processedFile)
      (ProcessedFile.fileType processedFile)
      (ProcessedFile.filePath processedFile)
      (ProcessedFile.extractedText processedFile) embeddedChunks in
  modify (fun s =>
            mkFileState (disk s) (documents s ++ [file]) (answer s)
              (embedder s)) ;;
  ret file.

(** The document [deleteOne] removes: the first that matches. *)
Fixpoint removeFirst (matches : FileDoc.t -> bool) (docs : list FileDoc.t)
  : list FileDoc.t * nat :=
  match docs with
  | [] => ([], 0)
  | doc :: rest =>
      if matches doc then (rest, 1)
      else let (rest', deletedCount) := removeFirst matches rest in
           (doc :: rest', deletedCount)
  end.

(** [File.deleteOne({ _id, userId })]: the [deletedCount] of the result. *)
Definition File_deleteOne (fileId userId : nat) : FM nat :=
  outcome <-
    FileUtils.callWorld
      (fun x => let (o, x') := fileDeleteOutcome svc x in (Ok o, x')) ;;
  match outcome with
  | Some e => throw e
  | None =>
      fun s =>
        let (docs, deletedCount) :=
          removeFirst
            (fun doc =>
               (FileDoc._id doc =? fileId) && (FileDoc.userId doc =? userId))
            (documents s) in
        (Ok deletedCount,
         mkFileState (disk s) docs (answer s) (embedder s))
  end.

Definition uploadFile (req : UploadRequest.t) : FM unit :=
  tryCatch
    (match UploadRequest.file req with
     | None => res_json 400 noFileUploaded
     | Some reqFile =>
         processedFile <- FileUtils.processFile svc reqFile ;;
         embeddedChunks <-
           liftE
             (generateChunkEmbeddings (ProcessedFile.chunks processedFile)) ;;
         file <-
           File_create (UploadRequest.user req) processedFile embeddedChunks ;;
         FileUtils.cleanupFile (ProcessedFile.filePath processedFile) ;;
         res_json 201
           (fileUploaded (FileDoc._id file) (FileDoc.fileName file)
              (FileDoc.fileType file))
     end)
    (fun err => res_json 500 (uploadFailed (message err))).

Definition deleteFile (req : DeleteRequest.t) : FM unit :=
  tryCatch
    (deletedCount <-
       File_deleteOne (DeleteRequest.id req) (DeleteRequest.user req) ;;
     if deletedCount =? 0 then res_json 404 fileNotFound
     else res_json 200 fileDeleted)
    (fun err => res_json 500 (deleteFailed (message err))).

End WithFileServices.
End FileController.

(* ================================================================== *)
(** * controllers/gemini.controller.js: [sendImageMessage] *)

(** The bodies [sendImageMessage] answers with. *)
Inductive ImageBody : Type :=
| noImageUploaded
| imageChatNotFound
| imageProcessed (response title : string)
| visionFailed (error : string).

Record ImageResponse : Type := mkImageResponse {
  imageStatus : nat;
  imageBody : ImageBody
}.

(** The parts of [req] that [sendImageMessage] reads; [message] is absent
    when the body has none. *)
Module ImageRequest.
Record t : Type := make {
  message : option string;
  chatId : nat;
  user : nat;
  file : option UploadedFile.t
}.
End ImageRequest.

(** The outside world of [sendImageMessage], beside the services of
    [sendMessage]: [imageBase64] is [Buffer.toString('base64')], and
    [generateContentStream] answers with the stream of the multimodal
    request made of the text, the encoded image and its type. *)
Record ImageServices (Ext : Type) : Type := {
  imageBase64 : string -> string;
  generateContentStream :
    string -> string -> string -> Ext -> Result (list (Result string)) * Ext
}.

(** The state a request of [sendImageMessage] runs in: the state of the
    chat controller, whose [response] it does not use, the upload
    directory, and the response written to [res]. *)
Record ImageState (Ext : Type) : Type := mkImageState {
  chatState : State Ext;
  uploads : JsMap.t string;
  imageAnswer : option ImageResponse
}.

Module GeminiImageController.
Section WithServices.
Context {Ext : Type} (svc : Services Ext) (img : ImageServices Ext).

Definition IM (A : Type) : Type := M (ImageState Ext) A.

(** A step of the chat controller. *)
Definition liftC {A : Type} (m : M (State Ext) A) : IM A :=
  fun s =>
    let (r, c) := m (chatState s) in
    (r, mkImageState c (uploads s) (imageAnswer s)).

(** [res.status(code).json(body)]. *)
Definition res_json (code : nat) (b : ImageBody) : IM unit :=
  modify (fun s =>
            mkImageState (chatState s) (uploads s)
              (Some (mkImageResponse code b))).

(** [fs.readFileSync(path)]. *)
Definition readFileSync (path : string) : IM string :=
  content <- gets (fun s => JsMap.get path (uploads s)) ;;
  match content with
  | Some data => ret data
  | None =>
      throw
        (newError
           ("ENOENT: no such file or directory, open '" ++ path ++ "'"))
  end.

(** [fs.unlinkSync(path)]. *)
Definition unlinkSync (path : string) : IM unit :=
  present <- gets (fun s => JsMap.has path (uploads s)) ;;
  if (present : bool) then
    modify (fun s =>
              mkImageState (chatState s) (JsMap.delete path (uploads s))
                (imageAnswer s))
  else
    throw
      (newError
         ("ENOENT: no such file or directory, unlink '" ++ path ++ "'")).

(** [try { fs.unlinkSync(path) } catch (cleanupErr) { ... }]. *)
Definition cleanUp (path : string) : IM unit :=
  tryCatch (unlinkSync path) (fun _ => ret tt).

(** [message || fallback]. *)
Definition orElse (message : option string) (fallback : string) : string :=
  match message with
  | Some m => if truthy m then m else fallback
  | None => fallback
  end.

Definition imageTitlePrompt (message : option string) (aiReply : string)
  : string :=
  ("Based on this image analysis, generate a very brief title (max 5 words):"
     ++ nl ++ "      Image description: " ++ orElse message "Image query"
     ++ nl ++ "      AI analysis: " ++ substring 0 200 aiReply)%string.

(** Lines 401-419, run when the chat holds two messages at most. *)
Definition generateImageTitle (chat : Chat.t) (message : option string)
    (aiReply : string) : IM Chat.t :=
  tryCatch
    (titleText <-
       liftC
         (callServiceResult
            (titleContent svc (imageTitlePrompt message aiReply))) ;;
     let suggestedTitle := trim titleText in
     ret (Chat.setTitle chat (truncateTitle suggestedTitle)))
    (fun _ => ret (Chat.setTitle chat "Image Analysis")).

(** Lines 447-471: the [catch] of [sendImageMessage]. *)
Definition onImageError (req : ImageRequest.t) (err : Error) : IM unit :=
  liftC
    (emit (ImageRequest.user req)
       (errorEvent (ImageRequest.chatId req) (message err))) ;;
  match ImageRequest.file req with
  | Some reqFile => cleanUp (UploadedFile.path reqFile)
  | None => ret tt
  end ;;
  res_json 500 (visionFailed (errorMessage err)).

(** The body of the [try] of [sendImageMessage]. *)
Definition processImage (req : ImageRequest.t) : IM unit :=
  let message := ImageRequest.message req in
  let chatId := ImageRequest.chatId req in
  let userId := ImageRequest.user req in
  match ImageRequest.file req with
  | None => res_json 400 noImageUploaded
  | Some reqFile =>
      found <- liftC (Chat_findOne svc chatId userId) ;;
      match found with
      | None => res_json 404 imageChatNotFound
      | Some chat0 =>
          imageData <- readFileSync (UploadedFile.path reqFile) ;;
          let base64Image := imageBase64 img imageData in
          liftC (emit userId (processing chatId started None)) ;;
          let chat1 :=
            Chat.pushMessage chat0
              (Message.make user (orElse message "Image query") None
                 [FileRef.make None (UploadedFile.originalname reqFile)]) in
          liftC (Chat_save svc chat1) ;;
          stream <-
            liftC
              (callServiceResult
                 (generateContentStream img
                    (orElse message "What's in this image?") base64Image
                    (UploadedFile.mimetype reqFile))) ;;
          aiReply <- liftC (consumeStream userId chatId stream EmptyString) ;;
          let chat2 :=
            Chat.pushMessage chat1 (Message.make ai aiReply None []) in
          chat3 <-
            (if List.length (Chat.messages chat2) <=? 2
             then generateImageTitle chat2 message aiReply
             else ret chat2) ;;
          liftC (Chat_save svc chat3) ;;
          cleanUp (UploadedFile.path reqFile) ;;
          liftC
            (emit userId
               (processing chatId completed (Some (Chat.title chat3)))) ;;
          res_json 200 (imageProcessed aiReply (Chat.title chat3))
      end
  end.

Definition sendImageMessage (req : ImageRequest.t) : IM unit :=
  tryCatch (processImage req) (onImageError req).

End WithServices.
End GeminiImageController.

(** ** Sample capabilities for the further properties *)

(** Capabilities in development mode whose embedding model is down. *)
Definition devCaps : Capabilities unit :=
  {| embedContent := fun _ x => (Throw (newError "embedding unavailable"), x);
     generateContent := fun _ x => (Throw (newError "generation unavailable"), x);
     random := fun x => ((1 / 2)%R, x);
     development := true;
     defaultMaxRetries := 0 |}.

(** ** Vocabulary of the further properties *)

(** The texts put end to end. *)
Definition appendAll (texts : list string) : string :=
  fold_right String.append EmptyString texts.

(** The chunk events of the non-empty texts of a stream. *)
Definition chunkEvents (userId chatId : nat) (texts : list string)
  : list (nat * Event) :=
  map (fun t => (userId, messageChunk chatId t)) (filter truthy texts).

(** The chat [c2] is [c] as [summarizeIfDue] may leave it: as it is, or,
    when a summary is due, with one more summary, whose range runs from
    the eleventh message from the end to the last. *)
Definition withSummary (c c2 : Chat.t) : Prop :=
  c2 = c
  \/ shouldSummarize (List.length (Chat.messages c)) = true
     /\ exists text embedding,
          c2 = Chat.pushSummary c
                 (Summary.make text embedding
                    (MessageRange.make
                       (Z.of_nat (List.length (Chat.messages c)) - 11)
                       (Z.of_nat (List.length (Chat.messages c)) - 1))).

(** [e] is a vector [generateEmbedding] returned for [text]. *)
Definition embeddedBy {Ext : Type} (eu : Utils Ext) (text : string)
    (e : Embedding) : Prop :=
  exists u u', generateEmbedding eu text u = (Ok e, u').

(** [aiReply] is the chunks of a stream that [sendMessageStream] returned,
    put end to end. *)
Definition streamedBy {Ext : Type} (svc : Services Ext) (aiReply : string)
  : Prop :=
  exists history prompt x x' texts,
    sendMessageStream svc history prompt x = (Ok (map Ok texts), x')
    /\ aiReply = appendAll texts.

(** The stored files a request refers to: those whose id is among the ids
    of the request and whose owner is the requester; none when the request
    names no file. *)
Definition requestedFiles (req : Request.t) (st : Store) : list File.t :=
  match Request.fileIds req with
  | Some ids =>
      filter (fun f =>
                existsb (Nat.eqb (File._id f)) ids
                && (File.userId f =? Request.user req))
        (files st)
  | None => []
  end.

(** Their references: the id and the name of each. *)
Definition requestedReferences (req : Request.t) (st : Store)
  : list FileRef.t :=
  map (fun f => FileRef.make (Some (File._id f)) (File.fileName f))
    (requestedFiles req st).

(** The user message of a request as it is stored: the text of the
    request, the vector [e], the references of the requested files. *)
Definition storedUserMessage (req : Request.t) (e : Embedding) (st : Store)
  : Message.t :=
  Message.make user (Request.message req) (Some e)
    (requestedReferences req st).

(** The chat [c4] is [c2] with the reply pushed, with a vector that
    [generateEmbedding] returned for it, and with a title of at most 50
    characters set when the exchange is the first. *)
Definition withReply {Ext : Type} (eu : Utils Ext) (first : bool)
    (aiReply : string) (c2 c4 : Chat.t) : Prop :=
  exists embedding,
    embeddedBy eu aiReply embedding
    /\ let c3 :=
         Chat.pushMessage c2 (Message.make ai aiReply (Some embedding) []) in
       if first
       then exists title,
              c4 = Chat.setTitle c3 title /\ String.length title <= 50
       else c4 = c3.

(** A stored chat with messages, owned by user 7, and a request on it. *)
Definition oddChat : Chat.t :=
  Chat.make 1 7 (sampleMessages 19) [] "Old title".

(** A chat owned by another user. *)
Definition foreignChat : Chat.t := Chat.make 1 8 [] [] "Private".

(** Two stored files, of two users, and a state that holds them. *)
Definition ownFile : File.t :=
  File.make 3 7 "notes.txt" [Chunk.make "Notes." (Some [1%R]) None].

Definition foreignFile : File.t :=
  File.make 4 8 "secret.txt" [Chunk.make "Secret." (Some [1%R]) None].

Definition fileState : State unit :=
  mkState (mkStore [newChat] [ownFile; foreignFile]) true [] None emptyState.

(** A request of user 7 that names the two files. *)
Definition fileRequest : Request.t := Request.make "Hello" (Some [3; 4]) 1 7.


(** [part] is a run of consecutive characters of [whole]. *)
Definition substringOf (part whole : string) : Prop :=
  exists before after, whole = (before ++ part ++ after)%string.

(** [whole] starts with [start]. *)
Definition startsWith (whole start : string) : Prop :=
  exists more, whole = (start ++ more)%string.

(** The loop of [chunkText] over the sentences left, as a recursion on
    them: the chunks it pushes from [currentChunk] on, the final one
    included. *)
Fixpoint chunksFrom (chunkSize overlap : nat) (sentences : list string)
    (currentChunk : string) : list string :=
  match sentences with
  | [] => if truthy currentChunk then [currentChunk] else []
  | sentence :: rest =>
      if chunkSize <? String.length currentChunk + String.length sentence
      then
        currentChunk
          :: chunksFrom chunkSize overlap rest
               (FileUtils.sliceFrom currentChunk (- Z.of_nat overlap)
                  ++ sentence)%string
      else
        chunksFrom chunkSize overlap rest
          (currentChunk
             ++ ((if truthy currentChunk then " " else EmptyString)
                   ++ sentence))%string
  end.

(** The computations of the file pipeline that leave the documents, the
    response and the embedding cache alone, and change the disk at the
    path [temp] at most, keeping it a map. *)
Definition touchesOnly {Ext A : Type} (temp : string)
    (m : M (FileState Ext) A) : Prop :=
  forall s,
    let s' := snd (m s) in
    documents s' = documents s
    /\ answer s' = answer s
    /\ embeddingCache (embedder s') = embeddingCache (embedder s)
    /\ (forall p, p <> temp -> JsMap.get p (disk s') = JsMap.get p (disk s))
    /\ (NoDup (JsMap.keys (disk s)) -> NoDup (JsMap.keys (disk s'))).

(** File services over a trivial outside world: the parsers and the store
    work, and the vision model answers or not. *)
Definition scriptedFileServices (visionOk : bool) : FileServices unit :=
  {| pdfParse := fun data x => (Ok data, x);
     sharpJpeg := fun data x => (Ok ("jpeg:" ++ data)%string, x);
     toBase64 := fun data => data;
     visionContent := fun _ _ x =>
       if visionOk then (Ok "Text in the image."%string, x)
       else (Throw (newError "vision unavailable"), x);
     fileCreate := fun x => (Ok 5, x);
     fileDeleteOutcome := fun x => (None, x) |}.

(** An uploaded image, and a state whose disk holds it. *)
Definition uploadedImage : UploadedFile.t :=
  UploadedFile.make "scan.png" "image/png" "uploads/file-1.png".

Definition uploadState : FileState unit :=
  mkFileState [("uploads/file-1.png", "pixels")]%string [] None emptyState.

(** The request that uploads [uploadedImage] for user 7. *)
Definition imageUpload : UploadRequest.t :=
  UploadRequest.make (Some uploadedImage) 7.

(** Two documents of two users, and a state whose collection holds them. *)
Definition ownDocument : FileDoc.t :=
  FileDoc.make 3 7 "notes.txt" "text/plain" "uploads/file-3.txt" "Notes."
    [Chunk.make "Notes." (Some [1%R]) None].

Definition foreignDocument : FileDoc.t :=
  FileDoc.make 4 8 "secret.txt" "text/plain" "uploads/file-4.txt" "Secret."
    [Chunk.make "Secret." (Some [1%R]) None].

Definition documentState : FileState unit :=
  mkFileState [] [foreignDocument; ownDocument] None emptyState.

(** The two messages an image exchange pushes: they carry no embedding,
    and the first one refers to the image by its name alone. *)
Definition imageUserMessage (req : ImageRequest.t) (reqFile : UploadedFile.t)
  : Message.t :=
  Message.make user
    (GeminiImageController.orElse (ImageRequest.message req) "Image query")
    None [FileRef.make None (UploadedFile.originalname reqFile)].

Definition imageReplyMessage (aiReply : string) : Message.t :=
  Message.make ai aiReply None [].

(** The chat [c3] is [chat0] after an image exchange that went through:
    the two messages are pushed, and a title of at most 50 characters is
    set when [chat0] had no message. *)
Definition imageReplied (req : ImageRequest.t) (reqFile : UploadedFile.t)
    (chat0 : Chat.t) (aiReply : string) (c3 : Chat.t) : Prop :=
  let c2 :=
    Chat.pushMessage (Chat.pushMessage chat0 (imageUserMessage req reqFile))
      (imageReplyMessage aiReply) in
  if List.length (Chat.messages chat0) =? 0
  then exists title, c3 = Chat.setTitle c2 title /\ String.length title <= 50
  else c3 = c2.

(** The computations of [sendImageMessage] that leave the stored documents
    and the upload directory alone. *)
Definition keepsStoreAndUploads {Ext A : Type} (m : M (ImageState Ext) A)
  : Prop :=
  forall s,
    store (chatState (snd (m s))) = store (chatState s)
    /\ uploads (snd (m s)) = uploads s.

(** [fs.unlinkSync] inside its own [try]: the directory afterwards. *)
Definition without (path : string) (dir : JsMap.t string) : JsMap.t string :=
  if JsMap.has path dir then JsMap.delete path dir else dir.

(** Services of the image exchange over a trivial outside world: the
    stream carries two chunks. *)
Definition workingImageServices : ImageServices unit :=
  {| imageBase64 := fun data => data;
     generateContentStream := fun _ _ _ x =>
       (Ok [Ok "A cat"%string; Ok "."%string], x) |}.

Definition imageRequest : ImageRequest.t :=
  ImageRequest.make None 1 7 (Some uploadedImage).

Definition imageState (stored : list Chat.t) : ImageState unit :=
  mkImageState (initialState stored)
    [("uploads/file-1.png", "pixels")]%string None.

(** An uploaded text file, and a state whose disk holds it. *)
Definition uploadedText : UploadedFile.t :=
  UploadedFile.make "notes.txt" "text/plain" "uploads/file-2.txt".

Definition textState : FileState unit :=
  mkFileState [("uploads/file-2.txt", "Some notes.")]%string [] None
    emptyState.

(* ================================================================== *)
(** * Properties *)

(** ** Runs of the embedded JavaScript on small inputs *)

Example slice_negative_indices :
  slice [0; 1; 2; 3; 4; 5; 6] (-6) (-1) = [1; 2; 3; 4; 5].
Proof. reflexivity. Qed.

Example slice_short_array : slice [1; 2; 3] (-6) (-1) = [1; 2].
Proof. reflexivity. Qed.

Example slice_all_but_last_five : slice [1; 2; 3; 4; 5; 6; 7] 0 (-5) = [1; 2].
Proof. reflexivity. Qed.

Example map_set_keeps_place :
  JsMap.set "a" 2 [("a"%string, 1); ("b"%string, 1)]
  = [("a"%string, 2); ("b"%string, 1)].
Proof. reflexivity. Qed.

Example map_set_appends :
  JsMap.set "c" 3 [("a"%string, 1); ("b"%string, 2)]
  = [("a"%string, 1); ("b"%string, 2); ("c"%string, 3)].
Proof. reflexivity. Qed.

Example map_delete_first_key :
  JsMap.firstKey [("a"%string, 1); ("b"%string, 2)] = Some "a"%string
  /\ JsMap.delete "a" [("a"%string, 1); ("b"%string, 2)] = [("b"%string, 2)].
Proof. split; reflexivity. Qed.

Example trim_generated_title : trim ("  Greeting" ++ nl) = "Greeting"%string.
Proof. reflexivity. Qed.

Example truncateTitle_of_51_characters :
  truncateTitle "A very long generated title that keeps going on and"
  = "A very long generated title that keeps going on..."%string.
Proof. reflexivity. Qed.

Example fallbackTitle_of_31_characters :
  fallbackTitle "Please summarize chapter twelve"
  = "Please summarize chapter tw..."%string.
Proof. reflexivity. Qed.

(** The sort is descending and stable: [b] stays before [c]. *)
Example sort_descending_stable :
  JsArray.sort byScoreDesc
    [scoredSample "a" 1; scoredSample "b" 3; scoredSample "c" 3;
     scoredSample "d" 2]
  = [scoredSample "b" 3; scoredSample "c" 3; scoredSample "d" 2;
     scoredSample "a" 1].
Proof.
  cbn.
  repeat (match goal with
          | |- context [Rlt_dec ?x ?y] => destruct (Rlt_dec x y); try lra
          end; cbn).
  reflexivity.
Qed.

(** The first exchange of a conversation, everything working: the user
    message and the reply are stored, the empty chunk of the stream is
    skipped, the title is generated and trimmed. *)
Example sendMessage_first_exchange :
  let s := snd (sendMessage (guardedUtils workingCaps) workingServices
                  helloRequest (initialState [newChat])) in
  response s = Some (mkResponse 200 (messageProcessed "Hi there" "Greeting"))
  /\ emitted s
     = [(7, processing 1 started None);
        (7, messageChunk 1 "Hi");
        (7, messageChunk 1 " there");
        (7, processing 1 completed (Some "Greeting"%string))]
  /\ chats (store s)
     = [Chat.make 1 7
          [Message.make user "Hello" (Some [1%R]) [];
           Message.make ai "Hi there" (Some [1%R]) []]
          [] "Greeting"].
Proof. repeat split; reflexivity. Qed.

(** ** Vectors and the guarded similarity *)

Lemma fold_cosineStep_shift x a y b l acc :
  fold_left (cosineStep (x :: a) (y :: b)) (map S l) acc
  = fold_left (cosineStep a b) l acc.
Proof.
  revert acc. induction l as [|i l IH]; intros acc; simpl; [reflexivity|].
  rewrite <- IH. reflexivity.
Qed.

Lemma triple_eq (p q r p' q' r' : R) :
  p = p' -> q = q' -> r = r' -> (Fin p, Fin q, Fin r) = (Fin p', Fin q', Fin r').
Proof. intros; subst; reflexivity. Qed.

(** On vectors of one length the loop computes the three sums. *)
Lemma cosineLoop_from a : forall b d na nb,
  List.length a = List.length b ->
  fold_left (cosineStep a b) (seq 0 (List.length a)) (Fin d, Fin na, Fin nb)
  = (Fin (d + dotR a b), Fin (na + dotR a a), Fin (nb + dotR b b)).
Proof.
  induction a as [|x a IH]; intros [|y b] d na nb Hlen; simpl in Hlen;
    try discriminate.
  - simpl. apply triple_eq; lra.
  - cbn [List.length seq fold_left]. rewrite <- seq_shift.
    unfold cosineStep at 2. cbn [ofIndex nth_error mul add].
    rewrite fold_cosineStep_shift. rewrite IH by lia. cbn [dotR].
    apply triple_eq; lra.
Qed.

Lemma dotR_self_nonneg a : (0 <= dotR a a)%R.
Proof. induction a; simpl; nra. Qed.

Lemma dotR_comm a : forall b, dotR a b = dotR b a.
Proof.
  induction a as [|x a IH]; intros [|y b]; simpl; try reflexivity.
  rewrite IH. lra.
Qed.

(** Cauchy-Schwarz, by induction on the vectors: the cross term is bounded
    by the two squares through the inequality on the tails. *)
Lemma cauchy_schwarz a : forall b,
  (dotR a b * dotR a b <= dotR a a * dotR b b)%R.
Proof.
  induction a as [|x a IH]; intros [|y b]; simpl; try lra.
  specialize (IH b).
  pose proof (dotR_self_nonneg a) as Ha.
  pose proof (dotR_self_nonneg b) as Hb.
  set (D := dotR a b) in *. set (A := dotR a a) in *.
  set (B := dotR b b) in *.
  assert (H : (2 * (D * (x * y)) <= A * (y * y) + B * (x * x))%R).
  { destruct (Rle_dec (2 * (D * (x * y))) 0) as [Hn|Hp]; [nra|].
    apply Rnot_le_lt in Hp.
    assert (Hsq : ((2 * (D * (x * y))) * (2 * (D * (x * y)))
                   <= (A * (y * y) + B * (x * x))
                      * (A * (y * y) + B * (x * x)))%R).
    { assert ((D * D) * ((x * x) * (y * y))
              <= (A * B) * ((x * x) * (y * y)))%R
        by (apply Rmult_le_compat_r; [nra|lra]).
      pose proof (Rle_0_sqr (A * (y * y) - B * (x * x))) as Hs.
      unfold Rsqr in Hs. lra. }
    assert (0 <= A * (y * y) + B * (x * x))%R by nra.
    nra. }
  nra.
Qed.

Lemma norm_zero_iff v : norm v = 0%R <-> dotR v v = 0%R.
Proof.
  unfold norm. split; intros H.
  - apply sqrt_eq_0; [apply dotR_self_nonneg|exact H].
  - rewrite H. apply sqrt_0.
Qed.

Lemma norm_nonneg v : (0 <= norm v)%R.
Proof. apply sqrt_pos. Qed.

Lemma norm_sqr v : (norm v * norm v = dotR v v)%R.
Proof. apply sqrt_sqrt, dotR_self_nonneg. Qed.

Lemma cosineSimilarity_regular (a b : list R) :
  List.length a = List.length b -> List.length a <> 0 ->
  norm a <> 0%R -> norm b <> 0%R ->
  Guarded.cosineSimilarity (Some a) (Some b) = Fin (dotR a b / (norm a * norm b)).
Proof.
  intros Hlen Hne Ha Hb. unfold Guarded.cosineSimilarity.
  rewrite Hlen, Nat.eqb_refl. simpl negb. rewrite <- Hlen.
  destruct (Nat.eqb_spec (List.length a) 0) as [E|_]; [contradiction|]. simpl orb.
  unfold cosineLoop. rewrite cosineLoop_from by exact Hlen.
  rewrite !Rplus_0_l.
  assert (Ha' : dotR a a <> 0%R) by (intros E; apply Ha, norm_zero_iff, E).
  assert (Hb' : dotR b b <> 0%R) by (intros E; apply Hb, norm_zero_iff, E).
  unfold isZero.
  destruct (Req_dec_T (dotR a a) 0) as [E|_]; [contradiction|].
  destruct (Req_dec_T (dotR b b) 0) as [E|_]; [contradiction|].
  simpl orb. cbv iota. unfold sqrt.
  pose proof (dotR_self_nonneg a). pose proof (dotR_self_nonneg b).
  destruct (Rlt_dec (dotR a a) 0) as [L|_]; [lra|].
  destruct (Rlt_dec (dotR b b) 0) as [L|_]; [lra|].
  cbn [mul div]. fold (norm a) (norm b).
  destruct (Req_dec_T (norm a * norm b) 0) as [E|_].
  - apply Rmult_integral in E. tauto.
  - reflexivity.
Qed.

Lemma cosineSimilarity_zero_norm (a b : list R) :
  List.length a = List.length b ->
  norm a = 0%R \/ norm b = 0%R ->
  Guarded.cosineSimilarity (Some a) (Some b) = Fin 0.
Proof.
  intros Hlen Hz. unfold Guarded.cosineSimilarity.
  destruct (negb (List.length a =? List.length b) || (List.length a =? 0));
    [reflexivity|].
  unfold cosineLoop. rewrite cosineLoop_from by exact Hlen.
  rewrite !Rplus_0_l. unfold isZero.
  destruct (Req_dec_T (dotR a a) 0) as [_|Na]; [reflexivity|].
  destruct (Req_dec_T (dotR b b) 0) as [_|Nb]; [reflexivity|].
  exfalso. destruct Hz as [Hz|Hz]; apply norm_zero_iff in Hz; contradiction.
Qed.

Lemma cosine_bounded (a b : list R) :
  norm a <> 0%R -> norm b <> 0%R ->
  (-1 <= dotR a b / (norm a * norm b) <= 1)%R.
Proof.
  intros Ha Hb.
  pose proof (norm_nonneg a). pose proof (norm_nonneg b).
  assert (Hs : (0 < norm a * norm b)%R) by (apply Rmult_lt_0_compat; lra).
  pose proof (cauchy_schwarz a b) as CS.
  rewrite <- (norm_sqr a), <- (norm_sqr b) in CS.
  set (s := (norm a * norm b)%R) in *. set (D := dotR a b) in *.
  assert (Hsq : (D * D <= s * s)%R) by (unfold s; lra).
  assert (HD : (- s <= D <= s)%R) by nra.
  split.
  - apply Rmult_le_reg_r with s; [exact Hs|]. unfold Rdiv.
    rewrite Rmult_assoc, Rinv_l by lra. lra.
  - apply Rmult_le_reg_r with s; [exact Hs|]. unfold Rdiv.
    rewrite Rmult_assoc, Rinv_l by lra. lra.
Qed.

Lemma cosineSimilarity_degenerate vecA vecB :
  degenerate vecA vecB -> Guarded.cosineSimilarity vecA vecB = Fin 0.
Proof.
  destruct vecA as [a|], vecB as [b|]; try reflexivity.
  intros [H|[H|H]].
  - unfold Guarded.cosineSimilarity.
    destruct (Nat.eqb_spec (List.length a) (List.length b)); [contradiction|reflexivity].
  - unfold Guarded.cosineSimilarity. rewrite H. simpl. rewrite orb_true_r. reflexivity.
  - destruct (Nat.eq_dec (List.length a) (List.length b)) as [E|N].
    + apply cosineSimilarity_zero_norm; assumption.
    + unfold Guarded.cosineSimilarity.
      destruct (Nat.eqb_spec (List.length a) (List.length b)); [contradiction|reflexivity].
Qed.

Lemma cosineSimilarity_sym vecA vecB :
  Guarded.cosineSimilarity vecA vecB = Guarded.cosineSimilarity vecB vecA.
Proof.
  destruct vecA as [a|], vecB as [b|]; try reflexivity.
  destruct (Nat.eq_dec (List.length a) (List.length b)) as [E|N].
  - destruct (Nat.eq_dec (List.length a) 0) as [Z|NZ].
    + rewrite !cosineSimilarity_degenerate; simpl; auto. right; left; lia.
    + destruct (Req_dec_T (norm a) 0) as [Za|Na].
      { rewrite !cosineSimilarity_zero_norm; auto. }
      destruct (Req_dec_T (norm b) 0) as [Zb|Nb].
      { rewrite !cosineSimilarity_zero_norm; auto. }
      rewrite !cosineSimilarity_regular; auto; try lia.
      rewrite (dotR_comm b a), (Rmult_comm (norm b)). reflexivity.
  - rewrite !cosineSimilarity_degenerate; simpl; auto.
Qed.

(** The guarded copy meets the contract of the similarity: 0 on every
    degenerate input, the quotient of the dot product by the product of
    the norms on the others, within [-1, 1], and the same in both orders. *)
Theorem cosineSimilarity_guarded_spec (vecA vecB : option Embedding) :
  (degenerate vecA vecB -> Guarded.cosineSimilarity vecA vecB = Fin 0)
  /\ (forall a b,
         vecA = Some a -> vecB = Some b -> ~ degenerate vecA vecB ->
         Guarded.cosineSimilarity vecA vecB
         = Fin (dotR a b / (norm a * norm b))
         /\ (-1 <= dotR a b / (norm a * norm b) <= 1)%R)
  /\ Guarded.cosineSimilarity vecA vecB = Guarded.cosineSimilarity vecB vecA.
Proof.
  split; [apply cosineSimilarity_degenerate|].
  split; [|apply cosineSimilarity_sym].
  intros a b -> -> Hnd. cbn [degenerate] in Hnd.
  assert (Hlen : List.length a = List.length b)
    by (destruct (Nat.eq_dec (List.length a) (List.length b)); tauto).
  assert (Hne : List.length a <> 0) by tauto.
  assert (Ha : norm a <> 0%R) by tauto.
  assert (Hb : norm b <> 0%R) by tauto.
  split; [apply cosineSimilarity_regular; assumption|].
  apply cosine_bounded; assumption.
Qed.

(** ** The sort and the ranking *)

Lemma slice_prefix {A} (l : list A) (count : nat) :
  slice l 0 (Z.of_nat count) = firstn count l.
Proof.
  unfold slice, relIndex. simpl (0 <? 0)%Z. cbv iota.
  destruct (Z.ltb_spec (Z.of_nat count) 0) as [H|_]; [lia|].
  rewrite Nat2Z.id. simpl (Z.to_nat 0). rewrite Nat.min_0_l, Nat.sub_0_r.
  simpl skipn.
  destruct (Nat.le_ge_cases count (List.length l)) as [H|H].
  - rewrite Nat.min_l by exact H. reflexivity.
  - rewrite Nat.min_r by exact H. rewrite !firstn_all2; auto.
Qed.

Lemma insert_perm {A} (cmp : A -> A -> num) x l :
  Permutation (insert cmp x l) (x :: l).
Proof.
  induction l as [|y l IH]; simpl; [apply Permutation_refl|].
  destruct (gt0 (cmp x y)).
  - eapply perm_trans; [apply perm_skip, IH|apply perm_swap].
  - apply Permutation_refl.
Qed.

Lemma sort_perm {A} (cmp : A -> A -> num) l : Permutation (JsArray.sort cmp l) l.
Proof.
  induction l as [|x l IH]; simpl; [apply perm_nil|].
  eapply perm_trans; [apply insert_perm|apply perm_skip, IH].
Qed.

Lemma gt0_byScoreDesc x y rx ry :
  ScoredChunk.score x = Fin rx -> ScoredChunk.score y = Fin ry ->
  gt0 (byScoreDesc x y) = true <-> (rx < ry)%R.
Proof.
  intros Hx Hy. unfold byScoreDesc, sub. rewrite Hx, Hy. simpl.
  destruct (Rlt_dec 0 (ry + - rx)); split; intros; try lra; try discriminate; reflexivity.
Qed.

Lemma insert_sorted x l :
  finiteScore x -> Forall finiteScore l -> Sorted scoreGe l ->
  Sorted scoreGe (insert byScoreDesc x l).
Proof.
  intros [rx Hx] Hfin Hs. induction l as [|y l IH]; simpl.
  - repeat constructor.
  - inversion Hfin as [|? ? [ry Hy] Hfin']; subst.
    inversion Hs as [|? ? Hs' Hhd]; subst.
    destruct (gt0 (byScoreDesc x y)) eqn:G.
    + apply (@gt0_byScoreDesc x y rx ry Hx Hy) in G.
      constructor; [apply IH; assumption|].
      destruct l as [|z l]; simpl.
      * constructor. unfold scoreGe. rewrite Hx, Hy. simpl. lra.
      * destruct (gt0 (byScoreDesc x z)).
        -- constructor. inversion Hhd; assumption.
        -- constructor. unfold scoreGe. rewrite Hx, Hy. simpl. lra.
    + constructor; [exact Hs|]. constructor.
      unfold scoreGe. rewrite Hx, Hy. simpl.
      destruct (Rlt_dec rx ry) as [L|NL]; [|lra].
      apply (@gt0_byScoreDesc x y rx ry Hx Hy) in L. congruence.
Qed.

Lemma sort_sorted l :
  Forall finiteScore l -> Sorted scoreGe (JsArray.sort byScoreDesc l).
Proof.
  induction 1 as [|x l Hx Hl IH]; simpl; [constructor|].
  apply insert_sorted; [exact Hx| |exact IH].
  eapply Permutation_Forall; [apply Permutation_sym, sort_perm|exact Hl].
Qed.

Lemma firstn_sorted {A} (R : A -> A -> Prop) n : forall l,
  Sorted R l -> Sorted R (firstn n l).
Proof.
  induction n as [|n IH]; intros l Hs; [constructor|].
  destruct l as [|x l]; [constructor|]. simpl.
  inversion Hs as [|? ? Hs' Hhd]; subst.
  constructor; [apply IH, Hs'|].
  destruct l as [|y l]; [rewrite firstn_nil; constructor|].
  destruct n; simpl; constructor. inversion Hhd; assumption.
Qed.

Lemma cosineSimilarity_fin vecA vecB : exists r, Guarded.cosineSimilarity vecA vecB = Fin r.
Proof.
  destruct vecA as [a|], vecB as [b|]; try (exists 0%R; reflexivity).
  destruct (Nat.eq_dec (List.length a) (List.length b)) as [E|N];
    [|exists 0%R; apply cosineSimilarity_degenerate; simpl; auto].
  destruct (Nat.eq_dec (List.length a) 0) as [Z|NZ];
    [exists 0%R; apply cosineSimilarity_degenerate; simpl; auto|].
  destruct (Req_dec_T (norm a) 0) as [Za|Na];
    [exists 0%R; apply cosineSimilarity_zero_norm; auto|].
  destruct (Req_dec_T (norm b) 0) as [Zb|Nb];
    [exists 0%R; apply cosineSimilarity_zero_norm; auto|].
  eexists. apply cosineSimilarity_regular; auto.
Qed.

Lemma lengthBonus_fin text :
  lengthBonus text
  = Fin (Rmin 1 (INR (String.length text) / 2000) * (3 / 10)).
Proof.
  unfold lengthBonus, ofNat. cbn [div].
  destruct (Req_dec_T 2000 0) as [E|_]; [lra|]. reflexivity.
Qed.

Lemma scoreChunk_fin q c : finiteScore (Guarded.scoreChunk q c).
Proof.
  unfold finiteScore, Guarded.scoreChunk. cbn [ScoredChunk.score].
  destruct (cosineSimilarity_fin (Some q) (Chunk.embedding c)) as [r Hr].
  rewrite Hr, lengthBonus_fin. cbn [mul add]. eexists. reflexivity.
Qed.

Lemma in_firstn {A} (x : A) n l : In x (firstn n l) -> In x l.
Proof.
  intros H. rewrite <- (firstn_skipn n l). apply in_or_app. left. exact H.
Qed.

Ltac empty_result :=
  cbn; repeat split; auto; solve [cbn; lia | constructor].

Section GuardedRetriever.
Context {Ext : Type} (caps : Capabilities Ext).

Lemma ranked_ok (q : Embedding) (chunks : list Chunk.t) (count : nat) :
  let out :=
    slice
      (JsArray.sort byScoreDesc
         (map (Guarded.scoreChunk q) (filter embedded chunks)))
      0 (Z.of_nat count) in
  List.length out <= count
  /\ Sorted scoreGe out
  /\ Forall (fun sc => finiteScore sc
                       /\ embedded (ScoredChunk.chunk sc) = true
                       /\ In (ScoredChunk.chunk sc) chunks) out.
Proof.
  intros out. subst out. rewrite slice_prefix.
  set (scored := map (Guarded.scoreChunk q) (filter embedded chunks)).
  assert (Hall : Forall (fun sc => finiteScore sc
                       /\ embedded (ScoredChunk.chunk sc) = true
                       /\ In (ScoredChunk.chunk sc) chunks) scored).
  { apply Forall_forall. intros sc Hin. unfold scored in Hin.
    apply in_map_iff in Hin. destruct Hin as [c [<- Hc]].
    apply filter_In in Hc. destruct Hc as [Hc He].
    split; [apply scoreChunk_fin|]. split; assumption. }
  split; [apply firstn_le_length|]. split.
  - apply firstn_sorted, sort_sorted.
    eapply Forall_impl; [|exact Hall]. intros sc H; apply H.
  - apply Forall_forall. intros sc Hin.
    apply in_firstn in Hin.
    eapply Permutation_in in Hin; [|apply sort_perm].
    revert sc Hin. apply Forall_forall. exact Hall.
Qed.

(** The guarded retriever, for every query, candidate array, [count] and
    state: it returns, never raises; the result has at most [count]
    elements, is ordered by non-increasing finite scores, holds only
    candidates with a non-empty embedding, and is empty when no candidate
    has one. *)
Theorem findRelevantChunks_guarded_spec
    (query : string) (embeddedChunks : option (list Chunk.t)) (count : nat)
    (s : UState Ext) :
  exists out s',
    Guarded.findRelevantChunks caps query embeddedChunks count s = (Ok out, s')
    /\ List.length out <= count
    /\ Sorted scoreGe out
    /\ Forall (fun sc => finiteScore sc
                         /\ embedded (ScoredChunk.chunk sc) = true
                         /\ In (ScoredChunk.chunk sc) (candidates embeddedChunks))
         out
    /\ (filter embedded (candidates embeddedChunks) = [] -> out = []).
Proof.
  unfold Guarded.findRelevantChunks, tryCatch.
  destruct embeddedChunks as [[|c chunks]|].
  1,3: exists [], s; empty_result.
  unfold bind. set (cs := c :: chunks).
  destruct (Guarded.generateEmbedding caps query s) as [[q|e] s1].
  - fold embedded.
    destruct (Nat.eqb_spec
                (List.length (map (Guarded.scoreChunk q) (filter embedded cs))) 0) as [E|N].
    + exists [], s1. empty_result.
    + eexists _, s1. split; [reflexivity|].
      destruct (ranked_ok q cs count) as [H1 [H2 H3]].
      repeat split; try assumption.
      intros Hnil. cbn [candidates] in Hnil. rewrite Hnil in N. cbn in N. lia.
  - exists [], s1. empty_result.
Qed.

End GuardedRetriever.

(** ** The two copies at the inputs the claims name *)

(** C1.  In [utils/embedding-utils.js] the retriever raises on an empty
    candidate array once the embedding of the query fails, and it keeps a
    candidate whose embedding is empty, with a score that is not a number.
    On the same inputs the guarded copy answers the empty array and drops
    the candidate; [findRelevantChunks_guarded_spec] has the general
    statement. *)
Theorem C1_plain_retriever_diverges :
  (Plain.findRelevantChunks (scriptedCaps (fun _ => false) true)
     "q" (Some []) 3 emptyState
   = (Throw (newError "Failed to find relevant chunks"), emptyState)
   /\ Guarded.findRelevantChunks (scriptedCaps (fun _ => false) true)
        "q" (Some []) 3 emptyState
      = (Ok [], emptyState))
  /\ (Plain.findRelevantChunks workingCaps
        "q" (Some [emptyEmbeddingChunk]) 3 emptyState
      = (Ok [ScoredChunk.make emptyEmbeddingChunk NaN],
         mkUState [("q"%string, [1%R])] tt)
      /\ Guarded.findRelevantChunks workingCaps
           "q" (Some [emptyEmbeddingChunk]) 3 emptyState
         = (Ok [], mkUState [("q"%string, [1%R])] tt)).
Proof. repeat split; reflexivity. Qed.

(** C2.  In [utils/embedding-utils.js] the similarity of two empty vectors,
    of a zero vector with another, and of a vector with a shorter one is
    NaN, not 0, and a missing vector raises.  On the same inputs the
    guarded copy answers 0; [cosineSimilarity_guarded_spec] has the general
    statement. *)
Theorem C2_plain_cosineSimilarity_diverges :
  (Plain.cosineSimilarity (Some []) (Some []) = Ok NaN
   /\ Guarded.cosineSimilarity (Some []) (Some []) = Fin 0)
  /\ (Plain.cosineSimilarity (Some [0%R]) (Some [1%R]) = Ok NaN
      /\ Guarded.cosineSimilarity (Some [0%R]) (Some [1%R]) = Fin 0)
  /\ (Plain.cosineSimilarity (Some [1%R]) (Some []) = Ok NaN
      /\ Guarded.cosineSimilarity (Some [1%R]) (Some []) = Fin 0)
  /\ (Plain.cosineSimilarity None (Some [1%R]) = Throw typeError
      /\ Guarded.cosineSimilarity None (Some [1%R]) = Fin 0).
Proof.
  split; [split|split; [split|split; split; reflexivity]].
  - unfold Plain.cosineSimilarity. cbn.
    destruct (Rlt_dec 0 0); [lra|]. cbn. rewrite sqrt_0.
    destruct (Req_dec_T (0 * 0) 0) as [_|N]; [|lra].
    destruct (Req_dec_T 0 0) as [_|N]; [reflexivity|lra].
  - reflexivity.
  - unfold Plain.cosineSimilarity. cbn.
    destruct (Rlt_dec (0 + 0 * 0) 0); [lra|].
    destruct (Rlt_dec (0 + 1 * 1) 0); [lra|]. cbn.
    replace (0 + 0 * 0)%R with 0%R by lra. rewrite sqrt_0.
    destruct (Req_dec_T (0 * R_sqrt.sqrt (0 + 1 * 1)) 0) as [_|N]; [|lra].
    destruct (Req_dec_T (0 + 0 * 1) 0) as [_|N]; [reflexivity|lra].
  - apply cosineSimilarity_zero_norm; [reflexivity|].
    left. apply norm_zero_iff. cbn. lra.
Qed.

(** C3.  In [utils/embedding-utils.js] one chunk that fails to embed aborts
    the batch: of three chunks the second of which fails, none is
    returned.  On the same batch the guarded copy returns the three, the
    second with an empty embedding; [generateChunkEmbeddings_guarded_spec]
    has the general statement. *)
Theorem C3_plain_batch_aborts :
  Plain.generateChunkEmbeddings (scriptedCaps notBad true)
    ["good"; "bad"; "fine"]%string emptyState
  = (Throw (newError "Failed to generate embedding"),
     mkUState [("good"%string, [1%R])] tt)
  /\ Guarded.generateChunkEmbeddings (scriptedCaps notBad true)
       ["good"; "bad"; "fine"]%string emptyState
     = (Ok [Chunk.make "good" (Some [1%R]) None;
            Chunk.make "bad" (Some []) None;
            Chunk.make "fine" (Some [1%R]) None],
        mkUState [("good"%string, [1%R]); ("fine"%string, [1%R])] tt).
Proof. split; reflexivity. Qed.

(** C4.  In [utils/embedding-utils.js] the summarizer raises when the
    generation fails, and also when the generation succeeds and the
    embedding of the summary fails.  In the same two cases the guarded
    copy returns the fallback summary and the generated text with an empty
    embedding; [generateSummary_guarded_spec] has the general statement. *)
Theorem C4_plain_summary_raises :
  (Plain.generateSummary (scriptedCaps (fun _ => true) false)
     oneMessage emptyState
   = (Throw (newError "Failed to generate summary"), emptyState)
   /\ Guarded.generateSummary (scriptedCaps (fun _ => true) false)
        oneMessage emptyState
      = (Ok Guarded.fallbackSummary, emptyState))
  /\ (Plain.generateSummary (scriptedCaps (fun _ => false) true)
        oneMessage emptyState
      = (Throw (newError "Failed to generate summary"), emptyState)
      /\ Guarded.generateSummary (scriptedCaps (fun _ => false) true)
           oneMessage emptyState
         = (Ok (Chunk.make "A summary." (Some []) None), emptyState)).
Proof. repeat split; reflexivity. Qed.

(** ** The guarded batch and the guarded summarizer *)

Section GuardedBatch.
Context {Ext : Type} (caps : Capabilities Ext).

Lemma embedEach_trace chunks : forall acc s,
  Guarded.embedEach caps chunks acc s
  = (Ok (acc ++ fst (embedTrace caps chunks s)), snd (embedTrace caps chunks s)).
Proof.
  induction chunks as [|c rest IH]; intros acc s.
  - cbn. rewrite app_nil_r. reflexivity.
  - cbn [Guarded.embedEach embedTrace]. unfold bind at 1. unfold tryCatch, bind, ret.
    destruct (Guarded.generateEmbedding caps c s) as [[e|err] s1];
      rewrite IH; destruct (embedTrace caps rest s1) as [out s2]; cbn;
      rewrite <- app_assoc; reflexivity.
Qed.

Lemma embedTrace_text chunks : forall s,
  map Chunk.text (fst (embedTrace caps chunks s)) = chunks.
Proof.
  induction chunks as [|c rest IH]; intros s; [reflexivity|].
  cbn [embedTrace]. destruct (Guarded.generateEmbedding caps c s) as [r s1].
  specialize (IH s1). destruct (embedTrace caps rest s1) as [out s2].
  cbn in *. now rewrite IH.
Qed.

Lemma embedTrace_nth chunks : forall i chunk s,
  nth_error chunks i = Some chunk ->
  nth_error (fst (embedTrace caps chunks s)) i
  = Some (Chunk.make chunk
            (Some (embeddingOrEmpty
                     (fst (Guarded.generateEmbedding caps chunk
                             (snd (embedTrace caps (firstn i chunks) s))))))
            None).
Proof.
  induction chunks as [|c rest IH]; intros [|i] chunk s H; try discriminate.
  - cbn in H. injection H as ->. cbn.
    destruct (Guarded.generateEmbedding caps chunk s) as [r s1].
    destruct (embedTrace caps rest s1) as [out s2]. reflexivity.
  - cbn in H. cbn [firstn embedTrace].
    destruct (Guarded.generateEmbedding caps c s) as [r s1].
    specialize (IH i chunk s1 H).
    destruct (embedTrace caps rest s1) as [out s2].
    destruct (embedTrace caps (firstn i rest) s1) as [out' s2'].
    cbn in *. exact IH.
Qed.

(** The guarded batch never raises and returns one chunk object per input
    chunk, in input order: the object at position [i] carries the text of
    chunk [i] and the embedding [generateEmbedding] gives for it in the
    state the first [i] chunks leave, or the empty array when that call
    raises. *)
Theorem generateChunkEmbeddings_guarded_spec (chunks : list string)
    (s : UState Ext) :
  exists out s',
    Guarded.generateChunkEmbeddings caps chunks s = (Ok out, s')
    /\ map Chunk.text out = chunks
    /\ forall i chunk,
         nth_error chunks i = Some chunk ->
         nth_error out i
         = Some (Chunk.make chunk
                   (Some (embeddingOrEmpty
                            (fst (Guarded.generateEmbedding caps chunk
                                    (snd (Guarded.generateChunkEmbeddings caps
                                            (firstn i chunks) s))))))
                   None).
Proof.
  unfold Guarded.generateChunkEmbeddings.
  exists (fst (embedTrace caps chunks s)), (snd (embedTrace caps chunks s)).
  split; [apply embedEach_trace|]. split; [apply embedTrace_text|].
  intros i chunk H. rewrite embedEach_trace. cbn [snd].
  apply embedTrace_nth, H.
Qed.

(** The guarded summarizer never raises: when the generation, retries
    included, fails, it returns the fallback summary; when the generation
    gives a text, it returns that text with its embedding, or with the
    empty array when the embedding raises. *)
Theorem generateSummary_guarded_spec (messages : list Message.t)
    (s : UState Ext) :
  exists summary s',
    Guarded.generateSummary caps messages s = (Ok summary, s')
    /\ match
         Guarded.withRetry caps
           (callExt
              (generateContent caps
                 (summaryPrompt
                    (JsArray.join blankLine (map formatMessage messages)))))
           None s
       with
       | (Throw _, _) => summary = Guarded.fallbackSummary
       | (Ok text, s1) =>
           match Guarded.generateEmbedding caps text s1 with
           | (Ok e, _) => summary = Chunk.make text (Some e) None
           | (Throw _, _) => summary = Chunk.make text (Some []) None
           end
       end.
Proof.
  unfold Guarded.generateSummary, tryCatch, bind, ret.
  destruct (Guarded.withRetry _ _ _ s) as [[text|e] s1].
  - destruct (Guarded.generateEmbedding caps text s1) as [[v|e] s2];
      eexists _, _; split; reflexivity.
  - eexists _, _; split; reflexivity.
Qed.

End GuardedBatch.

(** ** The embedding cache *)

Section MapFacts.
Context {V : Type}.
Implicit Types (m : JsMap.t V) (k : string) (v : V).

Lemma get_none_iff k m : JsMap.get k m = None <-> ~ In k (JsMap.keys m).
Proof.
  induction m as [|[k' v'] m IH]; cbn; [tauto|].
  destruct (String.eqb_spec k k') as [->|N].
  - split; [discriminate|]. intros H; exfalso; apply H; now left.
  - rewrite IH. split; intros H; [intros [E|I]; [congruence|tauto]|tauto].
Qed.

Lemma keys_set_new k v m :
  JsMap.get k m = None -> JsMap.keys (JsMap.set k v m) = JsMap.keys m ++ [k].
Proof.
  induction m as [|[k' v'] m IH]; cbn; [reflexivity|].
  destruct (String.eqb k k'); [discriminate|]. intros H. cbn.
  unfold JsMap.keys in IH. now rewrite IH.
Qed.

Lemma size_keys m : JsMap.size m = List.length (JsMap.keys m).
Proof. unfold JsMap.size, JsMap.keys. now rewrite length_map. Qed.

Lemma size_set_le k v m : JsMap.size (JsMap.set k v m) <= S (JsMap.size m).
Proof.
  unfold JsMap.size. induction m as [|[k' v'] m IH]; cbn; [lia|].
  destruct (String.eqb k k'); cbn; lia.
Qed.

Lemma delete_oldest m :
  match JsMap.firstKey m with
  | Some k0 => JsMap.delete k0 m
  | None => m
  end = tl m.
Proof.
  destruct m as [|[k0 v0] m]; cbn; [reflexivity|].
  now rewrite String.eqb_refl.
Qed.
End MapFacts.

Lemma evict_eq cache :
  evict cache = if capacity <? JsMap.size cache then tl cache else cache.
Proof. unfold evict. now rewrite delete_oldest. Qed.

Lemma size_tl {V} (m : JsMap.t V) : JsMap.size (tl m) = pred (JsMap.size m).
Proof. destruct m; reflexivity. Qed.

Lemma cacheAfterStore_bounded k v cache :
  JsMap.size cache <= capacity ->
  JsMap.size (cacheAfterStore k v cache) <= capacity.
Proof.
  intros H. unfold cacheAfterStore. rewrite evict_eq.
  pose proof (size_set_le k v cache) as Hs.
  destruct (Nat.ltb_spec capacity (JsMap.size (JsMap.set k v cache))) as [L|L].
  - rewrite size_tl. lia.
  - exact L.
Qed.

Lemma keys_tl {V} (m : JsMap.t V) : JsMap.keys (tl m) = tl (JsMap.keys m).
Proof. destruct m; reflexivity. Qed.

Lemma cacheAfterStore_keys k v cache :
  JsMap.get k cache = None ->
  JsMap.keys (cacheAfterStore k v cache)
  = if JsMap.size cache <? capacity then JsMap.keys cache ++ [k]
    else tl (JsMap.keys cache ++ [k]).
Proof.
  intros H. unfold cacheAfterStore. rewrite evict_eq.
  rewrite (size_keys (JsMap.set k v cache)), (@keys_set_new _ k v cache H).
  rewrite length_app, <- size_keys. cbn [List.length].
  destruct (Nat.ltb_spec capacity (JsMap.size cache + 1)) as [L|L];
    destruct (Nat.ltb_spec (JsMap.size cache) capacity) as [L'|L']; try lia.
  - rewrite keys_tl, (@keys_set_new _ k v cache H). reflexivity.
  - apply keys_set_new, H.
Qed.

Section CacheSteps.
Context {Ext : Type} (caps : Capabilities Ext).

Lemma storeInCache_run k v (s : UState Ext) :
  storeInCache k v s
  = (Ok tt, mkUState (cacheAfterStore k v (embeddingCache s)) (ext s)).
Proof.
  unfold storeInCache, bind, modifyCache, modify, gets, cacheAfterStore, evict.
  cbv beta iota. cbn [embeddingCache ext]. fold capacity.
  destruct (capacity <? JsMap.size (JsMap.set k v (embeddingCache s)));
    [|reflexivity].
  cbn [embeddingCache ext].
  destruct (JsMap.firstKey (JsMap.set k v (embeddingCache s))); reflexivity.
Qed.

Lemma retryLoop_cache {A} (f : Ext -> Result A * Ext) n : forall s,
  embeddingCache (snd (Guarded.retryLoop n (callExt f) s))
  = embeddingCache s.
Proof.
  induction n as [|n IH]; intros s; cbn; unfold callExt at 1;
    destruct (f (ext s)) as [[a|e] x]; cbn; try reflexivity.
  rewrite IH. reflexivity.
Qed.

Lemma mockEmbedding_cache n : forall s,
  embeddingCache (snd (Guarded.mockEmbedding caps n s))
  = embeddingCache s.
Proof.
  induction n as [|n IH]; intros s; [reflexivity|].
  cbn [Guarded.mockEmbedding]. unfold bind, callExt, ret.
  destruct (random caps (ext s)) as [r x].
  specialize (IH (mkUState (embeddingCache s) x)).
  destruct (Guarded.mockEmbedding caps n _) as [[rest|e] s2];
    cbn in *; exact IH.
Qed.

(** One call leaves the cache as it is, or stores one vector under the key
    of the text, which was absent. *)
Lemma generateEmbedding_cache copy text (s : UState Ext) :
  let cache' := embeddingCache (snd (generateEmbeddingOf copy caps text s)) in
  cache' = embeddingCache s
  \/ (JsMap.get (cacheKeyOf text) (embeddingCache s) = None
      /\ exists v, cache' = cacheAfterStore (cacheKeyOf text) v (embeddingCache s)).
Proof.
  destruct copy; cbn [generateEmbeddingOf].
  - unfold Plain.generateEmbedding, tryCatch, bind, gets, ret, throw.
    fold (cacheKeyOf text).
    destruct (JsMap.get (cacheKeyOf text) (embeddingCache s)) eqn:G;
      [left; reflexivity|].
    unfold callExt. destruct (embedContent caps text (ext s)) as [[v|e] x].
    + rewrite storeInCache_run. right. split; [reflexivity|]. exists v. reflexivity.
    + left. reflexivity.
  - unfold Guarded.generateEmbedding, tryCatch, bind, gets, ret, throw.
    fold (cacheKeyOf text).
    destruct (JsMap.get (cacheKeyOf text) (embeddingCache s)) eqn:G;
      [left; reflexivity|].
    unfold Guarded.withRetry.
    pose proof (retryLoop_cache (embedContent caps text) 2 s) as Hc.
    destruct (Guarded.retryLoop 2 _ s) as [[v|e] s1]; cbn [snd] in Hc.
    + rewrite storeInCache_run. right. split; [reflexivity|]. exists v.
      cbn. now rewrite Hc.
    + destruct (development caps).
      * left. cbv beta zeta. rewrite mockEmbedding_cache. exact Hc.
      * left. exact Hc.
Qed.

(** A hit answers from the cache and changes nothing, the order of the
    keys included. *)
Lemma generateEmbedding_hit copy text v (s : UState Ext) :
  JsMap.get (cacheKeyOf text) (embeddingCache s) = Some v ->
  generateEmbeddingOf copy caps text s = (Ok v, s).
Proof.
  intros G. destruct copy; cbn [generateEmbeddingOf].
  - unfold Plain.generateEmbedding, tryCatch, bind, gets, ret.
    fold (cacheKeyOf text). rewrite G. reflexivity.
  - unfold Guarded.generateEmbedding, tryCatch, bind, gets, ret.
    fold (cacheKeyOf text). rewrite G. reflexivity.
Qed.

(** A miss that the model answers stores the vector. *)
Lemma generateEmbedding_miss copy text (s : UState Ext) :
  alwaysEmbeds caps ->
  JsMap.get (cacheKeyOf text) (embeddingCache s) = None ->
  exists v,
    embeddingCache (snd (generateEmbeddingOf copy caps text s))
    = cacheAfterStore (cacheKeyOf text) v (embeddingCache s).
Proof.
  intros Hok G. destruct (Hok text (ext s)) as [v [x Hv]].
  exists v. destruct copy; cbn [generateEmbeddingOf].
  - unfold Plain.generateEmbedding, tryCatch, bind, gets, ret.
    fold (cacheKeyOf text). rewrite G. unfold callExt. rewrite Hv.
    rewrite storeInCache_run. reflexivity.
  - unfold Guarded.generateEmbedding, tryCatch, bind, gets, ret.
    fold (cacheKeyOf text). rewrite G.
    unfold Guarded.withRetry.
    cbn [Guarded.retryLoop]. unfold callExt at 1. rewrite Hv.
    rewrite storeInCache_run. reflexivity.
Qed.

Lemma embedAll_bounded copy texts : forall s,
  JsMap.size (embeddingCache s) <= capacity ->
  JsMap.size (embeddingCache (embedAll copy caps texts s)) <= capacity.
Proof.
  unfold embedAll. induction texts as [|t texts IH]; intros s H; [exact H|].
  cbn [fold_left]. apply IH.
  destruct (generateEmbedding_cache copy t s) as [E|[_ [v E]]]; cbn zeta in E;
    rewrite E; [exact H|apply cacheAfterStore_bounded, H].
Qed.

(** While the cache has room, distinct new keys are appended in order. *)
Lemma embedAll_fills copy texts : forall s,
  alwaysEmbeds caps ->
  NoDup (JsMap.keys (embeddingCache s) ++ map cacheKeyOf texts) ->
  JsMap.size (embeddingCache s) + List.length texts <= capacity ->
  JsMap.keys (embeddingCache (embedAll copy caps texts s))
  = JsMap.keys (embeddingCache s) ++ map cacheKeyOf texts.
Proof.
  unfold embedAll. induction texts as [|t texts IH]; intros s Hok Hnd Hsz.
  - cbn. now rewrite app_nil_r.
  - cbn [fold_left map List.length] in *.
    assert (G : JsMap.get (cacheKeyOf t) (embeddingCache s) = None).
    { apply get_none_iff. intros Hin.
      apply NoDup_remove_2 in Hnd. apply Hnd, in_or_app. now left. }
    destruct (@generateEmbedding_miss copy t s Hok G) as [v E].
    assert (K : JsMap.keys (embeddingCache (snd (generateEmbeddingOf copy caps t s)))
                = JsMap.keys (embeddingCache s) ++ [cacheKeyOf t]).
    { rewrite E, (@cacheAfterStore_keys (cacheKeyOf t) v (embeddingCache s) G).
      destruct (Nat.ltb_spec (JsMap.size (embeddingCache s)) capacity); [reflexivity|lia]. }
    rewrite IH; [rewrite K, <- app_assoc; reflexivity|exact Hok| |].
    + rewrite K, <- app_assoc. exact Hnd.
    + rewrite size_keys, K, length_app, <- size_keys. cbn. lia.
Qed.

End CacheSteps.

(** C9.  In both copies, after any sequence of [generateEmbedding] calls
    from an empty cache the cache holds at most 1000 entries; after 1001
    texts with distinct keys (their first 100 characters), all answered by
    the model, it holds exactly 1000 entries, those of the texts after the
    first one, in their order of insertion, and the key of the first text
    is gone; a hit returns the cached vector and leaves the cache, order of
    the keys included, as it was. *)
Theorem C9_embedding_cache_bounded :
  forall (copy : Copy) (Ext : Type) (caps : Capabilities Ext),
    (forall texts x,
        JsMap.size
          (embeddingCache (embedAll copy caps texts (mkUState JsMap.empty x)))
        <= 1000)
    /\ (forall texts x,
           alwaysEmbeds caps ->
           List.length texts = 1001 ->
           NoDup (map cacheKeyOf texts) ->
           let cache :=
             embeddingCache
               (embedAll copy caps texts (mkUState JsMap.empty x)) in
           JsMap.size cache = 1000
           /\ JsMap.keys cache = map cacheKeyOf (tl texts)
           /\ JsMap.get (cacheKeyOf (hd EmptyString texts)) cache = None)
    /\ (forall text v s,
           JsMap.get (cacheKeyOf text) (embeddingCache s) = Some v ->
           generateEmbeddingOf copy caps text s = (Ok v, s)).
Proof.
  intros copy Ext caps. split; [|split].
  - intros texts x. apply (embedAll_bounded caps). cbn. unfold capacity. lia.
  - intros texts x Hok Hlen Hnd cache.
    assert (Hne : texts <> []) by (intros ->; discriminate).
    pose proof (app_removelast_last EmptyString Hne) as Hsplit.
    set (init := removelast texts) in *. set (lst := last texts EmptyString) in *.
    assert (Hinit : List.length init = 1000).
    { apply (f_equal (@List.length string)) in Hsplit.
      rewrite length_app in Hsplit. cbn in Hsplit. lia. }
    assert (Hnd' : NoDup (map cacheKeyOf init ++ [cacheKeyOf lst])).
    { rewrite Hsplit, map_app in Hnd. exact Hnd. }
    set (s0 := mkUState (@JsMap.empty Embedding) x).
    assert (K1 : JsMap.keys (embeddingCache (embedAll copy caps init s0))
                 = map cacheKeyOf init).
    { rewrite (@embedAll_fills Ext caps copy init s0 Hok).
      - reflexivity.
      - cbn. apply NoDup_app_remove_r in Hnd'. exact Hnd'.
      - cbn. unfold capacity. lia. }
    assert (S1 : JsMap.size (embeddingCache (embedAll copy caps init s0)) = 1000).
    { rewrite size_keys, K1, length_map. exact Hinit. }
    assert (G : JsMap.get (cacheKeyOf lst)
                  (embeddingCache (embedAll copy caps init s0)) = None).
    { apply get_none_iff. rewrite K1. intros Hin.
      apply NoDup_remove_2 in Hnd'. apply Hnd'. rewrite app_nil_r. exact Hin. }
    assert (K : JsMap.keys cache = map cacheKeyOf (tl texts)).
    { subst cache. fold s0. rewrite Hsplit at 1. unfold embedAll at 1.
      rewrite fold_left_app. fold (embedAll copy caps init s0). cbn [fold_left].
      destruct (@generateEmbedding_miss Ext caps copy lst _ Hok G) as [v E].
      rewrite E, (@cacheAfterStore_keys (cacheKeyOf lst) v _ G), S1.
      unfold capacity. rewrite Nat.ltb_irrefl, K1.
      rewrite Hsplit. destruct init as [|i0 init']; [discriminate|].
      cbn. rewrite map_app. reflexivity. }
    split; [|split].
    + rewrite size_keys, K, length_map.
      destruct texts; [contradiction|]. cbn in *. lia.
    + exact K.
    + apply get_none_iff. rewrite K.
      destruct texts as [|t0 texts']; [contradiction|]. cbn in *.
      inversion Hnd; assumption.
  - intros text v s. apply generateEmbedding_hit.
Qed.

Lemma distinctb_NoDup (l : list string) : distinctb l = true -> NoDup l.
Proof.
  induction l as [|x l IH]; cbn; intros H; [constructor|].
  apply andb_true_iff in H. destruct H as [Hx Hl].
  constructor; [|apply IH, Hl].
  intros Hin. apply negb_true_iff in Hx.
  assert (E : existsb (String.eqb x) l = true)
    by (apply existsb_exists; exists x; split; [exact Hin|apply String.eqb_refl]).
  congruence.
Qed.

Lemma workingCaps_alwaysEmbeds : alwaysEmbeds workingCaps.
Proof. intros text x. exists [1%R], x. reflexivity. Qed.

Lemma C9_embedding_cache_bounded_witness :
  (alwaysEmbeds workingCaps
   /\ List.length sampleTexts = 1001
   /\ NoDup (map cacheKeyOf sampleTexts)
   /\ JsMap.size
        (embeddingCache (embedAll plain workingCaps sampleTexts emptyState))
      = 1000)
  /\ (JsMap.get (cacheKeyOf "doc-0") (embeddingCache cachedState)
      = Some [1%R]
      /\ Plain.generateEmbedding workingCaps "doc-0" cachedState
         = (Ok [1%R], cachedState)).
Proof.
  assert (Hnd : NoDup (map cacheKeyOf sampleTexts))
    by (apply distinctb_NoDup; vm_compute; reflexivity).
  assert (Hlen : List.length sampleTexts = 1001) by reflexivity.
  assert (Hhit : JsMap.get (cacheKeyOf "doc-0") (embeddingCache cachedState)
                 = Some [1%R]) by reflexivity.
  split.
  - split; [exact workingCaps_alwaysEmbeds|].
    split; [exact Hlen|]. split; [exact Hnd|].
    exact (proj1
             (proj1 (proj2 (C9_embedding_cache_bounded plain workingCaps))
                sampleTexts tt workingCaps_alwaysEmbeds Hlen Hnd)).
  - split; [exact Hhit|].
    exact (proj2 (proj2 (C9_embedding_cache_bounded plain workingCaps))
             "doc-0"%string [1%R] cachedState Hhit).
Defined.

(** ** The controller: slices, trigger, title, context *)

Lemma relIndex_neg len (k : nat) :
  0 < k -> relIndex len (- Z.of_nat k) = len - k.
Proof.
  intros Hk. unfold relIndex.
  destruct (Z.ltb_spec (- Z.of_nat k) 0); lia.
Qed.

Lemma relIndex_zero len : relIndex len 0 = 0.
Proof. reflexivity. Qed.

Lemma slice_drop_last {A} (l : list A) (k : nat) :
  0 < k -> slice l 0 (- Z.of_nat k) = firstn (List.length l - k) l.
Proof.
  intros Hk. unfold slice. rewrite relIndex_zero, (relIndex_neg _ Hk).
  now rewrite Nat.sub_0_r.
Qed.

Lemma slice_window {A} (l : list A) (i j : nat) :
  0 < j -> j <= i ->
  slice l (- Z.of_nat i) (- Z.of_nat j)
  = firstn (i - j - (i - List.length l)) (skipn (List.length l - i) l).
Proof.
  intros Hj Hij. unfold slice.
  rewrite (relIndex_neg _ Hj), relIndex_neg by lia.
  f_equal. lia.
Qed.

Lemma nth_error_window {A} (l : list A) (a n i : nat) :
  i < n -> nth_error (firstn n (skipn a l)) i = nth_error l (a + i).
Proof.
  intros Hi. rewrite nth_error_firstn.
  destruct (Nat.ltb_spec i n); [|lia]. apply nth_error_skipn.
Qed.

Lemma findChat_ids chatId userId st c :
  findChat chatId userId st = Some c ->
  Chat._id c = chatId /\ Chat.userId c = userId.
Proof.
  unfold findChat. intros H. apply find_some in H. destruct H as [_ H].
  apply andb_true_iff in H. now rewrite !Nat.eqb_eq in H.
Qed.

Lemma findChat_saveChat chatId userId st c0 c :
  findChat chatId userId st = Some c0 ->
  Chat._id c = chatId -> Chat.userId c = userId ->
  findChat chatId userId (saveChat c st) = Some c.
Proof.
  unfold findChat, saveChat. cbn [chats]. intros H Hid Hu. subst chatId userId.
  induction (chats st) as [|c1 l IH]; [discriminate|].
  cbn [map find] in *.
  destruct (Nat.eqb_spec (Chat._id c1) (Chat._id c)) as [E|N].
  - rewrite !Nat.eqb_refl. reflexivity.
  - apply Nat.eqb_neq in N. rewrite N in *. cbn [andb] in *. apply IH, H.
Qed.

Section Runs.
Context {S A B : Type}.

Lemma bind_ok (m : M S A) (k : A -> M S B) s a s1 :
  m s = (Ok a, s1) -> bind m k s = k a s1.
Proof. intros H. unfold bind. now rewrite H. Qed.

Lemma bind_throw (m : M S A) (k : A -> M S B) s e s1 :
  m s = (Throw e, s1) -> bind m k s = (Throw e, s1).
Proof. intros H. unfold bind. now rewrite H. Qed.

Lemma tryCatch_ok (m : M S A) handler s a s1 :
  m s = (Ok a, s1) -> tryCatch m handler s = (Ok a, s1).
Proof. intros H. unfold tryCatch. now rewrite H. Qed.

Lemma tryCatch_throw (m : M S A) handler s e s1 :
  m s = (Throw e, s1) -> tryCatch m handler s = handler e s1.
Proof. intros H. unfold tryCatch. now rewrite H. Qed.
End Runs.

(** C5.  The test of line 63 holds exactly when the message count is above
    10 and a multiple of 10: not at 10, 11 or 21, and at 20.  With 20
    messages, the newest included, the summarizer is run on the ten
    messages at positions 9 to 18, the newest message at position 19 left
    out.  When it returns, the chat gets one more summary, after those it
    had: the text and the embedding returned, with the range from 9 to 19;
    the chat is saved so, and is what the store then holds for it; nothing
    else of the chat changes.  When the summarizer or the save raises, so
    does this step, the store being left as it was. *)
Theorem C5_summary_trigger_and_window :
  (forall n, shouldSummarize n = true <-> 10 < n /\ n mod 10 = 0)
  /\ shouldSummarize 10 = false
  /\ shouldSummarize 11 = false
  /\ shouldSummarize 20 = true
  /\ shouldSummarize 21 = false
  /\ forall (Ext : Type) (eu : Utils Ext) (svc : Services Ext)
            (chat : Chat.t) (s : State Ext),
       List.length (Chat.messages chat) = 20 ->
       let window := firstn 10 (skipn 9 (Chat.messages chat)) in
       List.length window = 10
       /\ (forall i, i < 10 ->
             nth_error window i = nth_error (Chat.messages chat) (9 + i))
       /\ match generateSummary eu window (utils s) with
          | (Throw e, u1) =>
              summarizeIfDue eu svc chat s
              = (Throw e,
                 mkState (store s) (io s) (emitted s) (response s) u1)
          | (Ok summary, u1) =>
              let appended :=
                Summary.make (Chunk.text summary) (Chunk.embedding summary)
                  (MessageRange.make 9 19) in
              let chat' :=
                Chat.make (Chat._id chat) (Chat.userId chat)
                  (Chat.messages chat) (Chat.summaries chat ++ [appended])
                  (Chat.title chat) in
              match dbOutcome svc (ext u1) with
              | (None, x) =>
                  summarizeIfDue eu svc chat s
                  = (Ok chat',
                     mkState (saveChat chat' (store s)) (io s) (emitted s)
                       (response s) (mkUState (embeddingCache u1) x))
                  /\ files (saveChat chat' (store s)) = files (store s)
                  /\ forall stored,
                       findChat (Chat._id chat) (Chat.userId chat) (store s)
                       = Some stored ->
                       findChat (Chat._id chat) (Chat.userId chat)
                         (saveChat chat' (store s))
                       = Some chat'
              | (Some e, x) =>
                  summarizeIfDue eu svc chat s
                  = (Throw e,
                     mkState (store s) (io s) (emitted s) (response s)
                       (mkUState (embeddingCache u1) x))
              end
          end.
Proof.
  split; [|repeat (split; [reflexivity|])].
  - intros n. unfold shouldSummarize.
    rewrite andb_true_iff, Nat.ltb_lt, Nat.eqb_eq. reflexivity.
  - intros Ext eu svc chat s H window.
    assert (W : JsArray.slice (Chat.messages chat) (-11) (-1) = window).
    { subst window. change (-11)%Z with (- Z.of_nat 11)%Z.
      change (-1)%Z with (- Z.of_nat 1)%Z.
      rewrite slice_window by lia. rewrite H. reflexivity. }
    split; [|split].
    + subst window. rewrite length_firstn, length_skipn, H. reflexivity.
    + intros i Hi. apply nth_error_window, Hi.
    + assert (Due : forall (k : Chat.t -> M (State Ext) Chat.t),
                 summarizeIfDue eu svc chat
                 = (summary <- liftU (generateSummary eu window) ;;
                    let chat' :=
                      Chat.pushSummary chat
                        (Summary.make (Chunk.text summary)
                           (Chunk.embedding summary)
                           (MessageRange.make 9 19)) in
                    Chat_save svc chat' ;; ret chat')%js).
      { intros _. unfold summarizeIfDue. rewrite H, W. reflexivity. }
      rewrite (Due ret). clear Due.
      destruct (generateSummary eu window (utils s)) as [[summary|e] u1]
        eqn:G.
      2:{ apply bind_throw. unfold liftU. rewrite G. reflexivity. }
      set (s1 := mkState (store s) (io s) (emitted s) (response s) u1).
      assert (L : liftU (generateSummary eu window) s = (Ok summary, s1))
        by (unfold liftU; rewrite G; reflexivity).
      rewrite (@bind_ok _ _ _ _ _ _ _ _ L). cbv zeta.
      destruct (dbOutcome svc (ext u1)) as [outcome x] eqn:D.
      set (s2 := mkState (store s) (io s) (emitted s) (response s)
                   (mkUState (embeddingCache u1) x)).
      assert (C : dbCall svc s1
                  = (match outcome with
                     | Some e => Throw e
                     | None => Ok tt
                     end, s2)).
      { unfold dbCall, bind, callService. cbn. rewrite D.
        destruct outcome; reflexivity. }
      destruct outcome as [e|].
      * apply bind_throw. unfold Chat_save. apply bind_throw. exact C.
      * split; [|split; [reflexivity|]].
        -- unfold Chat_save.
           rewrite (@bind_ok _ _ _ _ _ _ _ _
                      (@bind_ok _ _ _ _ _ _ _ _ C)).
           reflexivity.
        -- intros stored Hs.
           eapply findChat_saveChat; [exact Hs|reflexivity|reflexivity].
Qed.

Lemma C5_summary_trigger_and_window_witness :
  List.length (Chat.messages sampleChat20) = 20
  /\ map Message.content (firstn 10 (skipn 9 (Chat.messages sampleChat20)))
     = map sampleText (seq 9 10)
  /\ generateSummary (guardedUtils workingCaps)
       (firstn 10 (skipn 9 (Chat.messages sampleChat20)))
       (utils (initialState [sampleChat20]))
     = (Ok (Chunk.make "A summary." (Some [1%R]) None),
        mkUState [("A summary."%string, [1%R])] tt)
  /\ summarizeIfDue (guardedUtils workingCaps) workingServices sampleChat20
       (initialState [sampleChat20])
     = (Ok (Chat.make 1 7 (sampleMessages 20)
              [Summary.make "A summary." (Some [1%R])
                 (MessageRange.make 9 19)]
              "New Chat"),
        mkState
          (mkStore
             [Chat.make 1 7 (sampleMessages 20)
                [Summary.make "A summary." (Some [1%R])
                   (MessageRange.make 9 19)]
                "New Chat"]
             [])
          true [] None (mkUState [("A summary."%string, [1%R])] tt)).
Proof.
  assert (H : List.length (Chat.messages sampleChat20) = 20) by reflexivity.
  assert (G : generateSummary (guardedUtils workingCaps)
                (firstn 10 (skipn 9 (Chat.messages sampleChat20)))
                (utils (initialState [sampleChat20]))
              = (Ok (Chunk.make "A summary." (Some [1%R]) None),
                 mkUState [("A summary."%string, [1%R])] tt))
    by reflexivity.
  split; [exact H|]. split; [reflexivity|]. split; [exact G|].
  destruct C5_summary_trigger_and_window as [_ [_ [_ [_ [_ T]]]]].
  specialize (T unit (guardedUtils workingCaps) workingServices sampleChat20
                (initialState [sampleChat20]) H).
  destruct T as [_ [_ T]]. cbv zeta in T. rewrite G in T. exact (proj1 T).
Defined.

Lemma length_append (a b : string) :
  String.length (a ++ b) = String.length a + String.length b.
Proof. induction a as [|c a IH]; cbn; [reflexivity|now rewrite IH]. Qed.

Lemma length_substring_prefix (n : nat) : forall s,
  String.length (substring 0 n s) = Nat.min n (String.length s).
Proof.
  induction n as [|n IH]; intros [|c s]; cbn; try reflexivity.
  now rewrite IH.
Qed.

Lemma truncateTitle_length (suggestedTitle : string) :
  String.length (truncateTitle suggestedTitle) <= 50.
Proof.
  unfold truncateTitle.
  destruct (Nat.ltb_spec 50 (String.length suggestedTitle)) as [L|L]; [|exact L].
  rewrite length_append, length_substring_prefix. cbn [ellipsis String.length]. lia.
Qed.

Lemma fallbackTitle_length (message : string) :
  String.length (fallbackTitle message) <= 30.
Proof.
  unfold fallbackTitle.
  destruct (Nat.ltb_spec 30 (String.length message)) as [L|L]; [|exact L].
  rewrite length_append, length_substring_prefix. cbn [ellipsis String.length]. lia.
Qed.

(** C7, as stated, fails: when the title generation fails on a user
    message of 29 characters, the title stored is the message itself, which
    is neither cut to 27 characters nor followed by an ellipsis. *)
Lemma C7_short_message_kept_whole :
  String.length shortMessage = 29
  /\ fst (generateTitle brokenGeneration newChat shortMessage "Sure."
            (initialState [newChat]))
     = Ok (Chat.setTitle newChat shortMessage)
  /\ shortMessage <> (substring 0 27 shortMessage ++ ellipsis)%string.
Proof. split; [reflexivity|]. split; [reflexivity|discriminate]. Qed.

(** C7, amended.  A generated title of more than 50 characters is stored as
    its first 47 characters followed by an ellipsis, and a shorter one as
    it is; when the generation of the title fails, the title stored is the
    user message itself when it has at most 30 characters, and its first 27
    characters followed by an ellipsis when it is longer; in every case
    the title stored has at most 50 characters. *)
Theorem C7_stored_title :
  forall (Ext : Type) (svc : Services Ext) (chat : Chat.t)
         (message aiReply : string) (s : State Ext),
  exists chat' s',
    generateTitle svc chat message aiReply s = (Ok chat', s')
    /\ match
         callServiceResult (titleContent svc (titlePrompt message aiReply)) s
       with
       | (Ok titleText, _) =>
           let suggestedTitle := trim titleText in
           Chat.title chat'
           = if 50 <? String.length suggestedTitle
             then (substring 0 47 suggestedTitle ++ ellipsis)%string
             else suggestedTitle
       | (Throw _, _) =>
           Chat.title chat'
           = if 30 <? String.length message
             then (substring 0 27 message ++ ellipsis)%string
             else message
       end
    /\ String.length (Chat.title chat') <= 50.
Proof.
  intros Ext svc chat message aiReply s.
  unfold generateTitle, tryCatch, bind, ret.
  destruct (callServiceResult _ s) as [[titleText|e] s1].
  - eexists _, _. split; [reflexivity|]. split; [reflexivity|].
    cbn [Chat.title Chat.setTitle]. apply truncateTitle_length.
  - eexists _, _. split; [reflexivity|]. split; [reflexivity|].
    cbn [Chat.title Chat.setTitle].
    pose proof (fallbackTitle_length message). lia.
Qed.

Lemma removelast_len {A} (l : list A) :
  List.length (removelast l) = List.length l - 1.
Proof.
  induction l as [|x l IH]; [reflexivity|].
  destruct l as [|y l]; [reflexivity|].
  cbn [removelast List.length] in *. rewrite IH. lia.
Qed.

Lemma firstn_removelast {A} (l : list A) (k : nat) :
  k < List.length l -> firstn k (removelast l) = firstn k l.
Proof.
  revert k. induction l as [|x l IH]; intros k Hk; [cbn in Hk; lia|].
  destruct l as [|y l]; [destruct k; [reflexivity|cbn in Hk; lia]|].
  destruct k as [|k]; [reflexivity|].
  cbn [removelast firstn]. f_equal. apply IH. cbn in *. lia.
Qed.

Lemma firstn_succ_nth {A} (l : list A) (k : nat) (x : A) :
  nth_error l k = Some x -> firstn (S k) l = firstn k l ++ [x].
Proof.
  revert k. induction l as [|y l IH]; intros [|k] H; cbn in *; try discriminate.
  - now injection H as ->.
  - f_equal. apply IH, H.
Qed.

(** C6.  [getRelevantMessages] builds the context as the claim says it:
    empty below 6 messages; otherwise a retrieval with [topK] 3 over its
    candidates, and, when there is none, a retrieval with [topK] 1 over
    the summaries.  Its candidates are not those of the claim.  With [n]
    messages, the one just appended included, the claim takes the embedded
    messages older than the 5 before the appended one, at the positions
    below [n - 6]; the code takes those at the positions below [n - 5]:
    the message at position [n - 6], which is the oldest of the five
    messages of the history sent to the model, is a candidate too when it
    carries an embedding.  With six embedded messages the code retrieves
    the first message, where the context of the claim is empty. *)
Theorem C6_retrieval_window_diverges :
  (forall (Ext : Type) (eu : Utils Ext) (chat : Chat.t) (query : string)
          (s : State Ext),
      getRelevantMessages eu chat query s
      = contextFrom eu (olderEmbeddedMessages chat) chat query s)
  /\ (forall (chat : Chat.t),
         6 <= List.length (Chat.messages chat) ->
         exists msg,
           nth_error (Chat.messages chat)
             (List.length (Chat.messages chat) - 6) = Some msg
           /\ In msg (JsArray.slice (Chat.messages chat) (-6) (-1))
           /\ olderEmbeddedMessages chat
              = specCandidates chat
                  ++ (if hasEmbedding (Message.embedding msg) then [msg]
                      else []))
  /\ specCandidates sixMessageChat = []
  /\ olderEmbeddedMessages sixMessageChat
     = [Message.make user "doc-0" (Some [1%R]) []]
  /\ fst (getRelevantMessages firstCandidates sixMessageChat "query"
            (initialState [sixMessageChat]))
     = Ok "doc-0"%string
  /\ fst (conversationContext firstCandidates sixMessageChat "query"
            (initialState [sixMessageChat]))
     = Ok EmptyString.
Proof.
  split; [|split; [|repeat split; reflexivity]].
  - intros Ext eu chat query s.
    unfold getRelevantMessages, contextFrom.
    change (-5)%Z with (- Z.of_nat 5)%Z. rewrite slice_drop_last by lia.
    fold (olderEmbeddedMessages chat).
    destruct (Nat.leb_spec (List.length (Chat.messages chat)) 5) as [L|L];
      destruct (Nat.ltb_spec (List.length (Chat.messages chat)) 6) as [L'|L'];
      try lia; [reflexivity|].
    unfold tryCatch at 1.
    destruct (olderEmbeddedMessages chat) as [|m older] eqn:Older.
    + cbn [List.length Nat.eqb]. unfold getRelevantSummaries.
      destruct (Chat.summaries chat) as [|sm sms] eqn:Sums.
      * reflexivity.
      * cbn [List.length Nat.eqb]. unfold retrieveContext, tryCatch.
        destruct (bind _ _ s) as [[r|e] s1]; reflexivity.
    + cbn [List.length Nat.eqb]. unfold retrieveContext, tryCatch.
      destruct (bind _ _ s) as [[r|e] s1]; reflexivity.
  - intros chat Hn.
    set (n := List.length (Chat.messages chat)) in *.
    destruct (nth_error (Chat.messages chat) (n - 6)) as [msg|] eqn:E.
    2:{ apply nth_error_None in E. fold n in E. lia. }
    exists msg. split; [reflexivity|]. split.
    + change (-6)%Z with (- Z.of_nat 6)%Z.
      change (-1)%Z with (- Z.of_nat 1)%Z.
      rewrite slice_window by (fold n; lia). fold n.
      apply (nth_error_In _ 0).
      rewrite nth_error_window by lia. rewrite Nat.add_0_r. exact E.
    + unfold olderEmbeddedMessages, specCandidates, earlierMessages.
      fold n.
      assert (Hr : List.length (removelast (Chat.messages chat)) = n - 1)
        by apply removelast_len.
      rewrite Hr. replace (n - 1 - 5) with (n - 6) by lia.
      rewrite firstn_removelast by (fold n; lia).
      replace (n - 5) with (S (n - 6)) by lia.
      rewrite (firstn_succ_nth _ _ E), filter_app. cbn [filter].
      destruct (hasEmbedding (Message.embedding msg)); reflexivity.
Qed.

(** ** The program logic *)

Section Logic.
Context {S : Type}.
Implicit Types (P : S -> Prop).

Lemma hoare_ret {A} P (a : A) (Q : A -> S -> Prop) E :
  (forall s, P s -> Q a s) -> hoare P (ret a) Q E.
Proof. intros H s Hs. cbn. auto. Qed.

Lemma hoare_throw {A} P e (Q : A -> S -> Prop) (E : Error -> S -> Prop) :
  (forall s, P s -> E e s) -> hoare P (throw e) Q E.
Proof. intros H s Hs. cbn. auto. Qed.

Lemma hoare_bind {A B} P (m : M S A) (k : A -> M S B) R Q E :
  hoare P m R E -> (forall a, hoare (R a) (k a) Q E) ->
  hoare P (bind m k) Q E.
Proof.
  intros Hm Hk s Hs. unfold bind. specialize (Hm s Hs).
  destruct (m s) as [[a|e] s1]; [apply Hk, Hm|exact Hm].
Qed.

Lemma hoare_tryCatch {A} P (body : M S A) handler Q E' E :
  hoare P body Q E' -> (forall e, hoare (E' e) (handler e) Q E) ->
  hoare P (tryCatch body handler) Q E.
Proof.
  intros Hb Hh s Hs. unfold tryCatch. specialize (Hb s Hs).
  destruct (body s) as [[a|e] s1]; [exact Hb|apply Hh, Hb].
Qed.

Lemma hoare_pure {A} (F : Prop) P (m : M S A) (Q : A -> S -> Prop) E :
  (F -> hoare P m Q E) -> hoare (fun s => F /\ P s) m Q E.
Proof. intros H s [HF Hs]. exact (H HF s Hs). Qed.

Lemma hoare_weaken {A} P P' (m : M S A) (Q Q' : A -> S -> Prop)
    (E E' : Error -> S -> Prop) :
  hoare P' m Q' E' ->
  (forall s, P s -> P' s) ->
  (forall a s, Q' a s -> Q a s) ->
  (forall e s, E' e s -> E e s) ->
  hoare P m Q E.
Proof.
  intros H HP HQ HE s Hs. specialize (H s (HP s Hs)).
  destruct (m s) as [[a|e] s1]; auto.
Qed.
End Logic.

Create HintDb keeps.

Section KeepsStore.
Context {Ext : Type} (eu : Utils Ext) (svc : Services Ext).

Lemma keeps_ret {A} (a : A) : keepsStore (@ret (State Ext) A a).
Proof. intros s. reflexivity. Qed.

Lemma keeps_throw {A} e : keepsStore (@throw (State Ext) A e).
Proof. intros s. reflexivity. Qed.

Lemma keeps_bind {A B} (m : M (State Ext) A) (k : A -> M (State Ext) B) :
  keepsStore m -> (forall a, keepsStore (k a)) -> keepsStore (bind m k).
Proof.
  intros Hm Hk s. unfold bind. specialize (Hm s).
  destruct (m s) as [[a|e] s1]; cbn in *; [rewrite Hk|]; exact Hm.
Qed.

Lemma keeps_tryCatch {A} (body : M (State Ext) A) handler :
  keepsStore body -> (forall e, keepsStore (handler e)) ->
  keepsStore (tryCatch body handler).
Proof.
  intros Hb Hh s. unfold tryCatch. specialize (Hb s).
  destruct (body s) as [[a|e] s1]; cbn in *; [|rewrite Hh]; exact Hb.
Qed.

Lemma keeps_gets {A} (f : State Ext -> A) : keepsStore (gets f).
Proof. intros s. reflexivity. Qed.

Lemma keeps_ofResult {A} (r : Result A) : keepsStore (@ofResult (State Ext) A r).
Proof. intros s. reflexivity. Qed.

Lemma keeps_liftU {A} (m : M (UState Ext) A) : keepsStore (liftU m).
Proof. intros s. unfold liftU. destruct (m (utils s)). reflexivity. Qed.

Lemma keeps_callService {A} (f : Ext -> A * Ext) : keepsStore (callService f).
Proof. intros s. unfold callService. destruct (f _). reflexivity. Qed.

Lemma keeps_emit userId ev : keepsStore (@emit Ext userId ev).
Proof. intros s. unfold emit, modify. cbn. destruct (io s); reflexivity. Qed.

Lemma keeps_res_json code b : keepsStore (@res_json Ext code b).
Proof. intros s. reflexivity. Qed.

#[local] Hint Resolve keeps_ret keeps_throw keeps_gets keeps_ofResult keeps_liftU
  keeps_callService keeps_emit keeps_res_json : keeps.

Ltac keeps :=
  repeat first
    [ progress auto with keeps
    | apply keeps_bind; [|intros ?]
    | apply keeps_tryCatch; [|intros ?]
    | match goal with
      | |- keepsStore (if ?b then _ else _) => destruct b
      | |- keepsStore (match ?x with _ => _ end) => destruct x
      end ].

Lemma keeps_callServiceResult {A} (f : Ext -> Result A * Ext) :
  keepsStore (callServiceResult f).
Proof. unfold callServiceResult. keeps. Qed.

Lemma keeps_dbCall : keepsStore (dbCall svc).
Proof. unfold dbCall. keeps. Qed.

#[local] Hint Resolve keeps_callServiceResult keeps_dbCall : keeps.

Lemma keeps_File_find ids owner : keepsStore (File_find svc ids owner).
Proof. unfold File_find. keeps. Qed.

Lemma keeps_Chat_findOne chatId userId :
  keepsStore (Chat_findOne svc chatId userId).
Proof. unfold Chat_findOne. keeps. Qed.

#[local] Hint Resolve keeps_File_find keeps_Chat_findOne : keeps.

Lemma keeps_gatherFileContext message refs :
  keepsStore (gatherFileContext eu svc message refs).
Proof. unfold gatherFileContext. keeps. Qed.

Lemma keeps_getRelevantSummaries chat query :
  keepsStore (getRelevantSummaries eu chat query).
Proof. unfold getRelevantSummaries. keeps. Qed.

#[local] Hint Resolve keeps_getRelevantSummaries : keeps.

Lemma keeps_getRelevantMessages chat query :
  keepsStore (getRelevantMessages eu chat query).
Proof. unfold getRelevantMessages. keeps. Qed.

Lemma keeps_consumeStream userId chatId stream : forall aiReply,
  keepsStore (@consumeStream Ext userId chatId stream aiReply).
Proof.
  induction stream as [|[chunkText|e] rest IH]; intros aiReply;
    cbn [consumeStream]; keeps.
Qed.

Lemma keeps_generateTitle chat message aiReply :
  keepsStore (generateTitle svc chat message aiReply).
Proof. unfold generateTitle. keeps. Qed.

End KeepsStore.

Section Persistence.
Context {Ext : Type} (eu : Utils Ext) (svc : Services Ext).
Variables (chatId userId : nat).

Lemma keeps_hoare {A} (m : M (State Ext) A) (J : Store -> Prop) :
  keepsStore m ->
  hoare (fun s => J (store s)) m (fun _ s => J (store s))
    (fun _ s => J (store s)).
Proof.
  intros K s Hs. specialize (K s).
  destruct (m s) as [[a|e] s1]; cbn in K; now rewrite K.
Qed.

Lemma Chat_save_hoare (c : Chat.t) (P P' : list Message.t -> Prop) :
  Chat._id c = chatId -> Chat.userId c = userId -> P' (Chat.messages c) ->
  hoare (stateHas chatId userId P) (Chat_save svc c) (fun _ => stateHas chatId userId P') (fun _ => stateHas chatId userId P).
Proof.
  intros Hid Hu HP' s [c0 [Hc0 HP]]. unfold Chat_save, bind.
  pose proof (keeps_dbCall svc s) as K.
  destruct (dbCall svc s) as [[[]|e] s1]; cbn [snd] in K.
  - cbn. exists c. split; [|exact HP'].
    rewrite K. eapply findChat_saveChat; eassumption.
  - exists c0. rewrite K. auto.
Qed.

Lemma summarizeIfDue_hoare (c : Chat.t) (P : list Message.t -> Prop) :
  Chat._id c = chatId -> Chat.userId c = userId -> P (Chat.messages c) ->
  hoare (stateHas chatId userId P) (summarizeIfDue eu svc c)
    (fun c2 s =>
       (Chat._id c2 = chatId /\ Chat.userId c2 = userId
        /\ Chat.messages c2 = Chat.messages c)
       /\ storeHas chatId userId P (store s))
    (fun _ => stateHas chatId userId P).
Proof.
  intros Hid Hu HP. unfold summarizeIfDue.
  destruct (shouldSummarize _).
  - eapply hoare_bind; [apply (@keeps_hoare _ _ (storeHas chatId userId P)), keeps_liftU|].
    intros summary. cbv zeta.
    eapply hoare_bind; [apply (@Chat_save_hoare _ P P); assumption|].
    intros ?. apply hoare_ret. intros s Hs. auto.
  - apply hoare_ret. intros s Hs. auto.
Qed.

Lemma titleStep_hoare (c : Chat.t) (first : bool) message aiReply
    (J : Store -> Prop) :
  hoare (fun s => J (store s))
    (if first then generateTitle svc c message aiReply else ret c)
    (fun c4 s =>
       (Chat._id c4 = Chat._id c /\ Chat.userId c4 = Chat.userId c
        /\ Chat.messages c4 = Chat.messages c)
       /\ J (store s))
    (fun _ s => J (store s)).
Proof.
  destruct first; [|apply hoare_ret; auto].
  unfold generateTitle.
  eapply hoare_tryCatch.
  - eapply hoare_bind;
      [apply (@keeps_hoare _ _ J), keeps_callServiceResult|].
    intros titleText. apply hoare_ret. cbn. auto.
  - intros e. apply hoare_ret. cbn. auto.
Qed.

Lemma generateReply_hoare (req : Request.t) (ctx : Context)
    (P P' : list Message.t -> Prop) :
  Chat._id (chat ctx) = chatId -> Chat.userId (chat ctx) = userId ->
  P (Chat.messages (chat ctx)) ->
  (forall msg, P' (Chat.messages (chat ctx) ++ [msg])) ->
  hoare (stateHas chatId userId P) (generateReply eu svc req ctx) (fun _ => stateHas chatId userId P')
    (fun _ => stateHas chatId userId P).
Proof.
  intros Hid Hu HP HP'. unfold generateReply.
  set (J := storeHas chatId userId P).
  eapply hoare_bind; [apply (@keeps_hoare _ _ J), keeps_emit|]. intros ?.
  eapply hoare_bind; [apply summarizeIfDue_hoare; assumption|].
  intros chat2. apply hoare_pure. intros [Hid2 [Hu2 Hm2]].
  eapply hoare_bind; [apply (@keeps_hoare _ _ J), keeps_gatherFileContext|].
  intros fileContext.
  eapply hoare_bind; [apply (@keeps_hoare _ _ J), keeps_getRelevantMessages|].
  intros relevantMessageContext. cbv zeta.
  eapply hoare_bind; [apply (@keeps_hoare _ _ J), keeps_callServiceResult|].
  intros stream.
  eapply hoare_bind; [apply (@keeps_hoare _ _ J), keeps_consumeStream|].
  intros aiReply.
  eapply hoare_bind; [apply (@keeps_hoare _ _ J), keeps_liftU|].
  intros aiReplyEmbedding.
  eapply hoare_bind; [apply (titleStep_hoare _ _ _ _ J)|].
  intros chat4. apply hoare_pure. cbn [Chat.pushMessage Chat._id Chat.userId Chat.messages].
  intros [Hid4 [Hu4 Hm4]].
  eapply hoare_bind.
  - apply (@Chat_save_hoare chat4 P P'); try congruence.
    rewrite Hm4, Hm2. apply HP'.
  - intros ? s Hs. unfold bind, emit, res_json, modify. cbn.
    destruct (io s); exact Hs.
Qed.
Lemma Chat_findOne_hoare (J : Store -> Prop) :
  hoare (fun s => J (store s)) (Chat_findOne svc chatId userId)
    (fun found s => found = findChat chatId userId (store s) /\ J (store s))
    (fun _ s => J (store s)).
Proof.
  intros s Hs. unfold Chat_findOne, bind.
  pose proof (keeps_dbCall svc s) as K.
  destruct (dbCall svc s) as [[[]|e] s1]; cbn [snd] in K; cbn; rewrite K; auto.
Qed.

Lemma Chat_save_found (c0 c : Chat.t) :
  Chat._id c = chatId -> Chat.userId c = userId ->
  hoare (fun s => findChat chatId userId (store s) = Some c0)
    (Chat_save svc c)
    (fun _ s => findChat chatId userId (store s) = Some c)
    (fun _ s => findChat chatId userId (store s) = Some c0).
Proof.
  intros Hid Hu s Hs. unfold Chat_save, bind.
  pose proof (keeps_dbCall svc s) as K.
  destruct (dbCall svc s) as [[[]|e] s1]; cbn [snd] in K; cbn; rewrite K.
  - eapply findChat_saveChat; eassumption.
  - exact Hs.
Qed.

End Persistence.

Section RequestPersistence.
Context {Ext : Type} (eu : Utils Ext) (svc : Services Ext) (req : Request.t).

Lemma resolveFileReferences_keeps :
  keepsStore
    (match Request.fileIds req with
     | Some fileIds =>
         if 0 <? List.length fileIds then
           files <- File_find svc fileIds (Some (Request.user req)) ;;
           ret (map (fun file =>
                       FileRef.make (Some (File._id file))
                         (File.fileName file))
                  files)
         else ret []
     | None => ret []
     end)%js.
Proof.
  destruct (Request.fileIds req) as [fileIds|]; [|apply keeps_ret].
  destruct (0 <? List.length fileIds); [|apply keeps_ret].
  apply keeps_bind; [apply keeps_File_find|intros ?; apply keeps_ret].
Qed.

Lemma appendUserMessage_found (chat0 : Chat.t) :
  hoare
    (fun s =>
       findChat (Request.chatId req) (Request.user req) (store s) = Some chat0)
    (appendUserMessage eu svc req)
    (fun r s =>
       exists ctx e,
         r = Some ctx
         /\ chat ctx
            = Chat.pushMessage chat0 (userMessage req e (fileReferences ctx))
         /\ findChat (Request.chatId req) (Request.user req) (store s)
            = Some (chat ctx))
    (fun _ s =>
       findChat (Request.chatId req) (Request.user req) (store s) = Some chat0).
Proof.
  unfold appendUserMessage.
  set (J := fun st =>
              findChat (Request.chatId req) (Request.user req) st = Some chat0).
  eapply hoare_bind; [apply (Chat_findOne_hoare svc _ _ J)|].
  intros found s [Hf Hs]. unfold J in Hs. rewrite Hs in Hf. subst found.
  destruct (@findChat_ids _ _ _ _ Hs) as [Hid Hu].
  revert s Hs.
  eapply hoare_bind;
    [apply (@keeps_hoare _ _ _ J), resolveFileReferences_keeps|].
  intros refs.
  eapply hoare_bind; [apply (@keeps_hoare _ _ _ J), keeps_liftU|].
  intros messageEmbedding. cbv zeta.
  eapply hoare_bind.
  - apply Chat_save_found; assumption.
  - intros ?. apply hoare_ret. intros s Hs.
    eexists _, messageEmbedding. split; [reflexivity|]. cbn. auto.
Qed.

Lemma appendUserMessage_missing :
  hoare
    (fun s => findChat (Request.chatId req) (Request.user req) (store s) = None)
    (appendUserMessage eu svc req)
    (fun r _ => r = None)
    (fun _ _ => True).
Proof.
  unfold appendUserMessage.
  set (J := fun st =>
              findChat (Request.chatId req) (Request.user req) st = None).
  intros s Hs. unfold bind.
  pose proof (Chat_findOne_hoare svc (Request.chatId req) (Request.user req)
                J s Hs) as H.
  destruct (Chat_findOne svc _ _ s) as [[found|e] s1]; [|exact I].
  destruct H as [Hf Hs1]. unfold J in Hs1. rewrite Hs1 in Hf. subst found.
  reflexivity.
Qed.

End RequestPersistence.



(* ================================================================== *)
(** * Further properties *)

(** ** The cache as a memo table *)

Lemma get_set_new {V} k (v : V) m :
  JsMap.get k m = None -> JsMap.get k (JsMap.set k v m) = Some v.
Proof.
  induction m as [|[k' v'] m IH]; cbn.
  - now rewrite String.eqb_refl.
  - destruct (String.eqb k k') eqn:E; [discriminate|].
    intros H. cbn. rewrite E. apply IH, H.
Qed.

Lemma get_cacheAfterStore k v cache :
  JsMap.get k cache = None ->
  JsMap.get k (cacheAfterStore k v cache) = Some v.
Proof.
  intros H. unfold cacheAfterStore. rewrite evict_eq.
  destruct (capacity <? JsMap.size (JsMap.set k v cache)) eqn:L;
    [|apply get_set_new, H].
  destruct cache as [|[k0 v0] rest].
  - cbn in L. discriminate.
  - cbn in H |- *. destruct (String.eqb k k0); [discriminate|].
    cbn. apply get_set_new, H.
Qed.



(** ** The development fallback *)

Section Development.
Context {Ext : Type} (caps : Capabilities Ext).

Lemma mockEmbedding_run n : forall s,
  exists v s',
    Guarded.mockEmbedding caps n s = (Ok v, s')
    /\ List.length v = n
    /\ embeddingCache s' = embeddingCache s
    /\ ((forall x, (0 <= fst (random caps x) < 1)%R) ->
        Forall (fun r => (-1 <= r < 1)%R) v).
Proof.
  induction n as [|n IH]; intros s.
  - exists [], s. cbn. repeat split; auto.
  - cbn [Guarded.mockEmbedding]. unfold bind, callExt, ret.
    pose proof (fun H : forall x, (0 <= fst (random caps x) < 1)%R => H (ext s)) as Hr.
    destruct (random caps (ext s)) as [r x].
    destruct (IH (mkUState (embeddingCache s) x)) as [v [s' [E [L [C F]]]]].
    rewrite E. exists ((r * 2 - 1)%R :: v), s'. cbn.
    split; [reflexivity|]. split; [now rewrite L|]. split; [exact C|].
    intros H. constructor; [|apply F, H]. specialize (Hr H). cbn in Hr. lra.
Qed.

(** X2.  In development mode the guarded [generateEmbedding] never raises.
    When the text is not cached and the model fails on every attempt, it
    answers 768 numbers, each in [-1, 1) when [Math.random] is in [0, 1),
    and leaves the cache as it was: the fallback vector is not stored. *)
Theorem development_fallback :
  forall (text : string) (s : UState Ext),
    development caps = true ->
    exists v s',
      Guarded.generateEmbedding caps text s = (Ok v, s')
      /\ (JsMap.get (cacheKeyOf text) (embeddingCache s) = None ->
          (forall a s1,
              Guarded.withRetry caps (callExt (embedContent caps text))
                (Some 2) s <> (Ok a, s1)) ->
          List.length v = 768
          /\ embeddingCache s' = embeddingCache s
          /\ ((forall x, (0 <= fst (random caps x) < 1)%R) ->
              Forall (fun r => (-1 <= r < 1)%R) v)).
Proof.
  intros text s Hdev.
  unfold Guarded.generateEmbedding, tryCatch, bind, gets, ret, throw.
  fold (cacheKeyOf text). rewrite Hdev.
  destruct (JsMap.get (cacheKeyOf text) (embeddingCache s)) as [v0|] eqn:G.
  - exists v0, s. split; [reflexivity|discriminate].
  - pose proof (retryLoop_cache (embedContent caps text) 2 s) as Hc.
    unfold Guarded.withRetry in *.
    destruct (Guarded.retryLoop 2 _ s) as [[v1|e] s1] eqn:R; cbn [snd] in Hc.
    + rewrite storeInCache_run. eexists _, _. split; [reflexivity|].
      intros _ Hfail. exfalso. exact (Hfail v1 s1 eq_refl).
    + destruct (mockEmbedding_run 768 s1) as [v [s' [E [L [C F]]]]].
      exists v, s'. split; [exact E|]. intros _ _.
      split; [exact L|]. split; [now rewrite C|exact F].
Qed.
End Development.

Lemma development_fallback_witness :
  development devCaps = true
  /\ exists v s',
       Guarded.generateEmbedding devCaps "hello" emptyState = (Ok v, s')
       /\ List.length v = 768
       /\ embeddingCache s' = embeddingCache emptyState
       /\ Forall (fun r => (-1 <= r < 1)%R) v.
Proof.
  split; [reflexivity|].
  destruct (@development_fallback unit devCaps "hello"%string emptyState
              eq_refl) as [v [s' [E H]]].
  exists v, s'. split; [exact E|].
  assert (G : JsMap.get (cacheKeyOf "hello") (embeddingCache emptyState)
              = None) by reflexivity.
  assert (F : forall a s1,
             Guarded.withRetry devCaps
               (callExt (embedContent devCaps "hello")) (Some 2) emptyState
             <> (Ok a, s1)) by (intros a s1; discriminate).
  destruct (H G F) as [L [C R]].
  split; [exact L|]. split; [exact C|].
  apply R. intros x. cbn. lra.
Defined.

(** ** The ranking of the retriever *)

Lemma scoreGe_trans a b c : scoreGe a b -> scoreGe b c -> scoreGe a c.
Proof.
  unfold scoreGe, geFin.
  destruct (ScoredChunk.score a), (ScoredChunk.score b),
    (ScoredChunk.score c); try tauto. lra.
Qed.

Lemma sorted_split (l1 l2 : list ScoredChunk.t) :
  Sorted scoreGe (l1 ++ l2) ->
  forall a b, In a l1 -> In b l2 -> scoreGe a b.
Proof.
  intros Hs. apply Sorted_StronglySorted in Hs;
    [|intros x y z; apply scoreGe_trans].
  induction l1 as [|x l1 IH]; intros a b Ha Hb; [contradiction|].
  cbn in Hs. inversion Hs as [|? ? Hs' Hall]; subst.
  destruct Ha as [<-|Ha].
  - rewrite Forall_forall in Hall. apply Hall, in_or_app. now right.
  - apply IH; assumption.
Qed.

(** X3.  The ranking of the retriever, [sort] by descending score then
    [slice(0, count)], on scored chunks none of whose scores is NaN or
    infinite: with the chunks it leaves out, its result is a rearrangement
    of the scored chunks, it has [count] elements or all of them when they
    are fewer, it is in descending order of score, and no chunk left out
    has a higher score than one returned. *)
Theorem ranking_returns_the_best :
  forall (scored : list ScoredChunk.t) (count : nat),
    Forall finiteScore scored ->
    let out :=
      JsArray.slice (JsArray.sort byScoreDesc scored) 0 (Z.of_nat count) in
    exists rest,
      Permutation (out ++ rest) scored
      /\ List.length out = Nat.min count (List.length scored)
      /\ Sorted scoreGe out
      /\ forall a b, In a out -> In b rest -> scoreGe a b.
Proof.
  intros scored count Hfin out. subst out. rewrite slice_prefix.
  set (sorted := JsArray.sort byScoreDesc scored).
  assert (Hsorted : Sorted scoreGe sorted) by (apply sort_sorted, Hfin).
  exists (skipn count sorted). split; [|split; [|split]].
  - rewrite firstn_skipn. apply sort_perm.
  - rewrite length_firstn. f_equal. unfold sorted.
    apply Permutation_length, sort_perm.
  - apply firstn_sorted, Hsorted.
  - apply sorted_split. rewrite firstn_skipn. exact Hsorted.
Qed.

Lemma ranking_returns_the_best_witness :
  let scored := [scoredSample "a" 1; scoredSample "b" 3; scoredSample "c" 3;
                 scoredSample "d" 2] in
  Forall finiteScore scored
  /\ exists rest,
       Permutation
         (JsArray.slice (JsArray.sort byScoreDesc scored) 0 (Z.of_nat 2)
            ++ rest)
         scored
       /\ List.length
            (JsArray.slice (JsArray.sort byScoreDesc scored) 0 (Z.of_nat 2))
          = 2.
Proof.
  intros scored.
  assert (H : Forall finiteScore scored)
    by (repeat constructor; eexists; reflexivity).
  split; [exact H|].
  destruct (@ranking_returns_the_best scored 2 H) as [rest [P [L _]]].
  exists rest. split; [exact P|exact L].
Defined.

(** ** The score *)

(** X4.  In the guarded copy the length bonus of a chunk lies between 0
    and 0.3 and is 0.3 from 2000 characters on; on a degenerate pair of
    vectors (a missing or empty embedding, another length than the query,
    a vector of zeros) the similarity is 0 and the score of the chunk is
    its length bonus alone. *)
Theorem degenerate_score_is_length_bonus :
  forall (queryEmbedding : Embedding) (chunk : Chunk.t),
  exists bonus : R,
    lengthBonus (Chunk.text chunk) = Fin bonus
    /\ (0 <= bonus <= 3 / 10)%R
    /\ (2000 <= String.length (Chunk.text chunk) -> bonus = (3 / 10)%R)
    /\ (degenerate (Some queryEmbedding) (Chunk.embedding chunk) ->
        Guarded.cosineSimilarity (Some queryEmbedding)
          (Chunk.embedding chunk) = Fin 0
        /\ ScoredChunk.score (Guarded.scoreChunk queryEmbedding chunk)
           = Fin bonus).
Proof.
  intros q c.
  exists (Rmin 1 (INR (String.length (Chunk.text c)) / 2000) * (3 / 10))%R.
  split; [apply lengthBonus_fin|].
  pose proof (pos_INR (String.length (Chunk.text c))) as Hpos.
  assert (Hq : (0 <= INR (String.length (Chunk.text c)) / 2000)%R)
    by (apply Rmult_le_pos; lra).
  split; [|split].
  - pose proof (Rmin_l 1 (INR (String.length (Chunk.text c)) / 2000)).
    assert (0 <= Rmin 1 (INR (String.length (Chunk.text c)) / 2000))%R
      by (apply Rmin_glb; lra).
    lra.
  - intros Hlen. apply le_INR in Hlen.
    assert (H2000 : INR 2000 = 2000%R)
      by (rewrite INR_IZR_INZ; reflexivity).
    rewrite H2000 in Hlen.
    rewrite Rmin_left; [lra|].
    apply Rmult_le_reg_r with 2000%R; [lra|].
    unfold Rdiv. rewrite Rmult_assoc, Rinv_l by lra. lra.
  - intros D. pose proof (cosineSimilarity_degenerate _ _ D) as E.
    split; [exact E|].
    unfold Guarded.scoreChunk. cbn [ScoredChunk.score].
    rewrite E, lengthBonus_fin. cbn [mul add]. f_equal. lra.
Qed.

Lemma degenerate_score_is_length_bonus_witness :
  degenerate (Some [1%R]) (Some [1%R; 1%R])
  /\ exists bonus : R,
       lengthBonus "abc" = Fin bonus
       /\ ScoredChunk.score
            (Guarded.scoreChunk [1%R]
               (Chunk.make "abc" (Some [1%R; 1%R]) None))
          = Fin bonus.
Proof.
  assert (D : degenerate (Some [1%R]) (Some [1%R; 1%R]))
    by (left; cbn; lia).
  split; [exact D|].
  destruct (degenerate_score_is_length_bonus [1%R]
              (Chunk.make "abc" (Some [1%R; 1%R]) None))
    as [bonus [B [_ [_ H]]]].
  exists bonus. split; [exact B|exact (proj2 (H D))].
Defined.

(** ** The stream *)

Lemma append_empty_r (s : string) : (s ++ EmptyString)%string = s.
Proof. induction s as [|c s IH]; cbn; [reflexivity|now rewrite IH]. Qed.

Lemma append_assoc_string (a b c : string) :
  ((a ++ b) ++ c)%string = (a ++ (b ++ c))%string.
Proof. induction a as [|x a IH]; cbn; [reflexivity|now rewrite IH]. Qed.

Lemma appendAll_truthy (texts : list string) :
  appendAll (filter truthy texts) = appendAll texts.
Proof.
  induction texts as [|t texts IH]; [reflexivity|].
  destruct t; cbn [filter truthy appendAll fold_right] in *;
    fold (appendAll texts); fold (appendAll (filter truthy texts));
    now rewrite IH.
Qed.

Section Stream.
Context {Ext : Type}.

Lemma consumeStream_run userId chatId (texts : list string)
    (tail : list (Result string)) : forall aiReply (s : State Ext),
  exists s1,
    consumeStream userId chatId (map Ok texts ++ tail) aiReply s
    = consumeStream userId chatId tail
        (aiReply ++ appendAll (filter truthy texts))%string s1
    /\ store s1 = store s /\ io s1 = io s /\ response s1 = response s
    /\ utils s1 = utils s
    /\ emitted s1
       = if io s then emitted s ++ chunkEvents userId chatId texts
         else emitted s.
Proof.
  induction texts as [|t texts IH]; intros aiReply s.
  - exists s. unfold chunkEvents. cbn [map app filter appendAll fold_right].
    rewrite append_empty_r.
    repeat (split; [reflexivity|]).
    destruct (io s); rewrite ?app_nil_r; reflexivity.
  - cbn [map app consumeStream]. destruct (truthy t) eqn:T.
    + unfold bind at 1. unfold emit at 1, modify.
      set (s0 := if io s
                 then mkState (store s) (io s)
                        (emitted s ++ [(userId, messageChunk chatId t)])
                        (response s) (utils s)
                 else s).
      destruct (IH (aiReply ++ t)%string s0) as [s1 [E [H1 [H2 [H3 [H4 H5]]]]]].
      exists s1. unfold chunkEvents in *. cbn [filter]. rewrite T.
      cbn [appendAll fold_right map]. fold (appendAll (filter truthy texts)).
      rewrite E, append_assoc_string.
      split; [reflexivity|].
      unfold s0 in *. clear s0 E. destruct (io s) eqn:Hio;
        cbn [store io emitted response utils] in *.
      * rewrite H5, <- app_assoc. auto.
      * rewrite Hio in *. auto.
    + destruct (IH aiReply s) as [s1 [E H]].
      exists s1. unfold chunkEvents in *. cbn [filter]. rewrite T.
      split; [exact E|exact H].
Qed.

(** X6.  The loop over the stream forwards the chunks as they come: when
    the stream ends, the reply is the chunks put end to end, and the chunk
    events emitted, in order, are the non-empty chunks, so that they add up
    to the reply; when the stream breaks, the error is raised after the
    chunks that came before it were emitted.  Nothing else changes. *)
Theorem stream_is_forwarded :
  forall (userId chatId : nat) (texts : list string) (s : State Ext),
    (exists s1,
        consumeStream userId chatId (map Ok texts) EmptyString s
        = (Ok (appendAll texts), s1)
        /\ appendAll (filter truthy texts) = appendAll texts
        /\ store s1 = store s /\ io s1 = io s /\ response s1 = response s
        /\ utils s1 = utils s
        /\ emitted s1
           = if io s then emitted s ++ chunkEvents userId chatId texts
             else emitted s)
    /\ forall (e : Error) (rest : list (Result string)),
         exists s1,
           consumeStream userId chatId (map Ok texts ++ Throw e :: rest)
             EmptyString s
           = (Throw e, s1)
           /\ store s1 = store s /\ io s1 = io s
           /\ response s1 = response s /\ utils s1 = utils s
           /\ emitted s1
              = if io s then emitted s ++ chunkEvents userId chatId texts
                else emitted s.
Proof.
  intros userId chatId texts s. split.
  - destruct (consumeStream_run userId chatId texts [] EmptyString s)
      as [s1 [E [H1 [H2 [H3 [H4 H5]]]]]].
    exists s1. rewrite app_nil_r in E. rewrite E. cbn.
    rewrite appendAll_truthy. auto 10.
  - intros e rest.
    destruct (consumeStream_run userId chatId texts (Throw e :: rest)
                EmptyString s) as [s1 [E [H1 [H2 [H3 [H4 H5]]]]]].
    exists s1. rewrite E. cbn. auto 10.
Qed.
End Stream.

(** ** The two windows on the messages *)

Lemma slice_last_five {A} (l : list A) :
  6 <= List.length l ->
  slice l (-6) (-1) = firstn 5 (skipn (List.length l - 6) l).
Proof.
  intros H. change (-6)%Z with (- Z.of_nat 6)%Z.
  change (-1)%Z with (- Z.of_nat 1)%Z.
  rewrite slice_window by lia. f_equal. lia.
Qed.

(** X7.  With six messages or more, the window of the retrieval
    ([slice(0, -5)], positions below [n - 5]) and the window of the
    history sent to the model ([slice(-6, -1)], positions [n - 6] to
    [n - 2]) share the message at position [n - 6]: when it carries an
    embedding it is a retrieval candidate and a turn of the history. *)
Theorem windows_share_one_message :
  forall (chat : Chat.t),
    6 <= List.length (Chat.messages chat) ->
    let n := List.length (Chat.messages chat) in
    let older := slice (Chat.messages chat) 0 (-5) in
    let recent := slice (Chat.messages chat) (-6) (-1) in
    (forall i, nth_error older i
               = if i <? n - 5 then nth_error (Chat.messages chat) i
                 else None)
    /\ (forall j, nth_error recent j
                  = if j <? 5 then nth_error (Chat.messages chat) (n - 6 + j)
                    else None)
    /\ (forall i j, i < n - 5 -> j < 5 -> i = n - 6 + j ->
                    i = n - 6 /\ j = 0)
    /\ exists msg,
         nth_error older (n - 6) = Some msg
         /\ nth_error recent 0 = Some msg
         /\ (hasEmbedding (Message.embedding msg) = true ->
             In msg (olderEmbeddedMessages chat)
             /\ In (toTurn msg) (map toTurn recent)).
Proof.
  intros chat Hn n older recent.
  assert (Ho : older = firstn (n - 5) (Chat.messages chat)).
  { unfold older. change (-5)%Z with (- Z.of_nat 5)%Z.
    now rewrite slice_drop_last by lia. }
  assert (Hr : recent = firstn 5 (skipn (n - 6) (Chat.messages chat)))
    by (apply slice_last_five, Hn).
  assert (Hi : forall i, nth_error older i
               = if i <? n - 5 then nth_error (Chat.messages chat) i
                 else None).
  { intros i. rewrite Ho, nth_error_firstn. reflexivity. }
  assert (Hj : forall j, nth_error recent j
               = if j <? 5 then nth_error (Chat.messages chat) (n - 6 + j)
                 else None).
  { intros j. rewrite Hr, nth_error_firstn.
    destruct (j <? 5); [apply nth_error_skipn|reflexivity]. }
  split; [exact Hi|]. split; [exact Hj|]. split; [intros; lia|].
  destruct (nth_error (Chat.messages chat) (n - 6)) as [msg|] eqn:E.
  2:{ apply nth_error_None in E. fold n in E. lia. }
  exists msg.
  assert (E1 : nth_error older (n - 6) = Some msg).
  { rewrite Hi. destruct (Nat.ltb_spec (n - 6) (n - 5)); [exact E|lia]. }
  assert (E2 : nth_error recent 0 = Some msg).
  { rewrite Hj. cbn. now rewrite Nat.add_0_r. }
  split; [exact E1|]. split; [exact E2|].
  intros Hemb. split.
  - unfold olderEmbeddedMessages. apply filter_In. split; [|exact Hemb].
    fold n. rewrite <- Ho. eapply nth_error_In, E1.
  - apply in_map. eapply nth_error_In, E2.
Qed.

Lemma windows_share_one_message_witness :
  6 <= List.length (Chat.messages sampleChat20)
  /\ nth_error (slice (Chat.messages sampleChat20) 0 (-5)) 14
     = nth_error (Chat.messages sampleChat20) 14
  /\ nth_error (slice (Chat.messages sampleChat20) (-6) (-1)) 0
     = nth_error (Chat.messages sampleChat20) 14.
Proof.
  assert (H : 6 <= List.length (Chat.messages sampleChat20))
    by (cbn; lia).
  split; [exact H|].
  destruct (windows_share_one_message sampleChat20 H) as [Hi [Hj _]].
  split; [exact (Hi 14)|exact (Hj 0)].
Defined.

(** ** What a request stores *)

Lemma saveChat_saveChat (c c' : Chat.t) (st : Store) :
  Chat._id c = Chat._id c' -> saveChat c' (saveChat c st) = saveChat c' st.
Proof.
  intros E. unfold saveChat. cbn [chats files]. f_equal.
  rewrite map_map. apply map_ext. intros x.
  destruct (Nat.eqb_spec (Chat._id x) (Chat._id c)) as [H|H].
  - rewrite E, Nat.eqb_refl.
    destruct (Nat.eqb_spec (Chat._id x) (Chat._id c')); [reflexivity|congruence].
  - reflexivity.
Qed.

Lemma saveChat_nth (c : Chat.t) (st : Store) (i : nat) (x : Chat.t) :
  nth_error (chats st) i = Some x -> Chat._id x <> Chat._id c ->
  nth_error (chats (saveChat c st)) i = Some x.
Proof.
  intros H N. unfold saveChat. cbn [chats].
  rewrite nth_error_map, H. cbn.
  destruct (Nat.eqb_spec (Chat._id x) (Chat._id c)); [contradiction|reflexivity].
Qed.

Lemma saveChat_length (c : Chat.t) (st : Store) :
  List.length (chats (saveChat c st)) = List.length (chats st).
Proof. unfold saveChat. cbn [chats]. apply length_map. Qed.

Lemma withSummary_ids (c c2 : Chat.t) :
  withSummary c c2 ->
  Chat._id c2 = Chat._id c /\ Chat.userId c2 = Chat.userId c
  /\ Chat.messages c2 = Chat.messages c /\ Chat.title c2 = Chat.title c.
Proof. intros [->|[_ [t [e ->]]]]; cbn; auto. Qed.

Lemma withReply_ids {Ext} (eu : Utils Ext) first aiReply (c2 c4 : Chat.t) :
  withReply eu first aiReply c2 c4 ->
  Chat._id c4 = Chat._id c2 /\ Chat.userId c4 = Chat.userId c2
  /\ Chat.summaries c4 = Chat.summaries c2
  /\ (exists e,
        embeddedBy eu aiReply e
        /\ Chat.messages c4
           = Chat.messages c2 ++ [Message.make ai aiReply (Some e) []])
  /\ (first = false -> Chat.title c4 = Chat.title c2)
  /\ (first = true -> String.length (Chat.title c4) <= 50).
Proof.
  intros [e [He H]]. cbv zeta in H. destruct first.
  - destruct H as [t [-> L]]. cbn. repeat split; eauto; discriminate.
  - subst c4. cbn. repeat split; eauto; discriminate.
Qed.

Lemma consumeStream_ok {Ext} userId chatId (stream : list (Result string)) :
  forall aiReply (s s1 : State Ext) reply,
    consumeStream userId chatId stream aiReply s = (Ok reply, s1) ->
    exists texts,
      stream = map Ok texts /\ reply = (aiReply ++ appendAll texts)%string.
Proof.
  induction stream as [|[chunkText|e] rest IH]; intros aiReply s s1 reply.
  - cbn. intros H. injection H as <- _. exists [].
    split; [reflexivity|]. cbn. now rewrite append_empty_r.
  - cbn [consumeStream]. destruct (truthy chunkText) eqn:T.
    + unfold bind at 1.
      destruct (emit userId (messageChunk chatId chunkText) s)
        as [[[]|e] s0] eqn:Em.
      * intros H. apply IH in H. destruct H as [texts [-> ->]].
        exists (chunkText :: texts). split; [reflexivity|].
        cbn. now rewrite append_assoc_string.
      * unfold emit, modify in Em. discriminate.
    + intros H. apply IH in H. destruct H as [texts [-> ->]].
      exists (chunkText :: texts). split; [reflexivity|].
      destruct chunkText; [reflexivity|discriminate].
  - cbn. discriminate.
Qed.

Section Results.
Context {Ext : Type} (svc : Services Ext).

(** What a step returns, beside what it keeps. *)
Lemma liftU_result {A} (m : M (UState Ext) A) (J : Store -> Prop) :
  hoare (fun s : State Ext => J (store s)) (liftU m)
    (fun a s => (exists u u', m u = (Ok a, u')) /\ J (store s))
    (fun _ s => J (store s)).
Proof.
  intros s Hs. unfold liftU.
  destruct (m (utils s)) as [[a|e] u'] eqn:E; cbn; eauto.
Qed.

Lemma callServiceResult_result {A} (f : Ext -> Result A * Ext)
    (J : Store -> Prop) :
  hoare (fun s : State Ext => J (store s)) (callServiceResult f)
    (fun a s => (exists x x', f x = (Ok a, x')) /\ J (store s))
    (fun _ s => J (store s)).
Proof.
  intros s Hs. unfold callServiceResult, bind, callService, ofResult.
  destruct (f (ext (utils s))) as [[a|e] x'] eqn:E; cbn; eauto.
Qed.

Lemma consumeStream_result userId chatId stream (J : Store -> Prop) :
  hoare (fun s : State Ext => J (store s))
    (consumeStream userId chatId stream EmptyString)
    (fun reply s =>
       (exists texts, stream = map Ok texts /\ reply = appendAll texts)
       /\ J (store s))
    (fun _ s => J (store s)).
Proof.
  intros s Hs.
  pose proof (keeps_consumeStream userId chatId stream EmptyString s) as K.
  destruct (consumeStream userId chatId stream EmptyString s)
    as [[reply|e] s1] eqn:E; cbn [snd] in K; rewrite K; [|exact Hs].
  split; [|exact Hs].
  apply consumeStream_ok in E. exact E.
Qed.

Lemma File_find_ok ids owner (s s1 : State Ext) found :
  File_find svc ids owner s = (Ok found, s1) ->
  found
  = filter (fun f =>
              existsb (Nat.eqb (File._id f)) ids
              && match owner with
                 | Some u => File.userId f =? u
                 | None => true
                 end)
      (files (store s))
  /\ store s1 = store s.
Proof.
  unfold File_find, bind, gets. intros H.
  pose proof (keeps_dbCall svc s) as K.
  destruct (dbCall svc s) as [[[]|e] s']; cbn [snd] in K; [|discriminate].
  injection H as <- <-. rewrite K. auto.
Qed.
End Results.

Section Stores.
Context {Ext : Type} (eu : Utils Ext) (svc : Services Ext).
Variable st0 : Store.

Lemma Chat_save_run (c cPrev : Chat.t) :
  Chat._id cPrev = Chat._id c ->
  hoare (fun s : State Ext => store s = saveChat cPrev st0)
    (Chat_save svc c)
    (fun _ s => store s = saveChat c st0)
    (fun _ s => store s = saveChat cPrev st0).
Proof.
  intros Hid s Hs. unfold Chat_save, bind.
  pose proof (keeps_dbCall svc s) as K.
  destruct (dbCall svc s) as [[[]|e] s1]; cbn [snd] in K; cbn; rewrite K, Hs.
  - apply saveChat_saveChat, Hid.
  - reflexivity.
Qed.

Lemma summarizeIfDue_run (c : Chat.t) :
  hoare (fun s : State Ext => store s = saveChat c st0)
    (summarizeIfDue eu svc c)
    (fun c2 s => withSummary c c2 /\ store s = saveChat c2 st0)
    (fun _ s => store s = saveChat c st0).
Proof.
  unfold summarizeIfDue.
  destruct (shouldSummarize _) eqn:Due.
  - eapply hoare_bind;
      [apply (@keeps_hoare _ _ _ (fun st => st = saveChat c st0)), keeps_liftU|].
    intros summary. cbv zeta.
    eapply hoare_bind; [apply Chat_save_run; reflexivity|].
    intros ?. apply hoare_ret. intros s Hs. split; [|exact Hs].
    right. split; [exact Due|]. eauto.
  - apply hoare_ret. intros s Hs. split; [left; reflexivity|exact Hs].
Qed.

Lemma titleStep_run (c3 : Chat.t) (first : bool) message aiReply
    (J : Store -> Prop) :
  hoare (fun s : State Ext => J (store s))
    (if first then generateTitle svc c3 message aiReply else ret c3)
    (fun c4 s =>
       (if first
        then exists title,
               c4 = Chat.setTitle c3 title /\ String.length title <= 50
        else c4 = c3)
       /\ J (store s))
    (fun _ s => J (store s)).
Proof.
  destruct first; [|apply hoare_ret; auto].
  unfold generateTitle.
  eapply hoare_tryCatch.
  - eapply hoare_bind;
      [apply (@keeps_hoare _ _ _ J), keeps_callServiceResult|].
    intros titleText. apply hoare_ret. intros s Hs. split; [|exact Hs].
    eexists. split; [reflexivity|]. apply truncateTitle_length.
  - intros e. apply hoare_ret. intros s Hs. split; [|exact Hs].
    eexists. split; [reflexivity|].
    pose proof (fallbackTitle_length message) as L. lia.
Qed.

Lemma generateReply_run (req : Request.t) (ctx : Context) :
  hoare (fun s : State Ext => store s = saveChat (chat ctx) st0)
    (generateReply eu svc req ctx)
    (fun _ s =>
       exists c2 aiReply c4,
         withSummary (chat ctx) c2
         /\ streamedBy svc aiReply
         /\ withReply eu (isFirstMessage ctx) aiReply c2 c4
         /\ store s = saveChat c4 st0
         /\ response s
            = Some (mkResponse 200 (messageProcessed aiReply (Chat.title c4))))
    (fun _ s =>
       exists c2, withSummary (chat ctx) c2 /\ store s = saveChat c2 st0).
Proof.
  unfold generateReply.
  eapply hoare_bind.
  { eapply hoare_weaken;
      [apply (@keeps_hoare _ _ _ (fun st => st = saveChat (chat ctx) st0)),
         keeps_emit| | |]; cbv beta.
    - intros ? H; exact H.
    - intros ? ? H; exact H.
    - intros ? ? H. exists (chat ctx). split; [left; reflexivity|exact H]. }
  intros ?.
  eapply hoare_bind.
  { eapply hoare_weaken; [apply summarizeIfDue_run| | |]; cbv beta.
    - intros ? H; exact H.
    - intros ? ? H; exact H.
    - intros ? ? H. exists (chat ctx). split; [left; reflexivity|exact H]. }
  intros chat2. apply hoare_pure. intros W.
  set (J := fun st => st = saveChat chat2 st0).
  assert (K : forall A (m : M (State Ext) A) (Q : A -> State Ext -> Prop),
             keepsStore m ->
             (forall a s, J (store s) -> Q a s) ->
             hoare (fun s => J (store s)) m Q
               (fun _ s => exists c2, withSummary (chat ctx) c2
                                      /\ store s = saveChat c2 st0)).
  { intros A m Q Hk HQ. eapply hoare_weaken;
      [apply (@keeps_hoare _ _ _ J), Hk| | |]; cbv beta; auto.
    intros ? ? H. exists chat2. auto. }
  eapply hoare_bind; [apply K; [apply keeps_gatherFileContext|]|].
  { intros ? ? H; exact H. }
  intros fileContext.
  eapply hoare_bind; [apply K; [apply keeps_getRelevantMessages|]|].
  { intros ? ? H; exact H. }
  intros relevantMessageContext. cbv zeta.
  eapply hoare_bind.
  { eapply hoare_weaken; [apply (@callServiceResult_result Ext _ _ J)| | |];
      cbv beta.
    - intros ? H; exact H.
    - intros ? ? H; exact H.
    - intros ? ? H. exists chat2. auto. }
  intros stream. apply hoare_pure. intros Hstream.
  eapply hoare_bind.
  { eapply hoare_weaken; [apply (@consumeStream_result Ext _ _ _ J)| | |];
      cbv beta.
    - intros ? H; exact H.
    - intros ? ? H; exact H.
    - intros ? ? H. exists chat2. auto. }
  intros aiReply. apply hoare_pure. intros [texts [Htexts Hreply]].
  assert (Sb : streamedBy svc aiReply).
  { destruct Hstream as [x [x' Hx]]. rewrite Htexts in Hx.
    eexists _, _, x, x', texts. split; [exact Hx|exact Hreply]. }
  eapply hoare_bind.
  { eapply hoare_weaken; [apply (@liftU_result Ext _ _ J)| | |]; cbv beta.
    - intros ? H; exact H.
    - intros ? ? H; exact H.
    - intros ? ? H. exists chat2. auto. }
  intros aiReplyEmbedding. apply hoare_pure. intros Hemb.
  eapply hoare_bind.
  { eapply hoare_weaken; [apply (titleStep_run _ _ _ _ J)| | |]; cbv beta.
    - intros ? H; exact H.
    - intros ? ? H; exact H.
    - intros ? ? H. exists chat2. auto. }
  intros chat4. apply hoare_pure. intros T.
  assert (R : withReply eu (isFirstMessage ctx) aiReply chat2 chat4).
  { exists aiReplyEmbedding. split; [exact Hemb|]. cbv zeta. exact T. }
  destruct (withReply_ids R) as [Hid4 _].
  intros s Hs. unfold J in Hs.
  pose proof (@Chat_save_run chat4 chat2 (eq_sym Hid4) s Hs) as S4.
  unfold bind at 1.
  destruct (Chat_save svc chat4 s) as [[[]|e] s1].
  - unfold bind, emit, res_json, modify. cbn.
    exists chat2, aiReply, chat4.
    destruct (io s1); cbn; auto.
  - exists chat2. auto.
Qed.

End Stores.

Lemma due_is_even (n : nat) :
  shouldSummarize n = true -> Nat.even n = true.
Proof.
  unfold shouldSummarize. rewrite andb_true_iff, Nat.eqb_eq. intros [_ H].
  apply Nat.even_spec. apply Nat.Div0.mod_divides in H.
  destruct H as [q H]. exists (5 * q). lia.
Qed.

Lemma even_succ_false (n : nat) :
  Nat.even n = true -> Nat.even (S n) = false.
Proof.
  intros H. rewrite Nat.even_succ, <- Nat.negb_even, H. reflexivity.
Qed.

Section RequestStores.
Context {Ext : Type} (eu : Utils Ext) (svc : Services Ext) (req : Request.t).

Lemma Chat_save_first (st0 : Store) (c : Chat.t) :
  hoare (fun s : State Ext => store s = st0)
    (Chat_save svc c)
    (fun _ s => store s = saveChat c st0)
    (fun _ s => store s = st0).
Proof.
  intros s Hs. unfold Chat_save, bind.
  pose proof (keeps_dbCall svc s) as K.
  destruct (dbCall svc s) as [[[]|e] s1]; cbn [snd] in K; cbn; rewrite K, Hs;
    reflexivity.
Qed.

Lemma filter_none {A} (l : list A) : filter (fun _ => false) l = [].
Proof. induction l; [reflexivity|assumption]. Qed.

(** The references the first lines of [sendMessage] resolve. *)
Lemma resolveFileReferences_run (st0 : Store) :
  hoare (fun s : State Ext => store s = st0)
    (match Request.fileIds req with
     | Some fileIds =>
         if 0 <? List.length fileIds then
           files <- File_find svc fileIds (Some (Request.user req)) ;;
           ret (map (fun file =>
                       FileRef.make (Some (File._id file))
                         (File.fileName file))
                  files)
         else ret []
     | None => ret []
     end)%js
    (fun refs s => refs = requestedReferences req st0 /\ store s = st0)
    (fun _ s => store s = st0).
Proof.
  unfold requestedReferences, requestedFiles.
  destruct (Request.fileIds req) as [fileIds|];
    [|apply hoare_ret; intros s Hs; auto].
  destruct fileIds as [|i ids]; cbn [List.length Nat.ltb Nat.leb].
  - apply hoare_ret. intros s Hs. split; [|exact Hs].
    cbn [existsb andb]. now rewrite filter_none.
  - change (0 <? S (List.length ids)) with true. cbv iota.
    intros s Hs. unfold bind.
    destruct (File_find svc (i :: ids) (Some (Request.user req)) s)
      as [[found|e] s1] eqn:F.
    + apply File_find_ok in F. destruct F as [-> F]. cbn.
      rewrite Hs in *. auto.
    + pose proof (keeps_File_find svc (i :: ids)
                    (Some (Request.user req)) s) as K.
      rewrite F in K. cbn in K. congruence.
Qed.

Lemma appendUserMessage_run (st0 : Store) :
  hoare (fun s : State Ext => store s = st0)
    (appendUserMessage eu svc req)
    (fun r s =>
       match r with
       | None =>
           findChat (Request.chatId req) (Request.user req) st0 = None
           /\ store s = st0
       | Some ctx =>
           exists chat0 e,
             findChat (Request.chatId req) (Request.user req) st0 = Some chat0
             /\ embeddedBy eu (Request.message req) e
             /\ fileReferences ctx = requestedReferences req st0
             /\ chat ctx
                = Chat.pushMessage chat0 (storedUserMessage req e st0)
             /\ isFirstMessage ctx
                = (List.length (Chat.messages chat0) =? 0)
             /\ store s = saveChat (chat ctx) st0
       end)
    (fun _ s => store s = st0).
Proof.
  unfold appendUserMessage.
  set (J := fun st : Store => st = st0).
  eapply hoare_bind; [apply (Chat_findOne_hoare svc _ _ J)|].
  intros found. cbv beta. intros s [Hf Hs]. unfold J in Hs.
  rewrite Hs in Hf. revert s Hs. destruct found as [chat0|].
  - eapply hoare_bind; [apply resolveFileReferences_run|].
    intros refs. apply hoare_pure. intros ->.
    eapply hoare_bind; [apply (@liftU_result Ext _ _ J)|].
    intros messageEmbedding. apply hoare_pure. intros Hemb. cbv zeta.
    eapply hoare_bind; [apply Chat_save_first|].
    intros ?. apply hoare_ret. intros s Hs.
    exists chat0, messageEmbedding. cbn [chat fileReferences isFirstMessage].
    split; [auto|]. split; [exact Hemb|]. split; [reflexivity|].
    split; [reflexivity|]. split; [|exact Hs].
    cbn [Chat.pushMessage Chat.messages]. rewrite length_app. cbn.
    destruct (List.length (Chat.messages chat0)); cbn; [reflexivity|].
    rewrite Nat.add_1_r. reflexivity.
  - intros s Hs. unfold bind, res_json, modify, ret. cbn. auto.
Qed.

(** What [processMessage] leaves in the store. *)
Lemma processMessage_run (st0 : Store) :
  hoare (fun s : State Ext => store s = st0)
    (processMessage eu svc req)
    (fun _ s =>
       (findChat (Request.chatId req) (Request.user req) st0 = None
        /\ store s = st0)
       \/ exists chat0 e c2 aiReply c4,
            findChat (Request.chatId req) (Request.user req) st0 = Some chat0
            /\ embeddedBy eu (Request.message req) e
            /\ withSummary
                 (Chat.pushMessage chat0 (storedUserMessage req e st0)) c2
            /\ streamedBy svc aiReply
            /\ withReply eu (List.length (Chat.messages chat0) =? 0) aiReply
                 c2 c4
            /\ store s = saveChat c4 st0
            /\ response s
               = Some (mkResponse 200
                         (messageProcessed aiReply (Chat.title c4))))
    (fun _ s =>
       store s = st0
       \/ exists chat0 e c2,
            findChat (Request.chatId req) (Request.user req) st0 = Some chat0
            /\ withSummary
                 (Chat.pushMessage chat0 (storedUserMessage req e st0)) c2
            /\ store s = saveChat c2 st0).
Proof.
  unfold processMessage.
  eapply hoare_bind.
  { eapply hoare_weaken; [apply appendUserMessage_run| | |]; cbv beta.
    - intros ? H; exact H.
    - intros ? ? H; exact H.
    - intros ? ? H. left. exact H. }
  intros [ctx|].
  - intros s [chat0 [e [Hf [He [_ [Hc [Hfirst Hs]]]]]]].
    pose proof (@generateReply_run _ eu svc st0 req ctx s Hs) as R.
    destruct (generateReply eu svc req ctx s) as [[[]|err] s1].
    + destruct R as [c2 [aiReply [c4 [W [Sb [Y [Hst Hr]]]]]]].
      right. exists chat0, e, c2, aiReply, c4.
      rewrite <- Hc, <- Hfirst. auto 10.
    + destruct R as [c2 [W Hst]].
      right. exists chat0, e, c2.
      rewrite <- Hc. auto.
  - apply hoare_ret. intros s H. left. exact H.
Qed.

Lemma onError_keeps (err : Error) : keepsStore (@onError Ext req err).
Proof.
  unfold onError.
  apply keeps_bind; [apply keeps_emit|intros ?; apply keeps_res_json].
Qed.

(** What [sendMessage] leaves stored of the chat it found. *)
Lemma sendMessage_run (s0 : State Ext) :
  let s' := snd (sendMessage eu svc req s0) in
  store s' = store s0
  \/ exists chat0 e c2,
       findChat (Request.chatId req) (Request.user req) (store s0)
       = Some chat0
       /\ withSummary
            (Chat.pushMessage chat0 (storedUserMessage req e (store s0))) c2
       /\ (store s' = saveChat c2 (store s0)
           \/ exists aiReply c4,
                withReply eu (List.length (Chat.messages chat0) =? 0)
                  aiReply c2 c4
                /\ store s' = saveChat c4 (store s0)
                /\ sendMessage eu svc req s0
                   = processMessage eu svc req s0
                /\ fst (processMessage eu svc req s0) = Ok tt
                /\ response s'
                   = Some (mkResponse 200
                             (messageProcessed aiReply (Chat.title c4)))).
Proof.
  cbv zeta. unfold sendMessage, tryCatch.
  pose proof (@processMessage_run (store s0) s0 eq_refl) as R.
  destruct (processMessage eu svc req s0) as [[[]|err] s1]; cbn [fst snd].
  - destruct R as [[_ H]|[chat0 [e [c2 [aiReply [c4 H]]]]]];
      [left; exact H|].
    right. exists chat0, e, c2.
    destruct H as [Hf [_ [W [_ [Y [Hs Hr]]]]]].
    split; [exact Hf|]. split; [exact W|]. right. exists aiReply, c4. auto.
  - rewrite (onError_keeps err s1).
    destruct R as [H|[chat0 [e [c2 [Hf [W Hs]]]]]]; [left; exact H|].
    right. exists chat0, e, c2. auto.
Qed.

End RequestStores.

(** X8.  A request touches one chat: after [sendMessage], whatever
    happened, the files are those stored before, the chats are as many, and
    every chat with another id than the one of the request is where it was
    and as it was. *)
Theorem sendMessage_touches_one_chat :
  forall (Ext : Type) (eu : Utils Ext) (svc : Services Ext)
         (req : Request.t) (s0 : State Ext),
    let st' := store (snd (sendMessage eu svc req s0)) in
    files st' = files (store s0)
    /\ List.length (chats st') = List.length (chats (store s0))
    /\ forall i c,
         nth_error (chats (store s0)) i = Some c ->
         Chat._id c <> Request.chatId req ->
         nth_error (chats st') i = Some c.
Proof.
  intros Ext eu svc req s0 st'.
  assert (H : st' = store s0
              \/ exists c, Chat._id c = Request.chatId req
                           /\ st' = saveChat c (store s0)).
  { destruct (sendMessage_run eu svc req s0)
      as [H|[chat0 [e [c2 [Hf [W H]]]]]]; [left; exact H|].
    right. destruct (@findChat_ids _ _ _ _ Hf) as [Hid _].
    destruct (withSummary_ids W) as [Hid2 _]. cbn in Hid2.
    destruct H as [H|[aiReply [c4 [Y [H _]]]]].
    - exists c2. split; [congruence|exact H].
    - destruct (withReply_ids Y) as [Hid4 _].
      exists c4. split; [congruence|exact H]. }
  destruct H as [->|[c [Hid ->]]].
  - auto.
  - split; [reflexivity|]. split; [apply saveChat_length|].
    intros i x Hx N. apply saveChat_nth; [exact Hx|congruence].
Qed.

(** X9.  The summaries of the chat of a request only grow, by one summary
    at most, and only when the count of the messages with the new user
    message is due: the summary then carries the range from [n - 10] to
    [n], for [n] messages stored before.  When the chat held an even
    number of messages, as after exchanges that all went through, no
    summary is added. *)
Theorem sendMessage_summaries :
  forall (Ext : Type) (eu : Utils Ext) (svc : Services Ext)
         (req : Request.t) (s0 : State Ext) (chat0 : Chat.t),
    findChat (Request.chatId req) (Request.user req) (store s0)
    = Some chat0 ->
    let n := List.length (Chat.messages chat0) in
    exists stored added,
      findChat (Request.chatId req) (Request.user req)
        (store (snd (sendMessage eu svc req s0)))
      = Some stored
      /\ Chat.summaries stored = Chat.summaries chat0 ++ added
      /\ (added = []
          \/ shouldSummarize (S n) = true
             /\ exists text embedding,
                  added
                  = [Summary.make text embedding
                       (MessageRange.make (Z.of_nat n - 10) (Z.of_nat n))])
      /\ (Nat.even n = true -> added = []).
Proof.
  intros Ext eu svc req s0 chat0 Hf n.
  destruct (@findChat_ids _ _ _ _ Hf) as [Hid Hu].
  assert (D : forall added,
             (added = []
              \/ shouldSummarize (S n) = true
                 /\ exists text embedding,
                      added
                      = [Summary.make text embedding
                           (MessageRange.make (Z.of_nat n - 10) (Z.of_nat n))])
             -> Nat.even n = true -> added = []).
  { intros added [H|[H _]] Ev; [exact H|].
    apply due_is_even in H. rewrite (even_succ_false _ Ev) in H.
    discriminate. }
  assert (W : forall msg c2,
             withSummary (Chat.pushMessage chat0 msg) c2 ->
             exists added,
               Chat.summaries c2 = Chat.summaries chat0 ++ added
               /\ (added = []
                   \/ shouldSummarize (S n) = true
                      /\ exists text embedding,
                           added
                           = [Summary.make text embedding
                                (MessageRange.make (Z.of_nat n - 10)
                                   (Z.of_nat n))])).
  { intros msg c2 [->|[Due [text [emb ->]]]].
    - exists []. cbn. rewrite app_nil_r. auto.
    - cbn [Chat.pushMessage Chat.messages] in Due.
      rewrite length_app in Due. cbn [List.length] in Due.
      rewrite Nat.add_1_r in Due. fold n in Due.
      eexists. cbn [Chat.pushSummary Chat.summaries Chat.pushMessage].
      split; [reflexivity|]. right. split; [exact Due|].
      exists text, emb. cbn [Chat.messages Chat.pushMessage].
      rewrite length_app. cbn [List.length]. fold n. do 3 f_equal; lia. }
  destruct (sendMessage_run eu svc req s0)
    as [H|[chat0' [e [c2 [Hf' [Ws H]]]]]].
  - exists chat0, []. cbv zeta in H. rewrite H, app_nil_r. auto.
  - rewrite Hf in Hf'. injection Hf' as <-.
    destruct (W _ _ Ws) as [added [Hs Ha]].
    destruct (withSummary_ids Ws) as [Hid2 [Hu2 _]]. cbn in Hid2, Hu2.
    destruct H as [H|[aiReply [c4 [Y [H _]]]]]; cbv zeta in H.
    + exists c2, added. rewrite H.
      split; [eapply findChat_saveChat; [exact Hf|congruence|congruence]|].
      auto.
    + destruct (withReply_ids Y) as [Hid4 [Hu4 [Hs4 _]]].
      exists c4, added. rewrite H.
      split; [eapply findChat_saveChat; [exact Hf|congruence|congruence]|].
      rewrite Hs4. auto.
Qed.

Lemma sendMessage_summaries_witness :
  findChat (Request.chatId helloRequest) (Request.user helloRequest)
    (store (initialState [oddChat]))
  = Some oddChat
  /\ exists stored added,
       findChat (Request.chatId helloRequest) (Request.user helloRequest)
         (store (snd (sendMessage (guardedUtils workingCaps) workingServices
                        helloRequest (initialState [oddChat]))))
       = Some stored
       /\ Chat.summaries stored = Chat.summaries oddChat ++ added
       /\ (added = []
           \/ shouldSummarize 20 = true
              /\ exists text embedding,
                   added
                   = [Summary.make text embedding (MessageRange.make 9 19)])
       /\ (Nat.even 19 = true -> added = []).
Proof.
  assert (H : findChat (Request.chatId helloRequest)
                (Request.user helloRequest) (store (initialState [oddChat]))
              = Some oddChat) by reflexivity.
  split; [exact H|].
  exact (sendMessage_summaries (guardedUtils workingCaps) workingServices
           helloRequest (initialState [oddChat]) H).
Defined.



(** X11.  The title of a chat changes only with the first exchange and
    only when it goes through: after [sendMessage] the stored title is the
    one stored before, unless the chat had no message and the body of the
    [try] returned, and then the title has at most 50 characters. *)
Theorem sendMessage_title :
  forall (Ext : Type) (eu : Utils Ext) (svc : Services Ext)
         (req : Request.t) (s0 : State Ext) (chat0 : Chat.t),
    findChat (Request.chatId req) (Request.user req) (store s0)
    = Some chat0 ->
    exists stored,
      findChat (Request.chatId req) (Request.user req)
        (store (snd (sendMessage eu svc req s0)))
      = Some stored
      /\ (Chat.title stored = Chat.title chat0
          \/ Chat.messages chat0 = []
             /\ fst (processMessage eu svc req s0) = Ok tt
             /\ String.length (Chat.title stored) <= 50).
Proof.
  intros Ext eu svc req s0 chat0 Hf.
  destruct (@findChat_ids _ _ _ _ Hf) as [Hid Hu].
  destruct (sendMessage_run eu svc req s0)
    as [H|[chat0' [e [c2 [Hf' [W H]]]]]]; cbv zeta in H.
  - exists chat0. rewrite H. auto.
  - rewrite Hf in Hf'. injection Hf' as <-.
    destruct (withSummary_ids W) as [Hid2 [Hu2 [_ Ht2]]].
    cbn [Chat.pushMessage Chat._id Chat.userId Chat.title] in Hid2, Hu2, Ht2.
    destruct H as [H|[aiReply [c4 [Y [H [_ [Hok _]]]]]]].
    + exists c2. rewrite H.
      split; [eapply findChat_saveChat; [exact Hf|congruence|congruence]|].
      left. exact Ht2.
    + destruct (withReply_ids Y) as [Hid4 [Hu4 [_ [_ [Hkeep Hnew]]]]].
      exists c4. rewrite H.
      split; [eapply findChat_saveChat; [exact Hf|congruence|congruence]|].
      destruct (Chat.messages chat0) as [|m ms] eqn:Hm.
      * right. split; [reflexivity|]. split; [exact Hok|].
        apply Hnew. reflexivity.
      * left. rewrite Hkeep by reflexivity. exact Ht2.
Qed.

Lemma sendMessage_title_witness :
  findChat (Request.chatId helloRequest) (Request.user helloRequest)
    (store (initialState [oddChat]))
  = Some oddChat
  /\ exists stored,
       findChat (Request.chatId helloRequest) (Request.user helloRequest)
         (store (snd (sendMessage (guardedUtils workingCaps) workingServices
                        helloRequest (initialState [oddChat]))))
       = Some stored
       /\ (Chat.title stored = Chat.title oddChat
           \/ Chat.messages oddChat = []
              /\ fst (processMessage (guardedUtils workingCaps)
                        workingServices helloRequest
                        (initialState [oddChat]))
                 = Ok tt
              /\ String.length (Chat.title stored) <= 50).
Proof.
  assert (H : findChat (Request.chatId helloRequest)
                (Request.user helloRequest) (store (initialState [oddChat]))
              = Some oddChat) by reflexivity.
  split; [exact H|].
  exact (sendMessage_title (guardedUtils workingCaps) workingServices
           helloRequest (initialState [oddChat]) H).
Defined.

Lemma findChat_none (chatId userId : nat) (st : Store) :
  (forall c, In c (chats st) -> Chat._id c = chatId ->
             Chat.userId c <> userId) ->
  findChat chatId userId st = None.
Proof.
  intros H. unfold findChat.
  destruct (find _ (chats st)) as [c|] eqn:E; [|reflexivity].
  apply find_some in E. destruct E as [Hin E].
  apply andb_true_iff in E. rewrite !Nat.eqb_eq in E.
  destruct E as [E1 E2]. destruct (H c Hin E1 E2).
Qed.

(** X12.  A chat that is not the requester's is answered like a chat that
    does not exist: when no stored chat has both the id and the user of the
    request, [sendMessage] embeds nothing and stores nothing, and, the
    store answering, it emits nothing and answers 404; when the store fails
    on the lookup, it answers 500 with the message of the error. *)
Theorem sendMessage_unknown_chat :
  forall (Ext : Type) (eu : Utils Ext) (svc : Services Ext)
         (req : Request.t) (s0 : State Ext),
    (forall c, In c (chats (store s0)) ->
               Chat._id c = Request.chatId req ->
               Chat.userId c <> Request.user req) ->
    let s' := snd (sendMessage eu svc req s0) in
    store s' = store s0
    /\ embeddingCache (utils s') = embeddingCache (utils s0)
    /\ io s' = io s0
    /\ match fst (dbOutcome svc (ext (utils s0))) with
       | None =>
           response s' = Some (mkResponse 404 chatNotFound)
           /\ emitted s' = emitted s0
       | Some err =>
           response s'
           = Some (mkResponse 500 (geminiFailed (errorMessage err)))
           /\ emitted s'
              = if io s0
                then emitted s0
                       ++ [(Request.user req,
                            errorEvent (Request.chatId req) (message err))]
                else emitted s0
       end.
Proof.
  intros Ext eu svc req s0 H s'. apply findChat_none in H.
  subst s'. unfold sendMessage, tryCatch, processMessage, appendUserMessage,
    Chat_findOne, dbCall, callService, bind, gets.
  destruct (dbOutcome svc (ext (utils s0))) as [[err|] x]; cbn.
  - unfold emit, modify. cbn. destruct (io s0); cbn; auto.
  - rewrite H. cbn. auto.
Qed.

Lemma sendMessage_unknown_chat_witness :
  let s0 := initialState [foreignChat] in
  let s' := snd (sendMessage (guardedUtils workingCaps) workingServices
                   helloRequest s0) in
  (forall c, In c (chats (store s0)) ->
             Chat._id c = Request.chatId helloRequest ->
             Chat.userId c <> Request.user helloRequest)
  /\ store s' = store s0
  /\ response s' = Some (mkResponse 404 chatNotFound)
  /\ emitted s' = emitted s0.
Proof.
  intros s0 s'.
  assert (H : forall c, In c (chats (store s0)) ->
                        Chat._id c = Request.chatId helloRequest ->
                        Chat.userId c <> Request.user helloRequest).
  { intros c [<-|[]] _. cbn. lia. }
  split; [exact H|].
  destruct (sendMessage_unknown_chat (guardedUtils workingCaps)
              workingServices helloRequest s0 H) as [H1 [_ [_ H2]]].
  split; [exact H1|exact H2].
Defined.

(** ** The files of a request *)

Lemma NoDup_map_inj {A B} (f : A -> B) (l : list A) (x y : A) :
  NoDup (map f l) -> In x l -> In y l -> f x = f y -> x = y.
Proof.
  induction l as [|a l IH]; [intros _ []|].
  cbn [map]. intros N Hx Hy E. inversion N as [|? ? Hn N']; subst.
  destruct Hx as [->|Hx], Hy as [->|Hy].
  - reflexivity.
  - destruct Hn. rewrite E. apply in_map, Hy.
  - destruct Hn. rewrite <- E. apply in_map, Hx.
  - apply IH; assumption.
Qed.

Lemma referenced_ids (found : list File.t) :
  flat_map (fun ref => match FileRef.fileId ref with
                       | Some i => [i]
                       | None => []
                       end)
    (map (fun file => FileRef.make (Some (File._id file)) (File.fileName file))
       found)
  = map File._id found.
Proof.
  induction found as [|f found IH]; [reflexivity|].
  cbn [map flat_map FileRef.fileId app]. now rewrite IH.
Qed.

Lemma owned_files_again (ids : list nat) (owner : nat) (l : list File.t) :
  NoDup (map File._id l) ->
  let owned :=
    filter (fun f =>
              existsb (Nat.eqb (File._id f)) ids && (File.userId f =? owner))
      l in
  filter (fun f => existsb (Nat.eqb (File._id f)) (map File._id owned) && true)
    l
  = owned.
Proof.
  intros N owned. subst owned. apply filter_ext_in. intros f Hf.
  rewrite andb_true_r.
  set (p := fun f0 : File.t =>
              existsb (Nat.eqb (File._id f0)) ids
              && (File.userId f0 =? owner)).
  change (existsb (Nat.eqb (File._id f)) (map File._id (filter p l)) = p f).
  destruct (p f) eqn:Pf.
  - apply existsb_exists. exists (File._id f).
    split; [|apply Nat.eqb_refl].
    apply in_map, filter_In. auto.
  - destruct (existsb _ _) eqn:Ex; [|reflexivity].
    apply existsb_exists in Ex. destruct Ex as [i [Hi Ei]].
    apply Nat.eqb_eq in Ei. apply in_map_iff in Hi.
    destruct Hi as [g [<- Hg]]. apply filter_In in Hg.
    destruct Hg as [Hg Pg].
    assert (f = g) by (eapply NoDup_map_inj; eauto).
    subst g. congruence.
Qed.

(** X13.  The file context of a request is drawn from the requester's own
    files.  The references that the first lines of [sendMessage] resolve
    are those of the stored files of the requester whose ids the request
    names, all the ids of the request being looked up; the files of the
    store are the same afterwards; and, the ids being unique in the store,
    the second query of [sendMessage], by the ids of the references and
    without the owner, run on a store with these files, finds those files
    and no other. *)
Theorem file_context_is_owned :
  forall (Ext : Type) (eu : Utils Ext) (svc : Services Ext)
         (req : Request.t) (s0 s1 : State Ext) (ctx : Context),
    NoDup (map File._id (files (store s0))) ->
    appendUserMessage eu svc req s0 = (Ok (Some ctx), s1) ->
    fileReferences ctx = requestedReferences req (store s0)
    /\ files (store s1) = files (store s0)
    /\ Forall (fun f =>
                 File.userId f = Request.user req
                 /\ In f (files (store s0))
                 /\ exists ids,
                      Request.fileIds req = Some ids /\ In (File._id f) ids)
         (requestedFiles req (store s0))
    /\ forall (s2 s3 : State Ext) (again : list File.t),
         files (store s2) = files (store s0) ->
         File_find svc
           (flat_map (fun ref => match FileRef.fileId ref with
                                 | Some i => [i]
                                 | None => []
                                 end)
              (fileReferences ctx))
           None s2
         = (Ok again, s3) ->
         again = requestedFiles req (store s0).
Proof.
  intros Ext eu svc req s0 s1 ctx N Ha.
  pose proof (@appendUserMessage_run _ eu svc req (store s0) s0 eq_refl) as R.
  rewrite Ha in R.
  destruct R as [chat0 [e [_ [_ [Hrefs [_ [_ Hs]]]]]]].
  split; [exact Hrefs|]. split; [rewrite Hs; reflexivity|]. split.
  - unfold requestedFiles.
    destruct (Request.fileIds req) as [ids|]; [|constructor].
    apply Forall_forall. intros f Hf. apply filter_In in Hf.
    destruct Hf as [Hin Hf]. apply andb_true_iff in Hf.
    destruct Hf as [Hi Hu]. apply Nat.eqb_eq in Hu.
    split; [exact Hu|]. split; [exact Hin|]. exists ids.
    split; [reflexivity|].
    apply existsb_exists in Hi. destruct Hi as [i [Hi Ei]].
    apply Nat.eqb_eq in Ei. now rewrite Ei.
  - intros s2 s3 again Hfiles H2.
    apply File_find_ok in H2. destruct H2 as [H2 _].
    rewrite Hrefs in H2. unfold requestedReferences in H2.
    rewrite referenced_ids, Hfiles in H2. rewrite H2.
    unfold requestedFiles.
    destruct (Request.fileIds req) as [ids|].
    + apply owned_files_again, N.
    + cbn [map existsb andb]. apply filter_none.
Qed.

Lemma file_context_is_owned_witness :
  let s1 := snd (appendUserMessage firstCandidates workingServices
                   fileRequest fileState) in
  NoDup (map File._id (files (store fileState)))
  /\ requestedFiles fileRequest (store fileState) = [ownFile]
  /\ store s1 <> store fileState
  /\ files (store s1) = files (store fileState)
  /\ File_find workingServices [3] None s1 = (Ok [ownFile], s1)
  /\ exists ctx,
       fst (appendUserMessage firstCandidates workingServices fileRequest
              fileState)
       = Ok (Some ctx)
       /\ fileReferences ctx = requestedReferences fileRequest (store fileState).
Proof.
  intros s1.
  assert (N : NoDup (map File._id (files (store fileState)))).
  { cbn. repeat constructor; cbn; intuition discriminate. }
  split; [exact N|]. split; [reflexivity|]. split; [discriminate|].
  subst s1.
  destruct (appendUserMessage firstCandidates workingServices fileRequest
              fileState) as [r s1] eqn:E.
  assert (Hr : exists ctx, r = Ok (Some ctx)).
  { apply (f_equal fst) in E. cbn [fst] in E. rewrite <- E.
    eexists. reflexivity. }
  destruct Hr as [ctx ->]. cbn [fst snd].
  destruct (@file_context_is_owned unit firstCandidates workingServices
              fileRequest fileState s1 ctx N E) as [H1 [H2 [_ H4]]].
  split; [exact H2|]. split; [|exists ctx; split; [reflexivity|exact H1]].
  assert (S1 : s1 = snd (appendUserMessage firstCandidates workingServices
                           fileRequest fileState))
    by (rewrite E; reflexivity).
  rewrite S1. reflexivity.
Defined.

(** A request that names one file: the reference stored with the user
    message is that of the file. *)
Example sendMessage_with_one_file :
  chats (store (snd (sendMessage firstCandidates workingServices
                       (Request.make "Hello" (Some [3]) 1 7) fileState)))
  = [Chat.make 1 7
       [Message.make user "Hello" (Some [1%R])
          [FileRef.make (Some 3) "notes.txt"];
        Message.make ai "Hi there" (Some [1%R]) []]
       [] "Greeting"].
Proof. reflexivity. Qed.

(** ** The chunks of a text *)

Import FileUtils.

(** The split on three kinds of boundary, on a text that ends in a
    separator and on one that starts with white space. *)
Example splitSentences_samples :
  splitSentences ("One.  Two!" ++ nl ++ "Three? No. " ++ "a .b")
  = ["One."; "Two!"; "Three?"; "No."; "a .b"]%string
  /\ splitSentences "Done. " = ["Done."; EmptyString]%string
  /\ splitSentences " x" = [" x"]%string.
Proof. repeat split; reflexivity. Qed.

Lemma length_substring_le (s : string) : forall n m,
  String.length (substring n m s) <= m.
Proof.
  induction s as [|c s IH]; intros [|n] [|m]; cbn; try lia.
  - specialize (IH 0 m). lia.
  - apply (IH n 0).
  - apply (IH n (S m)).
Qed.

Lemma substring_all (s : string) : substring 0 (String.length s) s = s.
Proof. induction s as [|c s IH]; cbn; [reflexivity|now rewrite IH]. Qed.

Lemma sliceFrom_length (s : string) (overlap : nat) :
  0 < overlap ->
  String.length (sliceFrom s (- Z.of_nat overlap)) <= overlap.
Proof.
  intros H. unfold sliceFrom, relIndex.
  destruct (Z.ltb_spec (- Z.of_nat overlap) 0) as [L|L]; [|lia].
  etransitivity; [apply length_substring_le|]. lia.
Qed.

Lemma sliceFrom_zero (s : string) : sliceFrom s (- Z.of_nat 0) = s.
Proof.
  unfold sliceFrom, relIndex. cbn. rewrite Nat.sub_0_r. apply substring_all.
Qed.

Lemma fold_chunkStep (chunkSize overlap : nat) (sentences : list string) :
  forall chunks currentChunk,
    (let (chunks', currentChunk') :=
       fold_left (chunkStep chunkSize overlap) sentences
         (chunks, currentChunk) in
     if truthy currentChunk' then chunks' ++ [currentChunk'] else chunks')
    = chunks ++ chunksFrom chunkSize overlap sentences currentChunk.
Proof.
  induction sentences as [|s rest IH]; intros chunks cur.
  - cbn. destruct (truthy cur); [reflexivity|now rewrite app_nil_r].
  - cbn [fold_left chunksFrom]. unfold chunkStep at 2.
    destruct (chunkSize <? String.length cur + String.length s).
    + cbv zeta. rewrite IH, <- app_assoc. reflexivity.
    + apply IH.
Qed.

Lemma chunkText_long (text : string) (chunkSize overlap : nat) :
  chunkSize < String.length text ->
  chunkText text chunkSize overlap
  = chunksFrom chunkSize overlap (splitSentences text) EmptyString.
Proof.
  intros L. unfold chunkText.
  destruct (Nat.leb_spec (String.length text) chunkSize); [lia|].
  cbv zeta. apply (fold_chunkStep chunkSize overlap (splitSentences text) []).
Qed.

Lemma startsWith_refl (s : string) : startsWith s s.
Proof. exists EmptyString. now rewrite append_empty_r. Qed.

Lemma startsWith_trans (a b c : string) :
  startsWith a b -> startsWith b c -> startsWith a c.
Proof.
  intros [m ->] [m' ->]. exists (m' ++ m)%string.
  apply append_assoc_string.
Qed.

Lemma startsWith_append (a b : string) : startsWith (a ++ b) a.
Proof. exists b. reflexivity. Qed.

(** The first chunk pushed from [currentChunk] on starts with it. *)
Lemma chunksFrom_hd (chunkSize overlap : nat) (sentences : list string) :
  forall currentChunk c rest,
    chunksFrom chunkSize overlap sentences currentChunk = c :: rest ->
    startsWith c currentChunk.
Proof.
  induction sentences as [|s ss IH]; intros cur c rest.
  - cbn. destruct (truthy cur); [|discriminate].
    intros H. injection H as <- _. apply startsWith_refl.
  - cbn [chunksFrom].
    destruct (chunkSize <? String.length cur + String.length s).
    + intros H. injection H as <- _. apply startsWith_refl.
    + intros H. apply IH in H.
      eapply startsWith_trans; [exact H|apply startsWith_append].
Qed.

(** A non-empty [currentChunk] is pushed, sooner or later. *)
Lemma chunksFrom_nonempty (chunkSize overlap : nat) (sentences : list string) :
  forall currentChunk,
    truthy currentChunk = true ->
    exists c rest,
      chunksFrom chunkSize overlap sentences currentChunk = c :: rest.
Proof.
  induction sentences as [|s ss IH]; intros cur T.
  - cbn. rewrite T. eauto.
  - cbn [chunksFrom].
    destruct (chunkSize <? String.length cur + String.length s); [eauto|].
    apply IH. destruct cur; [discriminate|reflexivity].
Qed.

Lemma truthy_append_r (a b : string) :
  truthy b = true -> truthy (a ++ b) = true.
Proof. destruct a; [auto|reflexivity]. Qed.

Lemma substringOf_startsWith (s a c : string) :
  substringOf s a -> startsWith c a -> substringOf s c.
Proof.
  intros [before [after ->]] [more ->].
  exists before, (after ++ more)%string.
  now rewrite !append_assoc_string.
Qed.

Lemma substringOf_suffix (a s : string) : substringOf s (a ++ s).
Proof. exists a, EmptyString. now rewrite append_empty_r. Qed.

Lemma chunksFrom_holds (chunkSize overlap : nat) (sentences : list string)
    (currentChunk s : string) :
  truthy s = true -> substringOf s currentChunk ->
  exists c, In c (chunksFrom chunkSize overlap sentences currentChunk)
            /\ substringOf s c.
Proof.
  intros T H.
  assert (Tc : truthy currentChunk = true).
  { destruct H as [before [after ->]].
    apply truthy_append_r. destruct s; [discriminate|reflexivity]. }
  destruct (chunksFrom_nonempty chunkSize overlap sentences _ Tc)
    as [c [rest E]].
  exists c. rewrite E. split; [left; reflexivity|].
  eapply substringOf_startsWith; [exact H|].
  eapply chunksFrom_hd, E.
Qed.

Lemma chunksFrom_sentences (chunkSize overlap : nat) (sentences : list string) :
  forall currentChunk s,
    In s sentences -> truthy s = true ->
    exists c, In c (chunksFrom chunkSize overlap sentences currentChunk)
              /\ substringOf s c.
Proof.
  induction sentences as [|s0 ss IH]; intros cur s Hin T; [destruct Hin|].
  cbn [chunksFrom].
  destruct (chunkSize <? String.length cur + String.length s0).
  - destruct Hin as [->|Hin].
    + destruct (@chunksFrom_holds chunkSize overlap ss
                  (sliceFrom cur (- Z.of_nat overlap) ++ s)%string s T
                  (substringOf_suffix _ _)) as [c [Hc Hs]].
      exists c. split; [right; exact Hc|exact Hs].
    + destruct (IH (sliceFrom cur (- Z.of_nat overlap) ++ s0)%string s Hin T)
        as [c [Hc Hs]].
      exists c. split; [right; exact Hc|exact Hs].
  - destruct Hin as [->|Hin]; [|apply IH; assumption].
    apply chunksFrom_holds; [exact T|].
    rewrite <- append_assoc_string. apply substringOf_suffix.
Qed.

(** The pieces of the split are runs of the text. *)
Lemma splitLoop_pieces (rest : string) :
  forall currentPiece afterEnd inSeparator p,
    (inSeparator = true -> currentPiece = EmptyString) ->
    In p (splitLoop rest currentPiece afterEnd inSeparator) ->
    (exists a b, rest = (a ++ b)%string /\ p = (currentPiece ++ a)%string)
    \/ substringOf p rest.
Proof.
  induction rest as [|c rest IH]; intros cur ae sk p Hsk.
  - cbn. intros [<-|[]]. left. exists EmptyString, EmptyString.
    split; [reflexivity|symmetry; apply append_empty_r].
  - cbn [splitLoop].
    assert (Keep : forall ae',
               In p (splitLoop rest (cur ++ String c EmptyString) ae' false) ->
               (exists a b, String c rest = (a ++ b)%string
                            /\ p = (cur ++ a)%string)
               \/ substringOf p (String c rest)).
    { intros ae' H. apply IH in H; [|discriminate].
      destruct H as [[a [b [-> ->]]]|[before [after ->]]].
      - left. exists (String c a), b. split; [reflexivity|].
        now rewrite append_assoc_string.
      - right. exists (String c before), after. reflexivity. }
    assert (Skip : forall ae' sk',
               In p (splitLoop rest EmptyString ae' sk') ->
               substringOf p (String c rest)).
    { intros ae' sk' H. apply IH in H; [|reflexivity].
      destruct H as [[a [b [-> ->]]]|[before [after ->]]].
      - exists (String c EmptyString), b. reflexivity.
      - exists (String c before), after. reflexivity. }
    destruct (isWhiteSpace c); [|apply Keep].
    destruct sk.
    + rewrite (Hsk eq_refl). intros H. right. eapply Skip, H.
    + destruct ae; [|apply Keep].
      intros [<-|H]; [|right; eapply Skip, H].
      left. exists EmptyString, (String c rest).
      split; [reflexivity|symmetry; apply append_empty_r].
Qed.

Lemma splitSentences_pieces (text p : string) :
  In p (splitSentences text) -> substringOf p text.
Proof.
  intros H. apply splitLoop_pieces in H; [|discriminate].
  destruct H as [[a [b [-> ->]]]|H]; [|exact H].
  exists EmptyString, b. reflexivity.
Qed.

(** Outside a separator, the first piece starts with the current one. *)
Lemma splitLoop_hd (rest : string) :
  forall currentPiece afterEnd,
    exists a others,
      splitLoop rest currentPiece afterEnd false
      = (currentPiece ++ a)%string :: others.
Proof.
  induction rest as [|c rest IH]; intros cur ae.
  - exists EmptyString, []. cbn. now rewrite append_empty_r.
  - cbn [splitLoop].
    assert (Keep : forall ae',
               exists a others,
                 splitLoop rest (cur ++ String c EmptyString) ae' false
                 = (cur ++ a)%string :: others).
    { intros ae'. destruct (IH (cur ++ String c EmptyString)%string ae')
        as [a [others E]].
      exists (String c a), others. rewrite E.
      now rewrite append_assoc_string. }
    destruct (isWhiteSpace c); [|apply Keep].
    destruct ae; [|apply Keep].
    exists EmptyString. eexists. now rewrite append_empty_r.
Qed.

Lemma splitSentences_first (text : string) :
  truthy text = true ->
  exists first others,
    splitSentences text = first :: others /\ truthy first = true.
Proof.
  destruct text as [|c rest]; [discriminate|]. intros _.
  unfold splitSentences. cbn [splitLoop append].
  destruct (isWhiteSpace c).
  - destruct (splitLoop_hd rest (String c EmptyString) false)
      as [a [others E]].
    rewrite E. eexists _, _. split; reflexivity.
  - destruct (splitLoop_hd rest (String c EmptyString) (isSentenceEnd c))
      as [a [others E]].
    rewrite E. eexists _, _. split; reflexivity.
Qed.

Lemma long_is_truthy (text : string) (chunkSize : nat) :
  chunkSize < String.length text -> truthy text = true.
Proof. destruct text; cbn; [lia|reflexivity]. Qed.

Lemma sliceFrom_empty (start : Z) : sliceFrom EmptyString start = EmptyString.
Proof.
  unfold sliceFrom. cbn [String.length].
  destruct (relIndex 0 start); reflexivity.
Qed.

(** The first chunk: empty when the first sentence is longer than the
    size, and starting with the first sentence otherwise. *)
Lemma chunksFrom_first (chunkSize overlap : nat) (first : string)
    (others : list string) :
  truthy first = true ->
  if chunkSize <? String.length first
  then exists more rest,
         chunksFrom chunkSize overlap (first :: others) EmptyString
         = EmptyString :: (first ++ more)%string :: rest
  else exists more rest,
         chunksFrom chunkSize overlap (first :: others) EmptyString
         = (first ++ more)%string :: rest.
Proof.
  intros T. cbn [chunksFrom String.length Nat.add truthy append].
  destruct (chunkSize <? String.length first).
  - rewrite sliceFrom_empty. cbn [append].
    destruct (chunksFrom_nonempty chunkSize overlap others _ T)
      as [c [rest E]].
    destruct (chunksFrom_hd _ _ _ _ E) as [more ->].
    rewrite E. eauto.
  - destruct (chunksFrom_nonempty chunkSize overlap others _ T)
      as [c [rest E]].
    destruct (chunksFrom_hd _ _ _ _ E) as [more ->].
    rewrite E. eauto.
Qed.

(** X14.  [chunkText] never returns an empty list, and breaks no sentence:
    every piece that the split of the text on the sentence boundaries gives
    lies whole inside one chunk. *)
Theorem chunkText_keeps_sentences :
  forall (text : string) (chunkSize overlap : nat),
    chunkText text chunkSize overlap <> []
    /\ forall sentence,
         In sentence (splitSentences text) ->
         exists chunk,
           In chunk (chunkText text chunkSize overlap)
           /\ substringOf sentence chunk.
Proof.
  intros text cs ov.
  assert (N : chunkText text cs ov <> []).
  { destruct (Nat.leb_spec (String.length text) cs) as [L|L].
    { unfold chunkText.
      destruct (Nat.leb_spec (String.length text) cs); [discriminate|lia]. }
    rewrite chunkText_long by exact L.
    destruct (splitSentences_first text (long_is_truthy _ L))
      as [first [others [E T]]].
    rewrite E. pose proof (chunksFrom_first cs ov first others T) as H.
    destruct (cs <? String.length first);
      destruct H as [more [rest ->]]; discriminate. }
  split; [exact N|]. intros s Hin.
  destruct (truthy s) eqn:T.
  - destruct (Nat.leb_spec (String.length text) cs) as [L|L].
    + exists text. unfold chunkText.
      destruct (Nat.leb_spec (String.length text) cs); [|lia].
      split; [left; reflexivity|apply splitSentences_pieces, Hin].
    + rewrite chunkText_long by exact L.
      apply chunksFrom_sentences; assumption.
  - destruct s; [|discriminate].
    destruct (chunkText text cs ov) as [|c rest]; [destruct N; reflexivity|].
    exists c. split; [left; reflexivity|]. exists EmptyString, c. reflexivity.
Qed.

Lemma chunkText_keeps_sentences_witness :
  In "Two."%string (splitSentences "One. Two.")
  /\ exists chunk,
       In chunk (chunkText "One. Two." 5 1) /\ substringOf "Two." chunk.
Proof.
  assert (H : In "Two."%string (splitSentences "One. Two."))
    by (right; left; reflexivity).
  split; [exact H|].
  exact (proj2 (chunkText_keeps_sentences "One. Two." 5 1) _ H).
Defined.

Lemma chunksFrom_bound (chunkSize overlap : nat) (sentences : list string) :
  0 < overlap ->
  Forall (fun s => String.length s + overlap <= chunkSize) sentences ->
  forall currentChunk,
    String.length currentChunk <= chunkSize + 1 ->
    Forall (fun c => String.length c <= chunkSize + 1)
      (chunksFrom chunkSize overlap sentences currentChunk).
Proof.
  intros Hov Hs. induction Hs as [|s ss Hs _ IH]; intros cur Hc.
  - cbn. destruct (truthy cur); auto.
  - cbn [chunksFrom].
    destruct (Nat.ltb_spec chunkSize (String.length cur + String.length s))
      as [L|L].
    + constructor; [exact Hc|]. apply IH.
      rewrite length_append.
      pose proof (sliceFrom_length cur Hov). lia.
    + apply IH. rewrite !length_append.
      destruct (truthy cur); cbn [String.length]; lia.
Qed.

(** X15.  With an overlap above 0 and sentences that each leave room for
    the overlap within the size, no chunk has more than [chunkSize + 1]
    characters; the size itself can be exceeded by one, the space that
    joins two sentences not being counted. *)
Theorem chunkText_bound :
  forall (text : string) (chunkSize overlap : nat),
    0 < overlap ->
    Forall (fun s => String.length s + overlap <= chunkSize)
      (splitSentences text) ->
    Forall (fun c => String.length c <= chunkSize + 1)
      (chunkText text chunkSize overlap).
Proof.
  intros text cs ov Hov Hs.
  destruct (Nat.leb_spec (String.length text) cs) as [L|L].
  - unfold chunkText.
    destruct (Nat.leb_spec (String.length text) cs); [|lia].
    constructor; [lia|constructor].
  - rewrite chunkText_long by exact L.
    apply chunksFrom_bound; [exact Hov|exact Hs|cbn; lia].
Qed.

Lemma chunkText_bound_witness :
  0 < 1
  /\ Forall (fun s => String.length s + 1 <= 10)
       (splitSentences "aaaa. bbbb.")
  /\ chunkText "aaaa. bbbb." 10 1 = ["aaaa. bbbb."%string]
  /\ Forall (fun c => String.length c <= 10 + 1)
       (chunkText "aaaa. bbbb." 10 1).
Proof.
  assert (H1 : 0 < 1) by lia.
  assert (H2 : Forall (fun s => String.length s + 1 <= 10)
                 (splitSentences "aaaa. bbbb."))
    by (repeat constructor; cbn; lia).
  split; [exact H1|]. split; [exact H2|]. split; [reflexivity|].
  exact (@chunkText_bound "aaaa. bbbb." 10 1 H1 H2).
Defined.

Lemma substring_split (s : string) : forall k,
  k <= String.length s ->
  s = (substring 0 k s ++ substring k (String.length s - k) s)%string.
Proof.
  induction s as [|c s IH]; intros [|k] H; cbn in *; try lia.
  - reflexivity.
  - now rewrite substring_all.
  - rewrite <- IH by lia. reflexivity.
Qed.

Lemma length_substring_tail (s : string) : forall k,
  k <= String.length s ->
  String.length (substring k (String.length s - k) s) = String.length s - k.
Proof.
  intros k H. pose proof (substring_split s H) as E.
  apply (f_equal String.length) in E.
  rewrite length_append, length_substring_prefix in E. lia.
Qed.

(** [str.slice(-overlap)] is the end of [str]: its last [overlap]
    characters, or all of it when it is shorter or [overlap] is 0. *)
Lemma sliceFrom_tail (s : string) (overlap : nat) :
  exists head,
    s = (head ++ sliceFrom s (- Z.of_nat overlap))%string
    /\ String.length (sliceFrom s (- Z.of_nat overlap))
       = if overlap =? 0 then String.length s
         else Nat.min overlap (String.length s).
Proof.
  unfold sliceFrom.
  set (k := relIndex (String.length s) (- Z.of_nat overlap)).
  assert (Hk : k = if overlap =? 0 then 0
                   else String.length s - overlap).
  { unfold k, relIndex. destruct overlap as [|n]; [reflexivity|].
    cbn [Nat.eqb].
    destruct (Z.ltb_spec (- Z.of_nat (S n)) 0); lia. }
  assert (Le : k <= String.length s)
    by (rewrite Hk; destruct (overlap =? 0); lia).
  exists (substring 0 k s). split; [apply substring_split, Le|].
  rewrite length_substring_tail by exact Le. rewrite Hk.
  destruct (overlap =? 0); lia.
Qed.

Lemma chunksFrom_chain (chunkSize overlap : nat) (sentences : list string) :
  forall currentChunk i c d,
    nth_error (chunksFrom chunkSize overlap sentences currentChunk) i = Some c ->
    nth_error (chunksFrom chunkSize overlap sentences currentChunk) (S i)
    = Some d ->
    startsWith d (sliceFrom c (- Z.of_nat overlap)).
Proof.
  induction sentences as [|s ss IH]; intros cur i c d.
  - cbn. destruct (truthy cur); [|destruct i; discriminate].
    destruct i; cbn; [discriminate|destruct i; discriminate].
  - cbn [chunksFrom].
    destruct (chunkSize <? String.length cur + String.length s);
      [|apply IH].
    destruct i as [|i]; cbn [nth_error]; [|apply IH].
    intros H. injection H as <-.
    destruct (chunksFrom chunkSize overlap ss _) as [|d' rest] eqn:E;
      [discriminate|].
    intros H. injection H as <-.
    apply chunksFrom_hd in E.
    eapply startsWith_trans; [exact E|apply startsWith_append].
Qed.

(** X16.  Each chunk after the first starts with the end of the chunk
    before it: its last [overlap] characters, or the whole of it when it is
    shorter than that or when [overlap] is 0. *)
Theorem chunkText_overlap :
  forall (text : string) (chunkSize overlap i : nat) (c d : string),
    nth_error (chunkText text chunkSize overlap) i = Some c ->
    nth_error (chunkText text chunkSize overlap) (S i) = Some d ->
    exists head tail more,
      c = (head ++ tail)%string
      /\ d = (tail ++ more)%string
      /\ String.length tail
         = if overlap =? 0 then String.length c
           else Nat.min overlap (String.length c).
Proof.
  intros text cs ov i c d Hc Hd.
  destruct (Nat.leb_spec (String.length text) cs) as [L|L].
  - unfold chunkText in Hd.
    destruct (Nat.leb_spec (String.length text) cs); [|lia].
    destruct i; discriminate.
  - rewrite chunkText_long in Hc, Hd by exact L.
    destruct (chunksFrom_chain _ _ _ _ _ Hc Hd) as [more Hm].
    destruct (sliceFrom_tail c ov) as [head [Hh Hl]].
    exists head, (sliceFrom c (- Z.of_nat ov)), more. auto.
Qed.

Lemma chunkText_overlap_witness :
  nth_error (chunkText "aaaa. bbbb. cccc." 10 2) 0 = Some "aaaa. bbbb."%string
  /\ nth_error (chunkText "aaaa. bbbb. cccc." 10 2) 1
     = Some "b.cccc."%string
  /\ exists head tail more,
       "aaaa. bbbb."%string = (head ++ tail)%string
       /\ "b.cccc."%string = (tail ++ more)%string
       /\ String.length tail = 2.
Proof.
  assert (H0 : nth_error (chunkText "aaaa. bbbb. cccc." 10 2) 0
               = Some "aaaa. bbbb."%string) by reflexivity.
  assert (H1 : nth_error (chunkText "aaaa. bbbb. cccc." 10 2) 1
               = Some "b.cccc."%string) by reflexivity.
  split; [exact H0|]. split; [exact H1|].
  exact (@chunkText_overlap "aaaa. bbbb. cccc." 10 2 0 _ _ H0 H1).
Defined.

Lemma splitLoop_not_nil (rest : string) :
  forall currentPiece afterEnd inSeparator,
    splitLoop rest currentPiece afterEnd inSeparator <> [].
Proof.
  induction rest as [|c rest IH]; intros cur ae sk; [discriminate|].
  cbn [splitLoop].
  destruct (isWhiteSpace c); [|apply IH].
  destruct sk; [apply IH|]. destruct ae; [discriminate|apply IH].
Qed.

(** Outside a separator, a split that gives one piece gives the text as it
    is. *)
Lemma splitLoop_single (rest : string) :
  forall currentPiece afterEnd piece,
    splitLoop rest currentPiece afterEnd false = [piece] ->
    piece = (currentPiece ++ rest)%string.
Proof.
  induction rest as [|c rest IH]; intros cur ae piece.
  - cbn. intros H. injection H as <-. now rewrite append_empty_r.
  - cbn [splitLoop].
    assert (Keep : forall ae',
               splitLoop rest (cur ++ String c EmptyString) ae' false
               = [piece] ->
               piece = (cur ++ String c rest)%string).
    { intros ae' H. apply IH in H. rewrite H.
      now rewrite append_assoc_string. }
    destruct (isWhiteSpace c); [|apply Keep].
    destruct ae; [|apply Keep].
    intros H. injection H as _ H.
    destruct (splitLoop_not_nil _ _ _ _ H).
Qed.

(** A text without white space has no sentence boundary. *)
Lemma splitLoop_no_space (rest : string) :
  forallb (fun c => negb (isWhiteSpace c)) (list_ascii_of_string rest) = true ->
  forall currentPiece afterEnd,
    splitLoop rest currentPiece afterEnd false
    = [(currentPiece ++ rest)%string].
Proof.
  induction rest as [|c rest IH]; intros H cur ae.
  - cbn. now rewrite append_empty_r.
  - cbn [list_ascii_of_string forallb] in H. apply andb_true_iff in H.
    destruct H as [Hc H]. cbn [splitLoop].
    destruct (isWhiteSpace c); [discriminate|].
    rewrite (IH H). now rewrite append_assoc_string.
Qed.

(** X17.  On a text longer than the size, the first chunk is the empty
    string when the first sentence alone is longer than the size, and the
    chunk after it then starts with that sentence; otherwise the first
    chunk starts with the first sentence.  A text longer than the size
    that has no sentence boundary, as every text without white space,
    gives exactly two chunks: the empty string, then the whole text. *)
Theorem chunkText_first_chunk :
  forall (text : string) (chunkSize overlap : nat),
    chunkSize < String.length text ->
    (exists first others,
        splitSentences text = first :: others
        /\ truthy first = true
        /\ if chunkSize <? String.length first
           then exists more rest,
                  chunkText text chunkSize overlap
                  = EmptyString :: (first ++ more)%string :: rest
           else exists more rest,
                  chunkText text chunkSize overlap
                  = (first ++ more)%string :: rest)
    /\ (forall piece,
           splitSentences text = [piece] ->
           piece = text
           /\ chunkText text chunkSize overlap = [EmptyString; text])
    /\ (forallb (fun c => negb (isWhiteSpace c)) (list_ascii_of_string text)
        = true ->
        chunkText text chunkSize overlap = [EmptyString; text]).
Proof.
  intros text cs ov L.
  assert (Single : forall piece,
             splitSentences text = [piece] ->
             piece = text
             /\ chunkText text cs ov = [EmptyString; text]).
  { intros piece E.
    assert (piece = text) by (apply splitLoop_single in E; exact E).
    subst piece. split; [reflexivity|].
    rewrite chunkText_long, E by exact L.
    cbn [chunksFrom String.length Nat.add].
    destruct (Nat.ltb_spec cs (String.length text)); [|lia].
    rewrite sliceFrom_empty. cbn [append].
    rewrite (long_is_truthy _ L). reflexivity. }
  split; [|split; [exact Single|]].
  - destruct (splitSentences_first text (long_is_truthy _ L))
      as [first [others [E T]]].
    exists first, others. split; [exact E|]. split; [exact T|].
    rewrite chunkText_long, E by exact L.
    apply chunksFrom_first, T.
  - intros H. apply (Single text).
    unfold splitSentences. now rewrite (splitLoop_no_space _ H).
Qed.

Lemma chunkText_first_chunk_witness :
  5 < String.length "aaaaaaaaaaaa"
  /\ splitSentences "aaaaaaaaaaaa" = ["aaaaaaaaaaaa"%string]
  /\ chunkText "aaaaaaaaaaaa" 5 2 = [EmptyString; "aaaaaaaaaaaa"%string].
Proof.
  assert (H : 5 < String.length "aaaaaaaaaaaa") by (cbn; lia).
  assert (E : splitSentences "aaaaaaaaaaaa" = ["aaaaaaaaaaaa"%string])
    by reflexivity.
  split; [exact H|]. split; [exact E|].
  exact (proj2 (proj1 (proj2 (@chunkText_first_chunk "aaaaaaaaaaaa" 5 2 H))
                  _ E)).
Defined.

(** ** The upload directory *)

Section DiskFacts.
Context {V : Type}.
Implicit Types (m : JsMap.t V) (k : string).

Lemma get_set_eq k (v : V) m : JsMap.get k (JsMap.set k v m) = Some v.
Proof.
  induction m as [|[k' v'] m IH]; cbn.
  - now rewrite String.eqb_refl.
  - destruct (String.eqb k k') eqn:E; cbn.
    + now rewrite String.eqb_refl.
    + now rewrite E.
Qed.

Lemma get_set_neq k k' (v : V) m :
  k <> k' -> JsMap.get k (JsMap.set k' v m) = JsMap.get k m.
Proof.
  intros N. induction m as [|[k0 v0] m IH]; cbn.
  - destruct (String.eqb_spec k k'); [contradiction|reflexivity].
  - destruct (String.eqb_spec k' k0) as [->|N0]; cbn.
    + destruct (String.eqb_spec k k0); [contradiction|].
      destruct (String.eqb_spec k k0); [contradiction|reflexivity].
    + destruct (String.eqb k k0); [reflexivity|exact IH].
Qed.

Lemma get_delete_neq k k' m :
  k <> k' -> JsMap.get k (JsMap.delete k' m) = JsMap.get k m.
Proof.
  intros N. induction m as [|[k0 v0] m IH]; cbn; [reflexivity|].
  destruct (String.eqb_spec k' k0) as [->|N0]; cbn.
  - destruct (String.eqb_spec k k0); [contradiction|reflexivity].
  - destruct (String.eqb k k0); [reflexivity|exact IH].
Qed.

Lemma get_delete_eq k m :
  NoDup (JsMap.keys m) -> JsMap.get k (JsMap.delete k m) = None.
Proof.
  induction m as [|[k0 v0] m IH]; cbn; [reflexivity|].
  intros N. inversion N as [|? ? Hn N']; subst.
  destruct (String.eqb_spec k k0) as [->|N0]; cbn.
  - apply get_none_iff, Hn.
  - destruct (String.eqb_spec k k0); [contradiction|]. apply IH, N'.
Qed.

Lemma keys_set_in k (v : V) m :
  forall k0, In k0 (JsMap.keys (JsMap.set k v m)) ->
             k0 = k \/ In k0 (JsMap.keys m).
Proof.
  induction m as [|[k' v'] m IH]; cbn; intros k0.
  - intros [<-|[]]. now left.
  - destruct (String.eqb_spec k k') as [->|N]; cbn.
    + intros [<-|H]; auto.
    + intros [<-|H]; [auto|]. apply IH in H. tauto.
Qed.

Lemma NoDup_set k (v : V) m :
  NoDup (JsMap.keys m) -> NoDup (JsMap.keys (JsMap.set k v m)).
Proof.
  induction m as [|[k' v'] m IH]; cbn; intros N.
  - repeat constructor. intros [].
  - inversion N as [|? ? Hn N']; subst.
    destruct (String.eqb_spec k k') as [->|Ne]; cbn.
    + constructor; assumption.
    + constructor; [|apply IH, N'].
      intros H. apply keys_set_in in H. destruct H as [->|H]; auto.
Qed.

Lemma keys_delete_in k m :
  forall k0, In k0 (JsMap.keys (JsMap.delete k m)) -> In k0 (JsMap.keys m).
Proof.
  induction m as [|[k' v'] m IH]; cbn; intros k0; [auto|].
  destruct (String.eqb k k'); cbn; [auto|].
  intros [<-|H]; auto.
Qed.

Lemma NoDup_delete k m :
  NoDup (JsMap.keys m) -> NoDup (JsMap.keys (JsMap.delete k m)).
Proof.
  induction m as [|[k' v'] m IH]; cbn; intros N; [constructor|].
  inversion N as [|? ? Hn N']; subst.
  destruct (String.eqb k k'); cbn; [exact N'|].
  constructor; [|apply IH, N'].
  intros H. apply Hn. eapply keys_delete_in, H.
Qed.

Lemma has_get k m :
  JsMap.has k m = match JsMap.get k m with Some _ => true | None => false end.
Proof. reflexivity. Qed.
End DiskFacts.

Lemma append_neq (a b : string) : truthy b = true -> (a ++ b)%string <> a.
Proof.
  intros T E. apply (f_equal String.length) in E.
  rewrite length_append in E. destruct b; [discriminate|cbn in E; lia].
Qed.

Import FileUtils.

Section DiskRuns.
Context {Ext : Type} (svc : FileServices Ext).

Lemma readFileSync_ok path (s : FileState Ext) data :
  JsMap.get path (disk s) = Some data ->
  readFileSync path s = (Ok data, s).
Proof. intros H. unfold readFileSync, bind, gets. now rewrite H. Qed.

Lemma readFileSync_missing path (s : FileState Ext) :
  JsMap.get path (disk s) = None ->
  readFileSync path s = (Throw (noSuchFile "open" path), s).
Proof. intros H. unfold readFileSync, bind, gets. now rewrite H. Qed.

Lemma unlinkSync_ok path (s : FileState Ext) data :
  JsMap.get path (disk s) = Some data ->
  unlinkSync path s
  = (Ok tt,
     mkFileState (JsMap.delete path (disk s)) (documents s) (answer s)
       (embedder s)).
Proof.
  intros H. unfold unlinkSync, bind, existsSync, gets.
  rewrite has_get, H. reflexivity.
Qed.

Lemma sharpToFile_ok input output (s : FileState Ext) data optimized x1 :
  JsMap.get input (disk s) = Some data ->
  sharpJpeg svc data (ext (embedder s)) = (Ok optimized, x1) ->
  sharpToFile svc input output s
  = (Ok tt,
     mkFileState (JsMap.set output optimized (disk s)) (documents s)
       (answer s) (mkUState (embeddingCache (embedder s)) x1)).
Proof.
  intros H1 H2. unfold sharpToFile, bind, gets. rewrite H1.
  unfold callWorld. rewrite H2. reflexivity.
Qed.

Lemma cleanupFile_run path (s : FileState Ext) :
  cleanupFile path s
  = (Ok tt,
     mkFileState
       (if JsMap.has path (disk s) then JsMap.delete path (disk s)
        else disk s)
       (documents s) (answer s) (embedder s))
    \/ cleanupFile path s = (Ok tt, s).
Proof.
  unfold cleanupFile, tryCatch, bind, existsSync, gets.
  destruct (JsMap.has path (disk s)) eqn:H; [|right; reflexivity].
  left. unfold unlinkSync, bind, existsSync, gets. rewrite H. reflexivity.
Qed.
End DiskRuns.

Section ImageExtraction.
Context {Ext : Type} (svc : FileServices Ext).

(** X18.  The temporary file of [extractTextFromImage]: when the image is
    there and [sharp] succeeds, the optimized copy is written beside it;
    it is removed when the vision call answers, and left on the disk when
    that call fails, the error raised being the fixed one.  No other path
    of the disk changes. *)
Theorem image_extraction_temp_file :
  forall (filePath : string) (s : FileState Ext) (data optimized : string)
         (x1 : Ext),
    NoDup (JsMap.keys (disk s)) ->
    JsMap.get filePath (disk s) = Some data ->
    sharpJpeg svc data (ext (embedder s)) = (Ok optimized, x1) ->
    let temp := (filePath ++ "-optimized.jpg")%string in
    let run := extractTextFromImage svc filePath s in
    (forall p, p <> temp ->
               JsMap.get p (disk (snd run)) = JsMap.get p (disk s))
    /\ documents (snd run) = documents s
    /\ match visionContent svc imagePrompt (toBase64 svc optimized) x1 with
       | (Ok text, _) =>
           fst run = Ok text /\ JsMap.get temp (disk (snd run)) = None
       | (Throw _, _) =>
           fst run = Throw (newError "Failed to extract text from image")
           /\ JsMap.get temp (disk (snd run)) = Some optimized
       end.
Proof.
  intros filePath s data optimized x1 N Hdata Hsharp temp run.
  set (s1 := mkFileState (JsMap.set temp optimized (disk s)) (documents s)
               (answer s) (mkUState (embeddingCache (embedder s)) x1)).
  assert (R1 : readFileSync temp s1 = (Ok optimized, s1))
    by (apply (@readFileSync_ok Ext); cbn; apply get_set_eq).
  destruct (visionContent svc imagePrompt (toBase64 svc optimized) x1)
    as [[text|e] x2] eqn:V.
  - set (s2 := mkFileState (disk s1) (documents s) (answer s)
                 (mkUState (embeddingCache (embedder s)) x2)).
    assert (R2 : callWorld (visionContent svc imagePrompt
                              (toBase64 svc optimized)) s1
                 = (Ok text, s2))
      by (unfold callWorld; cbn; rewrite V; reflexivity).
    assert (R3 : unlinkSync temp s2
                 = (Ok tt,
                    mkFileState (JsMap.delete temp (disk s2)) (documents s2)
                      (answer s2) (embedder s2)))
      by (apply (@unlinkSync_ok Ext temp s2 optimized); cbn; apply get_set_eq).
    assert (E : run
                = (Ok text,
                   mkFileState (JsMap.delete temp (disk s2)) (documents s2)
                     (answer s2) (embedder s2))).
    { subst run. unfold extractTextFromImage. cbv zeta. fold temp.
      apply tryCatch_ok.
      rewrite (@bind_ok _ _ _ _ _ _ _ _
                 (@sharpToFile_ok Ext svc filePath temp s data optimized x1
                    Hdata Hsharp)).
      fold s1.
      rewrite (@bind_ok _ _ _ _ _ _ _ _ R1), (@bind_ok _ _ _ _ _ _ _ _ R2),
        (@bind_ok _ _ _ _ _ _ _ _ R3).
      reflexivity. }
    rewrite E. cbn [fst snd disk documents s2 s1].
    split; [|split; [reflexivity|split; [reflexivity|]]].
    + intros p Hp. rewrite get_delete_neq, get_set_neq by exact Hp.
      reflexivity.
    + apply get_delete_eq, NoDup_set, N.
  - set (s2 := mkFileState (disk s1) (documents s) (answer s)
                 (mkUState (embeddingCache (embedder s)) x2)).
    assert (R2 : callWorld (visionContent svc imagePrompt
                              (toBase64 svc optimized)) s1
                 = (Throw e, s2))
      by (unfold callWorld; cbn; rewrite V; reflexivity).
    assert (E : run
                = (Throw (newError "Failed to extract text from image"), s2)).
    { subst run. unfold extractTextFromImage. cbv zeta. fold temp.
      erewrite tryCatch_throw; [reflexivity|].
      rewrite (@bind_ok _ _ _ _ _ _ _ _
                 (@sharpToFile_ok Ext svc filePath temp s data optimized x1
                    Hdata Hsharp)).
      fold s1. rewrite (@bind_ok _ _ _ _ _ _ _ _ R1). apply bind_throw, R2. }
    rewrite E. cbn [fst snd disk documents s2 s1].
    split; [|split; [reflexivity|split; [reflexivity|]]].
    + intros p Hp. apply get_set_neq, Hp.
    + apply get_set_eq.
Qed.
End ImageExtraction.

Lemma image_extraction_temp_file_witness :
  let run := extractTextFromImage (scriptedFileServices false)
               "uploads/file-1.png" uploadState in
  NoDup (JsMap.keys (disk uploadState))
  /\ JsMap.get "uploads/file-1.png" (disk uploadState) = Some "pixels"%string
  /\ fst run = Throw (newError "Failed to extract text from image")
  /\ JsMap.get "uploads/file-1.png-optimized.jpg" (disk (snd run))
     = Some "jpeg:pixels"%string.
Proof.
  intros run.
  assert (N : NoDup (JsMap.keys (disk uploadState)))
    by (repeat constructor; intros []).
  assert (H : JsMap.get "uploads/file-1.png" (disk uploadState)
              = Some "pixels"%string) by reflexivity.
  split; [exact N|]. split; [exact H|].
  exact (proj2 (proj2 (@image_extraction_temp_file unit
                         (scriptedFileServices false) "uploads/file-1.png"
                         uploadState "pixels" "jpeg:pixels" tt N H
                         eq_refl))).
Defined.

(** ** The footprint of the file pipeline *)

Section Touches.
Context {Ext : Type} (svc : FileServices Ext).
Variable temp : string.

Lemma touches_ret {A} (a : A) : touchesOnly temp (@ret (FileState Ext) A a).
Proof. intros s. cbn. auto. Qed.

Lemma touches_throw {A} e : touchesOnly temp (@throw (FileState Ext) A e).
Proof. intros s. cbn. auto. Qed.

Lemma touches_gets {A} (f : FileState Ext -> A) : touchesOnly temp (gets f).
Proof. intros s. cbn. auto. Qed.

Lemma touches_bind {A B} (m : M (FileState Ext) A)
    (k : A -> M (FileState Ext) B) :
  touchesOnly temp m -> (forall a, touchesOnly temp (k a)) ->
  touchesOnly temp (bind m k).
Proof.
  intros Hm Hk s. unfold bind. specialize (Hm s).
  destruct (m s) as [[a|e] s1]; cbn [snd] in *; [|exact Hm].
  specialize (Hk a s1). cbv zeta in *.
  destruct Hm as [H1 [H2 [H3 [H4 H5]]]], Hk as [K1 [K2 [K3 [K4 K5]]]].
  repeat split; try congruence; auto.
  intros p Hp. rewrite K4, H4 by exact Hp. reflexivity.
Qed.

Lemma touches_tryCatch {A} (body : M (FileState Ext) A) handler :
  touchesOnly temp body -> (forall e, touchesOnly temp (handler e)) ->
  touchesOnly temp (tryCatch body handler).
Proof.
  intros Hm Hk s. unfold tryCatch. specialize (Hm s).
  destruct (body s) as [[a|e] s1]; cbn [snd] in *; [exact Hm|].
  specialize (Hk e s1). cbv zeta in *.
  destruct Hm as [H1 [H2 [H3 [H4 H5]]]], Hk as [K1 [K2 [K3 [K4 K5]]]].
  repeat split; try congruence; auto.
  intros p Hp. rewrite K4, H4 by exact Hp. reflexivity.
Qed.

Lemma touches_callWorld {A} (f : Ext -> Result A * Ext) :
  touchesOnly temp (callWorld f).
Proof. intros s. unfold callWorld. destruct (f _). cbn. auto. Qed.

Lemma touches_set (content : string) :
  touchesOnly temp (@modifyDisk Ext (JsMap.set temp content)).
Proof.
  intros s. cbn. repeat split; auto.
  - intros p Hp. apply get_set_neq, Hp.
  - apply NoDup_set.
Qed.

Lemma touches_delete : touchesOnly temp (@modifyDisk Ext (JsMap.delete temp)).
Proof.
  intros s. cbn. repeat split; auto.
  - intros p Hp. apply get_delete_neq, Hp.
  - apply NoDup_delete.
Qed.

Lemma touches_readFileSync path : touchesOnly temp (@readFileSync Ext path).
Proof.
  unfold readFileSync. apply touches_bind; [apply touches_gets|].
  intros [data|]; [apply touches_ret|apply touches_throw].
Qed.

Lemma touches_unlinkSync : touchesOnly temp (@unlinkSync Ext temp).
Proof.
  unfold unlinkSync, existsSync. apply touches_bind; [apply touches_gets|].
  intros [|]; [apply touches_delete|apply touches_throw].
Qed.

Lemma touches_cleanupFile : touchesOnly temp (@cleanupFile Ext temp).
Proof.
  unfold cleanupFile, existsSync.
  apply touches_tryCatch; [|intros ?; apply touches_ret].
  apply touches_bind; [apply touches_gets|].
  intros [|]; [apply touches_unlinkSync|apply touches_ret].
Qed.

Lemma touches_extractTextFromPdf path :
  touchesOnly temp (extractTextFromPdf svc path).
Proof.
  unfold extractTextFromPdf.
  apply touches_tryCatch; [|intros ?; apply touches_throw].
  apply touches_bind; [apply touches_readFileSync|].
  intros ?. apply touches_callWorld.
Qed.
End Touches.

Section TouchesMore.
Context {Ext : Type} (svc : FileServices Ext).

Lemma touches_extractTextFromImage path :
  touchesOnly (path ++ "-optimized.jpg") (extractTextFromImage svc path).
Proof.
  unfold extractTextFromImage. cbv zeta.
  apply touches_tryCatch; [|intros ?; apply touches_throw].
  apply touches_bind.
  - unfold sharpToFile. apply touches_bind; [apply touches_gets|].
    intros [data|]; [|apply touches_throw].
    apply touches_bind; [apply touches_callWorld|].
    intros ?. apply touches_set.
  - intros ?. apply touches_bind; [apply touches_readFileSync|].
    intros ?. apply touches_bind; [apply touches_callWorld|].
    intros ?. apply touches_bind; [apply touches_unlinkSync|].
    intros ?. apply touches_ret.
Qed.

Lemma touches_processFile file :
  touchesOnly (UploadedFile.path file ++ "-optimized.jpg")
    (processFile svc file).
Proof.
  unfold processFile.
  apply touches_tryCatch; [|intros ?; apply touches_throw].
  apply touches_bind; [|intros ?; apply touches_ret].
  destruct (String.eqb _ _); [apply touches_extractTextFromPdf|].
  destruct (String.prefix _ _); [apply touches_extractTextFromImage|].
  destruct (String.eqb _ _); [apply touches_readFileSync|apply touches_ret].
Qed.

(** What [processFile] answers. *)
Lemma processFile_result file (s : FileState Ext) :
  match fst (processFile svc file s) with
  | Ok processed =>
      ProcessedFile.fileName processed = UploadedFile.originalname file
      /\ ProcessedFile.fileType processed = UploadedFile.mimetype file
      /\ ProcessedFile.filePath processed = UploadedFile.path file
      /\ ProcessedFile.chunks processed
         = chunkText (ProcessedFile.extractedText processed)
             defaultChunkSize defaultOverlap
  | Throw e =>
      exists cause,
        e = newError ("Failed to process file: " ++ message cause)
  end.
Proof.
  unfold processFile, tryCatch, bind at 1.
  destruct (_ s) as [[text|e] s1]; cbn; eauto.
Qed.
End TouchesMore.

(** ** The file controller *)

Import FileController.

Section Upload.
Context {Ext : Type} (svc : FileServices Ext)
  (generateChunkEmbeddings : list string -> M (UState Ext) (list Chunk.t)).

End Upload.


Section Failures.
Context {Ext : Type} (svc : FileServices Ext)
  (generateChunkEmbeddings : list string -> M (UState Ext) (list Chunk.t)).

Lemma extractTextFromPdf_error path (s : FileState Ext) e :
  fst (extractTextFromPdf svc path s) = Throw e ->
  e = newError "Failed to extract text from PDF".
Proof.
  unfold extractTextFromPdf, tryCatch.
  destruct (bind _ _ s) as [[text|e0] s1]; cbn; [discriminate|].
  intros H. now injection H as <-.
Qed.

Lemma extractTextFromImage_error path (s : FileState Ext) e :
  fst (extractTextFromImage svc path s) = Throw e ->
  e = newError "Failed to extract text from image".
Proof.
  unfold extractTextFromImage, tryCatch.
  match goal with
  | |- fst (match ?b with _ => _ end) = _ -> _ =>
      destruct b as [[text|e0] s1]
  end; cbn; [discriminate|].
  intros H. now injection H as <-.
Qed.

(** X20.  A failure of [processFile] hides its cause: for a PDF and for an
    image the error carries a fixed message, whatever the parser, [sharp]
    or the vision model said; the only other failure is that of a text
    file missing from the disk; a file of another type never fails.
    [uploadFile] then answers 500 with that message. *)
Theorem processFile_failure_message :
  forall (file : UploadedFile.t) (user : nat) (s : FileState Ext)
         (e : Error),
    fst (processFile svc file s) = Throw e ->
    let mimetype := UploadedFile.mimetype file in
    e = newError
          ("Failed to process file: "
             ++ (if String.eqb mimetype "application/pdf"
                 then "Failed to extract text from PDF"
                 else if String.prefix "image/" mimetype
                      then "Failed to extract text from image"
                      else "ENOENT: no such file or directory, open '"
                             ++ UploadedFile.path file ++ "'"))
    /\ (String.eqb mimetype "application/pdf" = false ->
        String.prefix "image/" mimetype = false ->
        mimetype = "text/plain"%string
        /\ JsMap.get (UploadedFile.path file) (disk s) = None)
    /\ answer
         (snd (uploadFile svc generateChunkEmbeddings
                 (UploadRequest.make (Some file) user) s))
       = Some (mkFileResponse 500 (uploadFailed (message e))).
Proof.
  intros file user s e H mimetype.
  assert (U : answer
                (snd (uploadFile svc generateChunkEmbeddings
                        (UploadRequest.make (Some file) user) s))
              = Some (mkFileResponse 500 (uploadFailed (message e)))).
  { unfold uploadFile. cbn [UploadRequest.file].
    destruct (processFile svc file s) as [[pf|e0] s1] eqn:P;
      cbn [fst] in H; [discriminate|]. injection H as ->.
    erewrite tryCatch_throw by (apply bind_throw; exact P). reflexivity. }
  split; [|split; [|exact U]]; clear U; revert H;
    unfold processFile, tryCatch, bind at 1; fold mimetype.
  - destruct (String.eqb mimetype "application/pdf").
    { pose proof (@extractTextFromPdf_error (UploadedFile.path file) s) as X.
      destruct (extractTextFromPdf svc _ s) as [[t|e0] s1]; cbn;
        [discriminate|].
      intros H. injection H as <-. now rewrite (X e0 eq_refl). }
    destruct (String.prefix "image/" mimetype).
    { pose proof (@extractTextFromImage_error (UploadedFile.path file) s)
        as X.
      destruct (extractTextFromImage svc _ s) as [[t|e0] s1]; cbn;
        [discriminate|].
      intros H. injection H as <-. now rewrite (X e0 eq_refl). }
    destruct (String.eqb mimetype "text/plain"); [|discriminate].
    unfold readFileSync, bind, gets.
    destruct (JsMap.get _ (disk s)); cbn; [discriminate|].
    intros H. injection H as <-. reflexivity.
  - intros H Hpdf Himg. rewrite Hpdf, Himg in H.
    destruct (String.eqb_spec mimetype "text/plain") as [E|E];
      [|discriminate].
    split; [exact E|].
    unfold readFileSync, bind, gets in H.
    destruct (JsMap.get _ (disk s)); [discriminate|reflexivity].
Qed.
End Failures.

Lemma processFile_failure_message_witness :
  fst (processFile (scriptedFileServices false) uploadedImage uploadState)
  = Throw (newError
             "Failed to process file: Failed to extract text from image")
  /\ answer
       (snd (uploadFile (scriptedFileServices false)
               (Guarded.generateChunkEmbeddings workingCaps)
               (UploadRequest.make (Some uploadedImage) 7) uploadState))
     = Some (mkFileResponse 500
               (uploadFailed
                  "Failed to process file: Failed to extract text from image")).
Proof.
  assert (H : fst (processFile (scriptedFileServices false) uploadedImage
                     uploadState)
              = Throw (newError
                         "Failed to process file: Failed to extract text from image"))
    by reflexivity.
  split; [exact H|].
  exact (proj2 (proj2 (@processFile_failure_message unit
                         (scriptedFileServices false)
                         (Guarded.generateChunkEmbeddings workingCaps)
                         uploadedImage 7 uploadState _ H))).
Defined.

Section Delete.
Context {Ext : Type} (svc : FileServices Ext).

Lemma removeFirst_spec (matches : FileDoc.t -> bool) (docs : list FileDoc.t) :
  (exists before doc after,
      docs = before ++ doc :: after
      /\ matches doc = true
      /\ forallb (fun d => negb (matches d)) before = true
      /\ removeFirst matches docs = (before ++ after, 1))
  \/ (forallb (fun d => negb (matches d)) docs = true
      /\ removeFirst matches docs = (docs, 0)).
Proof.
  induction docs as [|d docs IH]; [right; split; reflexivity|].
  cbn [removeFirst forallb]. destruct (matches d) eqn:Md.
  - left. exists [], d, docs. cbn. auto.
  - cbn [negb andb].
    destruct IH as [[before [doc [after [-> [Hm [Hb ->]]]]]]|[Hn ->]].
    + left. exists (d :: before), doc, after. cbn. rewrite Md, Hb. auto.
    + right. auto.
Qed.

(** X21.  [deleteFile] removes one document at most, the first that has
    the id of the request and belongs to the requester, and then answers
    200; when no document of the requester has that id it answers 404, and
    when the store fails, 500, the collection being left as it was.  The
    disk is never touched. *)
Theorem deleteFile_outcome :
  forall (req : DeleteRequest.t) (s : FileState Ext),
    let s' := snd (deleteFile svc req s) in
    let mine doc :=
      (FileDoc._id doc =? DeleteRequest.id req)
      && (FileDoc.userId doc =? DeleteRequest.user req) in
    disk s' = disk s
    /\ ((exists before doc after,
            documents s = before ++ doc :: after
            /\ documents s' = before ++ after
            /\ mine doc = true
            /\ forallb (fun d => negb (mine d)) before = true
            /\ answer s' = Some (mkFileResponse 200 fileDeleted))
        \/ (documents s' = documents s
            /\ ((forallb (fun d => negb (mine d)) (documents s) = true
                 /\ answer s' = Some (mkFileResponse 404 fileNotFound))
                \/ exists err,
                     fst (fileDeleteOutcome svc (ext (embedder s)))
                     = Some err
                     /\ answer s'
                        = Some (mkFileResponse 500
                                  (deleteFailed (message err)))))).
Proof.
  intros req s s' mine. subst s'.
  destruct (fileDeleteOutcome svc (ext (embedder s))) as [outcome x1] eqn:O.
  set (s1 := mkFileState (disk s) (documents s) (answer s)
               (mkUState (embeddingCache (embedder s)) x1)).
  destruct outcome as [err|]; cbn [fst].
  - assert (F : File_deleteOne svc (DeleteRequest.id req)
                  (DeleteRequest.user req) s = (Throw err, s1))
      by (unfold File_deleteOne, bind, callWorld; rewrite O; reflexivity).
    unfold deleteFile.
    erewrite tryCatch_throw by (apply bind_throw; exact F).
    cbn. split; [reflexivity|]. right. split; [reflexivity|].
    right. exists err. auto.
  - destruct (removeFirst mine (documents s)) as [docs deletedCount] eqn:R.
    assert (F : File_deleteOne svc (DeleteRequest.id req)
                  (DeleteRequest.user req) s
                = (Ok deletedCount,
                   mkFileState (disk s1) docs (answer s1) (embedder s1))).
    { unfold File_deleteOne, bind, callWorld. rewrite O.
      cbn [documents]. fold mine. rewrite R. reflexivity. }
    unfold deleteFile, tryCatch.
    rewrite (@bind_ok _ _ _ _ _ _ _ _ F).
    destruct (removeFirst_spec mine (documents s))
      as [[before [doc [after [E [Hm [Hb R']]]]]]|[Hn R']];
      rewrite R in R'; injection R' as -> ->; cbn.
    + split; [reflexivity|]. left. exists before, doc, after. auto.
    + split; [reflexivity|]. right. auto.
Qed.
End Delete.

(** ** The image exchange *)

Import GeminiImageController.

Section ImageLogic.
Context {Ext : Type} (svc : Services Ext) (img : ImageServices Ext).

Lemma keepsBoth_hoare {A} (m : M (ImageState Ext) A)
    (J : Store -> JsMap.t string -> Prop) :
  keepsStoreAndUploads m ->
  hoare (fun s => J (store (chatState s)) (uploads s)) m
    (fun _ s => J (store (chatState s)) (uploads s))
    (fun _ s => J (store (chatState s)) (uploads s)).
Proof.
  intros K s Hs. destruct (K s) as [K1 K2].
  destruct (m s) as [[a|e] s1]; cbn [snd] in K1, K2; now rewrite K1, K2.
Qed.

Lemma keepsBoth_liftC {A} (m : M (State Ext) A) :
  keepsStore m -> keepsStoreAndUploads (liftC m).
Proof.
  intros K s. unfold liftC. specialize (K (chatState s)).
  destruct (m (chatState s)) as [r c]. cbn in *. auto.
Qed.

Lemma keepsBoth_res_json code b :
  keepsStoreAndUploads (@GeminiImageController.res_json Ext code b).
Proof. intros s. cbn. auto. Qed.

Lemma keepsBoth_readFileSync path :
  keepsStoreAndUploads (@GeminiImageController.readFileSync Ext path).
Proof.
  intros s. unfold GeminiImageController.readFileSync, bind, gets.
  destruct (JsMap.get path (uploads s)); cbn; auto.
Qed.

Lemma keepsBoth_generateImageTitle chat message aiReply :
  keepsStoreAndUploads (generateImageTitle svc chat message aiReply).
Proof.
  intros s. unfold generateImageTitle, tryCatch, bind.
  pose proof (keepsBoth_liftC (keeps_callServiceResult
                (titleContent svc (imageTitlePrompt message aiReply))) s)
    as K.
  destruct (liftC _ s) as [[t|e] s1]; cbn in *; exact K.
Qed.

Lemma cleanUp_run path (s : ImageState Ext) :
  cleanUp path s
  = (Ok tt,
     mkImageState (chatState s) (without path (uploads s))
       (imageAnswer s)).
Proof.
  unfold cleanUp, tryCatch, GeminiImageController.unlinkSync, bind, gets,
    without.
  destruct (JsMap.has path (uploads s)); cbn; [reflexivity|].
  destruct s; reflexivity.
Qed.

Lemma without_gone path (dir : JsMap.t string) :
  NoDup (JsMap.keys dir) -> JsMap.get path (without path dir) = None.
Proof.
  intros N. unfold without. rewrite has_get.
  destruct (JsMap.get path dir) eqn:D; [apply get_delete_eq, N|exact D].
Qed.

Lemma without_other path p (dir : JsMap.t string) :
  p <> path -> JsMap.get p (without path dir) = JsMap.get p dir.
Proof.
  intros N. unfold without.
  destruct (JsMap.has path dir); [apply get_delete_neq, N|reflexivity].
Qed.

Lemma hoare_liftC {A} (m : M (State Ext) A) (P : State Ext -> Prop)
    (Q : A -> State Ext -> Prop) (E : Error -> State Ext -> Prop)
    (F : JsMap.t string -> Prop) :
  hoare P m Q E ->
  hoare (fun s => P (chatState s) /\ F (uploads s)) (liftC m)
    (fun a s => Q a (chatState s) /\ F (uploads s))
    (fun e s => E e (chatState s) /\ F (uploads s)).
Proof.
  intros H s [Hp Hf]. unfold liftC. specialize (H _ Hp).
  destruct (m (chatState s)) as [[a|e] c]; cbn; auto.
Qed.

Lemma imageTitle_run (c2 : Chat.t) (titled : bool) message aiReply
    (J : Store -> JsMap.t string -> Prop) :
  hoare (fun s => J (store (chatState s)) (uploads s))
    (if titled then generateImageTitle svc c2 message aiReply else ret c2)
    (fun c3 s =>
       (if titled
        then exists title,
               c3 = Chat.setTitle c2 title /\ String.length title <= 50
        else c3 = c2)
       /\ J (store (chatState s)) (uploads s))
    (fun _ s => J (store (chatState s)) (uploads s)).
Proof.
  destruct titled; [|apply hoare_ret; auto].
  unfold generateImageTitle.
  eapply hoare_tryCatch.
  - eapply hoare_bind.
    + apply (@keepsBoth_hoare _ _ J), keepsBoth_liftC,
        keeps_callServiceResult.
    + intros titleText. apply hoare_ret. intros s Hs. split; [|exact Hs].
      eexists. split; [reflexivity|]. apply truncateTitle_length.
  - intros e. apply hoare_ret. intros s Hs. split; [|exact Hs].
    eexists. split; [reflexivity|]. cbn. lia.
Qed.

Section Run.
Variables (req : ImageRequest.t) (reqFile : UploadedFile.t).
Variables (st0 : Store) (up0 : JsMap.t string).
Hypothesis Hfile : ImageRequest.file req = Some reqFile.

(** What the body of the [try] leaves in the store and in the upload
    directory. *)
Lemma processImage_run :
  hoare (fun s => store (chatState s) = st0 /\ uploads s = up0)
    (processImage svc img req)
    (fun _ s =>
       (findChat (ImageRequest.chatId req) (ImageRequest.user req) st0 = None
        /\ store (chatState s) = st0 /\ uploads s = up0
        /\ imageAnswer s = Some (mkImageResponse 404 imageChatNotFound))
       \/ exists chat0 aiReply c3,
            findChat (ImageRequest.chatId req) (ImageRequest.user req) st0
            = Some chat0
            /\ imageReplied req reqFile chat0 aiReply c3
            /\ store (chatState s) = saveChat c3 st0
            /\ uploads s = without (UploadedFile.path reqFile) up0
            /\ imageAnswer s
               = Some (mkImageResponse 200
                         (imageProcessed aiReply (Chat.title c3))))
    (fun _ s =>
       uploads s = up0
       /\ (store (chatState s) = st0
           \/ exists chat0,
                findChat (ImageRequest.chatId req) (ImageRequest.user req) st0
                = Some chat0
                /\ store (chatState s)
                   = saveChat
                       (Chat.pushMessage chat0 (imageUserMessage req reqFile))
                       st0)).
Proof.
  unfold processImage. cbv zeta. rewrite Hfile.
  set (J0 := fun (st : Store) (up : JsMap.t string) => st = st0 /\ up = up0).
  assert (E0 : forall (e : Error) (s : ImageState Ext),
             J0 (store (chatState s)) (uploads s) ->
             uploads s = up0
             /\ (store (chatState s) = st0
                 \/ exists chat0,
                      findChat (ImageRequest.chatId req)
                        (ImageRequest.user req) st0 = Some chat0
                      /\ store (chatState s)
                         = saveChat
                             (Chat.pushMessage chat0
                                (imageUserMessage req reqFile)) st0)).
  { intros e s [H1 H2]. auto. }
  eapply hoare_bind.
  { eapply hoare_weaken.
    - eapply (@hoare_liftC _ _ _ _ _ (fun up => up = up0)).
      apply (Chat_findOne_hoare svc (ImageRequest.chatId req)
               (ImageRequest.user req) (fun st => st = st0)).
    - cbv beta. intros s H. exact H.
    - cbv beta. intros found s H. exact H.
    - cbv beta. intros e s [H1 H2]. auto. }
  intros found. cbv beta. intros s [[Hf Hs] Hu]. rewrite Hs in Hf.
  revert s Hs Hu. destruct found as [chat0|].
  2:{ intros s Hs Hu. cbn. left. auto. }
  symmetry in Hf. intros s Hs Hu.
  assert (P0 : J0 (store (chatState s)) (uploads s)) by (split; assumption).
  clear Hs Hu. revert s P0.
  eapply hoare_bind.
  { eapply hoare_weaken;
      [apply (@keepsBoth_hoare _ _ J0), keepsBoth_readFileSync| | |];
      cbv beta; [auto|intros ? ? H; exact H|exact E0]. }
  intros imageData.
  eapply hoare_bind.
  { eapply hoare_weaken;
      [apply (@keepsBoth_hoare _ _ J0), keepsBoth_liftC, keeps_emit| | |];
      cbv beta; [auto|intros ? ? H; exact H|exact E0]. }
  intros ?.
  set (c1 := Chat.pushMessage chat0 _).
  change c1 with (Chat.pushMessage chat0 (imageUserMessage req reqFile)) in *.
  clear c1. set (c1 := Chat.pushMessage chat0 (imageUserMessage req reqFile)).
  set (J1 := fun (st : Store) (up : JsMap.t string) =>
               st = saveChat c1 st0 /\ up = up0).
  assert (E1 : forall (e : Error) (s : ImageState Ext),
             J1 (store (chatState s)) (uploads s) ->
             uploads s = up0
             /\ (store (chatState s) = st0
                 \/ exists chat0',
                      findChat (ImageRequest.chatId req)
                        (ImageRequest.user req) st0 = Some chat0'
                      /\ store (chatState s)
                         = saveChat
                             (Chat.pushMessage chat0'
                                (imageUserMessage req reqFile)) st0)).
  { intros e s [H1 H2]. split; [exact H2|]. right. exists chat0. auto. }
  eapply hoare_bind.
  { eapply hoare_weaken.
    - eapply (@hoare_liftC _ _ _ _ _ (fun up => up = up0)).
      apply (@Chat_save_first Ext svc st0 c1).
    - cbv beta. intros s H. exact H.
    - cbv beta. intros ? s H. exact H.
    - cbv beta. intros e s [H1 H2]. auto. }
  intros ?.
  eapply hoare_bind.
  { eapply hoare_weaken;
      [apply (@keepsBoth_hoare _ _ J1), keepsBoth_liftC,
         keeps_callServiceResult| | |];
      cbv beta; [auto|intros ? ? H; exact H|exact E1]. }
  intros stream.
  eapply hoare_bind.
  { eapply hoare_weaken;
      [apply (@keepsBoth_hoare _ _ J1), keepsBoth_liftC,
         keeps_consumeStream| | |];
      cbv beta; [auto|intros ? ? H; exact H|exact E1]. }
  intros aiReply.
  set (c2 := Chat.pushMessage c1 _).
  eapply hoare_bind.
  { eapply hoare_weaken; [apply (imageTitle_run c2 _ _ _ J1)| | |];
      cbv beta; [auto|intros ? ? H; exact H|exact E1]. }
  intros c3. apply hoare_pure. intros T.
  assert (R : imageReplied req reqFile chat0 aiReply c3).
  { unfold imageReplied. cbv zeta. fold c1.
    change (imageReplyMessage aiReply) with (Message.make ai aiReply None []).
    fold c2.
    assert (L : (List.length (Chat.messages c2) <=? 2)
                = (List.length (Chat.messages chat0) =? 0)).
    { unfold c2, c1. cbn [Chat.pushMessage Chat.messages].
      rewrite !length_app. cbn [List.length].
      destruct (List.length (Chat.messages chat0)) as [|n]; [reflexivity|].
      cbn [Nat.eqb].
      destruct (Nat.leb_spec (S n + 1 + 1) 2); [lia|reflexivity]. }
    rewrite <- L. exact T. }
  assert (Hid : Chat._id c1 = Chat._id c3).
  { clear - T. destruct (_ <=? 2); [destruct T as [t [-> _]]|subst c3];
      reflexivity. }
  eapply hoare_bind.
  { eapply hoare_weaken.
    - eapply (@hoare_liftC _ _ _ _ _ (fun up => up = up0)).
      apply (@Chat_save_run Ext svc st0 c3 c1 Hid).
    - cbv beta. intros s H. exact H.
    - cbv beta. intros ? s H. exact H.
    - cbv beta. intros e s H. apply (E1 e). exact H. }
  intros ? s [Hs Hu].
  unfold bind. rewrite cleanUp_run.
  unfold liftC, emit, modify, GeminiImageController.res_json. cbn.
  right. exists chat0, aiReply, c3.
  destruct (io (chatState s)); cbn; rewrite Hu; auto 10.
Qed.
End Run.
End ImageLogic.

Section ImageExtras.
Context {Ext : Type} (svc : Services Ext) (img : ImageServices Ext).

Lemma onImageError_run (req : ImageRequest.t) (reqFile : UploadedFile.t)
    (err : Error) (s : ImageState Ext) :
  ImageRequest.file req = Some reqFile ->
  exists c,
    onImageError req err s
    = (Ok tt,
       mkImageState c (without (UploadedFile.path reqFile) (uploads s))
         (Some (mkImageResponse 500 (visionFailed (errorMessage err)))))
    /\ store c = store (chatState s).
Proof.
  intros Hfile. unfold onImageError. rewrite Hfile.
  destruct (liftC (emit (ImageRequest.user req)
                     (errorEvent (ImageRequest.chatId req) (message err))) s)
    as [r s1] eqn:L.
  assert (H : r = Ok tt /\ uploads s1 = uploads s
              /\ store (chatState s1) = store (chatState s)).
  { unfold liftC, emit, modify in L.
    destruct (io (chatState s)); injection L as <- <-; cbn; auto. }
  destruct H as [-> [Hu Hs]].
  exists (chatState s1).
  rewrite (@bind_ok _ _ _ _ _ _ _ _ L).
  rewrite (@bind_ok _ _ _ _ _ _ _ _ (cleanUp_run _ s1)).
  unfold GeminiImageController.res_json, modify. cbn. rewrite Hu. auto.
Qed.

(** X22.  The uploaded image after [sendImageMessage]: it is removed from
    the upload directory when the exchange goes through and when it fails
    in the [try], but it is left there when the chat is not found and the
    answer is 404.  No other file of the directory changes. *)
Theorem image_upload_cleanup :
  forall (req : ImageRequest.t) (reqFile : UploadedFile.t)
         (s : ImageState Ext),
    ImageRequest.file req = Some reqFile ->
    NoDup (JsMap.keys (uploads s)) ->
    let s' := snd (sendImageMessage svc img req s) in
    let path := UploadedFile.path reqFile in
    (forall p, p <> path ->
               JsMap.get p (uploads s') = JsMap.get p (uploads s))
    /\ ((imageAnswer s' = Some (mkImageResponse 404 imageChatNotFound)
         /\ findChat (ImageRequest.chatId req) (ImageRequest.user req)
              (store (chatState s)) = None
         /\ uploads s' = uploads s)
        \/ ((exists body,
                imageAnswer s' = Some (mkImageResponse 200 body)
                \/ imageAnswer s' = Some (mkImageResponse 500 body))
            /\ JsMap.get path (uploads s') = None)).
Proof.
  intros req reqFile s Hfile N s' path. subst s'.
  unfold sendImageMessage, tryCatch.
  pose proof (@processImage_run _ svc img req reqFile (store (chatState s))
                (uploads s) Hfile s (conj eq_refl eq_refl)) as R.
  destruct (processImage svc img req s) as [[[]|err] s1].
  - cbn [snd].
    destruct R as [[Hn [Hs [Hu Ha]]]|[chat0 [aiReply [c3 H]]]].
    + split; [intros p _; now rewrite Hu|]. left. auto.
    + destruct H as [_ [_ [_ [Hu Ha]]]]. rewrite Hu.
      split; [intros p Hp; apply without_other, Hp|].
      right. split; [eauto|apply without_gone, N].
  - destruct R as [Hu _].
    destruct (onImageError_run req err s1 Hfile) as [c [E _]].
    rewrite E. cbn [snd uploads imageAnswer]. rewrite Hu.
    split; [intros p Hp; apply without_other, Hp|].
    right. split; [eauto|apply without_gone, N].
Qed.

(** X23.  An image exchange that goes through stores two messages after
    those the chat had, neither with an embedding, so that neither is ever
    a candidate of the retrieval; the summaries are those stored before;
    the title changes only when the chat had no message, to a title of at
    most 50 characters; the answer is 200 with the content of the stored
    reply and the stored title. *)
Theorem image_exchange_stored :
  forall (req : ImageRequest.t) (reqFile : UploadedFile.t)
         (s s1 : ImageState Ext) (chat0 : Chat.t),
    ImageRequest.file req = Some reqFile ->
    findChat (ImageRequest.chatId req) (ImageRequest.user req)
      (store (chatState s)) = Some chat0 ->
    processImage svc img req s = (Ok tt, s1) ->
    sendImageMessage svc img req s = (Ok tt, s1)
    /\ exists stored aiReply,
         findChat (ImageRequest.chatId req) (ImageRequest.user req)
           (store (chatState s1)) = Some stored
         /\ Chat.messages stored
            = Chat.messages chat0
                ++ [imageUserMessage req reqFile; imageReplyMessage aiReply]
         /\ hasEmbedding (Message.embedding (imageUserMessage req reqFile))
            = false
         /\ hasEmbedding (Message.embedding (imageReplyMessage aiReply))
            = false
         /\ Chat.summaries stored = Chat.summaries chat0
         /\ (Chat.messages chat0 <> [] ->
             Chat.title stored = Chat.title chat0)
         /\ (Chat.messages chat0 = [] ->
             String.length (Chat.title stored) <= 50)
         /\ imageAnswer s1
            = Some (mkImageResponse 200
                      (imageProcessed aiReply (Chat.title stored))).
Proof.
  intros req reqFile s s1 chat0 Hfile Hf Hp.
  split; [unfold sendImageMessage, tryCatch; rewrite Hp; reflexivity|].
  pose proof (@processImage_run _ svc img req reqFile (store (chatState s))
                (uploads s) Hfile s (conj eq_refl eq_refl)) as R.
  rewrite Hp in R.
  destruct R as [[Hn _]|[chat0' [aiReply [c3 [Hf' [R [Hs [_ Ha]]]]]]]];
    [congruence|].
  rewrite Hf in Hf'. injection Hf' as <-.
  destruct (@findChat_ids _ _ _ _ Hf) as [Hid Hu].
  exists c3, aiReply. unfold imageReplied in R. cbv zeta in R.
  assert (F : Chat._id c3 = Chat._id chat0 /\ Chat.userId c3 = Chat.userId chat0
              /\ Chat.messages c3
                 = Chat.messages chat0
                     ++ [imageUserMessage req reqFile;
                         imageReplyMessage aiReply]
              /\ Chat.summaries c3 = Chat.summaries chat0
              /\ (Chat.messages chat0 <> [] ->
                  Chat.title c3 = Chat.title chat0)
              /\ (Chat.messages chat0 = [] ->
                  String.length (Chat.title c3) <= 50)).
  { destruct (Chat.messages chat0) as [|m ms] eqn:Hm; cbn [List.length Nat.eqb] in R.
    - destruct R as [title [-> L]]. cbn. rewrite Hm. cbn.
      repeat split; auto. intros H; destruct H; reflexivity.
    - subst c3. cbn. rewrite Hm, <- app_assoc. cbn.
      repeat split; auto. discriminate. }
  destruct F as [F1 [F2 [F3 [F4 [F5 F6]]]]].
  rewrite Hs.
  split; [eapply findChat_saveChat; [exact Hf|congruence|congruence]|].
  auto 10.
Qed.
End ImageExtras.

Lemma image_upload_cleanup_witness :
  let s' := snd (GeminiImageController.sendImageMessage workingServices
                   workingImageServices imageRequest
                   (imageState [foreignChat])) in
  ImageRequest.file imageRequest = Some uploadedImage
  /\ NoDup (JsMap.keys (uploads (imageState [foreignChat])))
  /\ imageAnswer s' = Some (mkImageResponse 404 imageChatNotFound)
  /\ JsMap.get "uploads/file-1.png" (uploads s') = Some "pixels"%string
  /\ forall p, p <> UploadedFile.path uploadedImage ->
               JsMap.get p (uploads s')
               = JsMap.get p (uploads (imageState [foreignChat])).
Proof.
  intros s'.
  assert (N : NoDup (JsMap.keys (uploads (imageState [foreignChat]))))
    by (repeat constructor; intros []).
  split; [reflexivity|]. split; [exact N|].
  split; [reflexivity|]. split; [reflexivity|].
  exact (proj1 (@image_upload_cleanup unit workingServices
                  workingImageServices imageRequest uploadedImage
                  (imageState [foreignChat]) eq_refl N)).
Defined.

Lemma image_exchange_stored_witness :
  let run := GeminiImageController.processImage workingServices
               workingImageServices imageRequest (imageState [newChat]) in
  ImageRequest.file imageRequest = Some uploadedImage
  /\ findChat (ImageRequest.chatId imageRequest)
       (ImageRequest.user imageRequest)
       (store (chatState (imageState [newChat])))
     = Some newChat
  /\ fst run = Ok tt
  /\ imageAnswer (snd run)
     = Some (mkImageResponse 200 (imageProcessed "A cat." "Greeting"))
  /\ exists stored aiReply,
       findChat (ImageRequest.chatId imageRequest)
         (ImageRequest.user imageRequest) (store (chatState (snd run)))
       = Some stored
       /\ Chat.messages stored
          = Chat.messages newChat
              ++ [imageUserMessage imageRequest uploadedImage;
                  imageReplyMessage aiReply].
Proof.
  intros run.
  assert (H : findChat (ImageRequest.chatId imageRequest)
                (ImageRequest.user imageRequest)
                (store (chatState (imageState [newChat])))
              = Some newChat) by reflexivity.
  assert (A : fst run = Ok tt) by reflexivity.
  split; [reflexivity|]. split; [exact H|]. split; [exact A|].
  split; [reflexivity|].
  subst run.
  destruct (GeminiImageController.processImage workingServices
              workingImageServices imageRequest (imageState [newChat]))
    as [r s1] eqn:E.
  cbn [fst snd] in *. subst r.
  destruct (@image_exchange_stored unit workingServices workingImageServices
              imageRequest uploadedImage (imageState [newChat]) s1 newChat
              eq_refl H E) as [_ [stored [aiReply [H1 [H2 _]]]]].
  exists stored, aiReply. split; [exact H1|exact H2].
Defined.

(** The requester's document is removed and the other one stays; a
    document of another user is not found. *)
Example deleteFile_samples :
  let own := snd (deleteFile (scriptedFileServices true)
                    (DeleteRequest.make 3 7) documentState) in
  let foreign := snd (deleteFile (scriptedFileServices true)
                        (DeleteRequest.make 4 7) documentState) in
  documents own = [foreignDocument]
  /\ answer own = Some (mkFileResponse 200 fileDeleted)
  /\ documents foreign = [foreignDocument; ownDocument]
  /\ answer foreign = Some (mkFileResponse 404 fileNotFound).
Proof. repeat split; reflexivity. Qed.

Section Accepted.
Context {Ext : Type} (svc : FileServices Ext).

(** X24.  A file that [fileFilter] accepts has an extraction branch in
    [processFile]: it is a PDF, an image or a plain text, and never falls
    through to the empty text.  For a plain text that is on the disk,
    [processFile] returns its content as the extracted text, with the
    chunks of that content, and changes nothing. *)
Theorem accepted_file_is_extracted :
  forall (file : UploadedFile.t) (s : FileState Ext),
    fileFilter file = Ok true ->
    let mimetype := UploadedFile.mimetype file in
    (mimetype = "application/pdf"%string
     \/ String.prefix "image/" mimetype = true
        /\ mimetype <> "application/pdf"%string
     \/ mimetype = "text/plain"%string)
    /\ (mimetype = "text/plain"%string ->
        forall content,
          JsMap.get (UploadedFile.path file) (disk s) = Some content ->
          processFile svc file s
          = (Ok (ProcessedFile.make (UploadedFile.originalname file)
                   mimetype (UploadedFile.path file) content
                   (chunkText content defaultChunkSize defaultOverlap)),
             s)).
Proof.
  intros file s H mimetype. split.
  - unfold fileFilter in H. fold mimetype in H.
    destruct (existsb (String.eqb mimetype) allowedTypes) eqn:E;
      [|discriminate].
    apply existsb_exists in E. destruct E as [t [Hin Ht]].
    apply String.eqb_eq in Ht. rewrite Ht.
    cbn in Hin.
    destruct Hin as [<-|[<-|[<-|[<-|[<-|[]]]]]];
      auto; right; left; split; try reflexivity; discriminate.
  - intros Ht content Hc. unfold processFile. fold mimetype. rewrite Ht.
    cbn [String.eqb Ascii.eqb Bool.eqb String.prefix].
    apply tryCatch_ok.
    rewrite (@bind_ok _ _ _ _ _ _ _ _ (@readFileSync_ok Ext _ s content Hc)).
    reflexivity.
Qed.
End Accepted.

Lemma accepted_file_is_extracted_witness :
  fileFilter uploadedText = Ok true
  /\ processFile (scriptedFileServices true) uploadedText textState
     = (Ok (ProcessedFile.make "notes.txt" "text/plain" "uploads/file-2.txt"
              "Some notes." ["Some notes."%string]),
        textState).
Proof.
  assert (H : fileFilter uploadedText = Ok true) by reflexivity.
  split; [exact H|].
  exact (proj2 (@accepted_file_is_extracted unit (scriptedFileServices true)
                  uploadedText textState H) eq_refl "Some notes."%string
           eq_refl).
Defined.
